(** * Freight-POC: multi-provider zone graph, A-star engines and ranking facade

    Shallow embedding of [data_model.py], [engine.py] (bidirectional A-star)
    and [engine_new.py] (forward A-star).

    Conventions of the embedding.
    - A Python [float] that comes from the data (charges, rates, hours,
      weights) is an exact rational [Q]; rounding is not modelled.  A float
      that may be [float('inf')] (thresholds, path totals) is an [efloat].
      NaN and negative infinity are outside the model.  A property of a
      sum of floats is stated in the order in which the code adds, so that
      it reads the same on floats; a property of [calculateCost] that
      depends on rounding is stated over [Rounded.calculateCost], where
      every operation is followed by a rounding.
    - A Python [dict] whose iteration order is never observed is a [gmap];
      a dict that is iterated ([providerZones], [zoneRoutes]) is the list of
      its items in insertion order.
    - A [while] loop takes a fuel argument; running out of fuel is the
      outcome [OutOfFuel], a Python exception is [Raise].
    - [heapq] is a list from which [heappop] extracts the least entry; the
      entries are [(f, counter, node)] with pairwise distinct counters, so
      the least entry is the one [heapq.heappop] returns.
    - A Python [set] that is iterated ([common_nodes], the provider sets)
      is visited in one fixed order ([elements], first occurrences); Python
      fixes none.
    - [math.sqrt] is a parameter of the engines' sections: every property
      holds whatever function stands for it.
    - The [id] and [createdAt] of a shipment are plain fields.  The [id] of
      a [MultiHopPath], a fresh [uuid4] for every object, is left out of the
      record: the engines never read it. *)

From Stdlib Require Import QArith Qminmax Qround Lia Lqa.
From stdpp Require Import gmap strings list fin_maps fin_sets sorting.

Local Open Scope string_scope.
Local Open Scope list_scope.

(** ** Numbers *)

(** [b > a] on floats, as a boolean. *)
Definition Qgtb (b a : Q) : bool := negb (Qle_bool b a).

(** Python's [max(a, b)]: [b] if [b > a], else [a]. *)
Definition py_max (a b : Q) : Q := if Qgtb b a then b else a.

(** A float that is finite or [float('inf')]. *)
Inductive efloat : Type :=
| Fin (q : Q)
| PInf.

(** [x > m] for a finite [x] and a threshold [m]. *)
Definition exceeds (x : Q) (m : efloat) : bool :=
  match m with
  | Fin q => Qgtb x q
  | PInf => false
  end.

(** [x <= y] on [efloat]. *)
Definition ef_leb (x y : efloat) : bool :=
  match x, y with
  | _, PInf => true
  | PInf, Fin _ => false
  | Fin a, Fin b => Qle_bool a b
  end.

Definition ef_le (x y : efloat) : Prop := ef_leb x y = true.

(** ** Outcomes of fallible and looping code *)

Inductive exn : Type :=
| ValueError (msg : string)
| KeyError
| ZeroDivisionError.

Inductive outcome (A : Type) : Type :=
| OutOfFuel
| Raise (e : exn)
| Ret (a : A).
Arguments OutOfFuel {A}.
Arguments Raise {A} e.
Arguments Ret {A} a.

Definition obind {A B} (m : outcome A) (k : A -> outcome B) : outcome B :=
  match m with
  | OutOfFuel => OutOfFuel
  | Raise e => Raise e
  | Ret a => k a
  end.

Global Instance outcome_bind : MBind outcome := fun A B k m => obind m k.
Global Instance outcome_ret : MRet outcome := fun A a => Ret a.

(** [d[k]] on a dict: [KeyError] when the key is missing. *)
Definition getitem {K A} `{Countable K} (d : gmap K A) (k : K) : outcome A :=
  match d !! k with
  | Some a => Ret a
  | None => Raise KeyError
  end.

(** Run the steps of a [for] loop whose body can raise. *)
Fixpoint ofoldl {A B} (f : A -> B -> outcome A) (a : A) (l : list B) : outcome A :=
  match l with
  | [] => Ret a
  | b :: l' => a' ← f a b; ofoldl f a' l'
  end.

(** A [while] loop: the body either hands on the next state ([inl]) or
    leaves the loop with a result ([inr]). *)
Fixpoint while_loop {St R} (body : St -> outcome (St + R)) (fuel : nat) (st : St)
  : outcome R :=
  match fuel with
  | O => OutOfFuel
  | S fuel' =>
      r ← body st;
      match r with
      | inl st' => while_loop body fuel' st'
      | inr res => Ret res
      end
  end.

(** ** data_model.py *)

Module Postcode.
Record t : Type := mk {
  code : string;
  suburb : string;
  state : string;
  region : option string
}.
End Postcode.

Module ProviderZone.
Record t : Type := mk {
  providerId : string;
  zoneCode : string;
  postcodes : list string;
  state : string;
  category : string
}.
End ProviderZone.

Module ProviderZoneRoute.
Record t : Type := mk {
  providerId : string;
  fromZone : string;
  toZone : string;
  serviceType : string;
  baseCharge : Q;
  perKGRate : Q;
  minCharge : Q;
  deliveryHrs : Q;
  maxMass : Q;
  maxCBM : Q;
  maxPallets : Z;
  reliabilityScore : Q;
  fuelLevyPct : Q
}.

(** [calculateCost]: the early return for [weightKG <= 0] hands back
    [minCharge] itself; the levy is added on the other branch only. *)
Definition calculateCost (self : t) (weightKG : Q) : Q :=
  if Qle_bool weightKG 0 then minCharge self
  else
    let charge := py_max (baseCharge self + weightKG * perKGRate self) (minCharge self) in
    let charge := (charge + charge * (fuelLevyPct self / 100))%Q in
    charge.
End ProviderZoneRoute.

Module Shipment.
Record t : Type := mk {
  id : string;
  originPC : string;
  originSbrb : string;
  originState : string;
  destPC : string;
  destSbrb : string;
  destState : string;
  weightKG : Q;
  volumeCBM : Q;
  pallets : Z;
  items : list (string * Z);
  serviceType : string;
  createdAt : Z
}.
End Shipment.

(** A search vertex: the tuple [(nodeType, nodeId, providerId)]. *)
Inductive NodeType : Type := Pc | Pz.

Global Instance NodeType_eq_dec : EqDecision NodeType.
Proof. solve_decision. Defined.

Global Instance NodeType_countable : Countable NodeType.
Proof.
  refine (inj_countable' (fun t => match t with Pc => true | Pz => false end)
                         (fun b : bool => if b then Pc else Pz) _).
  by intros [].
Defined.

Definition node : Type := NodeType * string * option string.

Definition node_type (n : node) : NodeType := n.1.1.
Definition node_id (n : node) : string := n.1.2.
Definition node_provider (n : node) : option string := n.2.

(** A segment dict of a path.  [engine.py] fills [type] and [service] and
    sets [providerId] on zone routes only; [engine_new.py] fills
    [providerId] and leaves the other two out. *)
Record Segment : Type := mkSegment {
  seg_fromZone : string;
  seg_toZone : string;
  seg_cost : Q;
  seg_etd : Q;
  seg_type : option string;
  seg_service : option string;
  seg_providerId : option string
}.

Module MultiHopPath.
Record t : Type := mk {
  shipmentId : string;
  nodes : list node;
  segments : list Segment;
  totalCost : efloat;
  totalETD : efloat;
  providersInvolved : list string;
  numHops : nat;
  reliabilityScore : Q;
  totScore : Q;
  rank : nat
}.

(** The dataclass constructor with the defaults of the fields the
    engines never pass, followed by [__post_init__], which replaces
    [providersInvolved] by [list(set(providersInvolved))]. *)
Definition init (shipmentId : string) (totalCost totalETD : efloat)
    (nodes : list node) (segments : list Segment)
    (providersInvolved : list string) (numHops : nat) : t :=
  {| shipmentId := shipmentId;
     nodes := nodes;
     segments := segments;
     totalCost := totalCost;
     totalETD := totalETD;
     providersInvolved := remove_dups providersInvolved;
     numHops := numHops;
     reliabilityScore := 1;
     totScore := 0;
     rank := 0 |}.

Definition set_totScore (p : t) (s : Q) : t :=
  {| shipmentId := shipmentId p; nodes := nodes p; segments := segments p;
     totalCost := totalCost p; totalETD := totalETD p;
     providersInvolved := providersInvolved p; numHops := numHops p;
     reliabilityScore := reliabilityScore p; totScore := s; rank := rank p |}.

Definition set_rank (p : t) (r : nat) : t :=
  {| shipmentId := shipmentId p; nodes := nodes p; segments := segments p;
     totalCost := totalCost p; totalETD := totalETD p;
     providersInvolved := providersInvolved p; numHops := numHops p;
     reliabilityScore := reliabilityScore p; totScore := totScore p; rank := r |}.
End MultiHopPath.

(** [list.sort(key=...)] is a stable sort; insertion from the right keeps
    equal keys in their original order. *)
Section StableSort.
Context {A : Type} (leb : A -> A -> bool).

Fixpoint sort_insert (x : A) (l : list A) : list A :=
  match l with
  | [] => [x]
  | y :: l' => if leb x y then x :: y :: l' else y :: sort_insert x l'
  end.

Definition stable_sort (l : list A) : list A := foldr sort_insert [] l.
End StableSort.

(** Python's [l[:k]] for an [int] [k]: a negative [k] counts from the end. *)
Definition slice_to {A} (l : list A) (k : Z) : list A :=
  if (0 <=? k)%Z then take (Z.to_nat k) l
  else take (length l - Z.to_nat (- k)) l.

(** ** GraphIndex *)

Module GraphIndex.
Record t : Type := mk {
  postcodes : gmap string Postcode.t;
  providerZones : list (string * list ProviderZone.t);
  zoneRoutes : list (string * list ProviderZoneRoute.t);
  _zoneAdj : gmap (string * string) (list ProviderZoneRoute.t);
  _revZoneAdj : gmap (string * string) (list ProviderZoneRoute.t);
  _pcToZones : gmap string (list (string * string));
  _zoneToPCs : gmap (string * string) (list string)
}.

(** [adj[key].append(x)], creating the list when the key is new. *)
Definition append_at {K A} `{Countable K} (adj : gmap K (list A)) (key : K) (x : A)
  : gmap K (list A) :=
  <[key := default [] (adj !! key) ++ [x]]> adj.

(** [{pc.code: pc for pc in postcodes}] *)
Definition postcode_dict (postcodes : list Postcode.t) : gmap string Postcode.t :=
  foldl (fun d pc => <[Postcode.code pc := pc]> d) ∅ postcodes.

Definition _buildZoneAdjacency (zoneRoutes : list (string * list ProviderZoneRoute.t))
  : gmap (string * string) (list ProviderZoneRoute.t) :=
  foldl (fun adj route_list =>
           foldl (fun adj route =>
                    append_at adj (ProviderZoneRoute.providerId route,
                                   ProviderZoneRoute.fromZone route) route)
                 adj route_list)
        ∅ (zoneRoutes.*2).

Definition _buildReverseZoneAdjacency (zoneRoutes : list (string * list ProviderZoneRoute.t))
  : gmap (string * string) (list ProviderZoneRoute.t) :=
  foldl (fun adj route_list =>
           foldl (fun adj route =>
                    append_at adj (ProviderZoneRoute.providerId route,
                                   ProviderZoneRoute.toZone route) route)
                 adj route_list)
        ∅ (zoneRoutes.*2).

Definition _buildPCtoZoneMap (providerZones : list (string * list ProviderZone.t))
  : gmap string (list (string * string)) :=
  foldl (fun pcToZones '(providerId, zones) =>
           foldl (fun pcToZones zone =>
                    foldl (fun pcToZones pc =>
                             append_at pcToZones pc (providerId, ProviderZone.zoneCode zone))
                          pcToZones (ProviderZone.postcodes zone))
                 pcToZones zones)
        ∅ providerZones.

Definition _buildZoneToPCMap (providerZones : list (string * list ProviderZone.t))
  : gmap (string * string) (list string) :=
  foldl (fun zoneToPCs '(providerId, zones) =>
           foldl (fun zoneToPCs zone =>
                    <[(providerId, ProviderZone.zoneCode zone) := ProviderZone.postcodes zone]>
                      zoneToPCs)
                 zoneToPCs zones)
        ∅ providerZones.

(** [__init__] *)
Definition init (postcodes : list Postcode.t)
    (providerZones : list (string * list ProviderZone.t))
    (zoneRoutes : list (string * list ProviderZoneRoute.t)) : t :=
  {| postcodes := postcode_dict postcodes;
     providerZones := providerZones;
     zoneRoutes := zoneRoutes;
     _zoneAdj := _buildZoneAdjacency zoneRoutes;
     _revZoneAdj := _buildReverseZoneAdjacency zoneRoutes;
     _pcToZones := _buildPCtoZoneMap providerZones;
     _zoneToPCs := _buildZoneToPCMap providerZones |}.

(** The getters take the provider as the search vertex carries it: a
    vertex without provider ([None]) is a key of no map. *)
Definition get_OutgoingRoutes (self : t) (providerId : option string) (fromZone : string)
  : list ProviderZoneRoute.t :=
  match providerId with
  | Some p => default [] (_zoneAdj self !! (p, fromZone))
  | None => []
  end.

Definition get_IncomingRoutes (self : t) (providerId : option string) (toZone : string)
  : list ProviderZoneRoute.t :=
  match providerId with
  | Some p => default [] (_revZoneAdj self !! (p, toZone))
  | None => []
  end.

Definition get_ZonesForPostcode (self : t) (postcode : string) : list (string * string) :=
  default [] (_pcToZones self !! postcode).

Definition get_PostcodesForZone (self : t) (providerId : option string) (zoneCode : string)
  : list string :=
  match providerId with
  | Some p => default [] (_zoneToPCs self !! (p, zoneCode))
  | None => []
  end.

Definition get_Providers (self : t) : list string := (providerZones self).*1.

Definition get_AllZones (self : t) (providerId : string) : list ProviderZone.t :=
  concat ((providerZones self).*2).
End GraphIndex.

(** ** heapq on [(f, counter, node)] entries *)

Definition entry : Type := Q * nat * node.

(** Tuple comparison [a < b]: by [f], then by counter.  The counters of the
    entries of one queue are pairwise distinct, so the vertices are never
    compared. *)
Definition entry_ltb (a b : entry) : bool :=
  let '(fa, ca, _) := a in
  let '(fb, cb, _) := b in
  Qgtb fb fa || (Qeq_bool fa fb && Nat.ltb ca cb).

Definition heappush (h : list entry) (e : entry) : list entry := e :: h.

(** The least entry of [e :: l] and the other entries. *)
Fixpoint pop_min (e : entry) (l : list entry) : entry * list entry :=
  match l with
  | [] => (e, [])
  | x :: l' =>
      if entry_ltb x e
      then let '(m, r) := pop_min x l' in (m, e :: r)
      else let '(m, r) := pop_min e l' in (m, x :: r)
  end.

Definition heappop (h : list entry) : option (entry * list entry) :=
  match h with
  | [] => None
  | e :: l => Some (pop_min e l)
  end.

(** ** engine.py: the bidirectional engine *)

Module Engine.

(** The [route_info] dict of an edge: [{'type': 'entry'}], [{'type': 'exit'}]
    or [{'type': 'zone_route', 'service': _, 'route': _}]. *)
Inductive RouteInfo : Type :=
| InfoEntry
| InfoExit
| InfoZoneRoute (service : string) (route : ProviderZoneRoute.t).

Definition info_type (i : RouteInfo) : string :=
  match i with
  | InfoEntry => "entry"
  | InfoExit => "exit"
  | InfoZoneRoute _ _ => "zone_route"
  end.

(** [route_info.get('service', '')] *)
Definition info_service (i : RouteInfo) : string :=
  match i with
  | InfoZoneRoute s _ => s
  | _ => ""
  end.

(** [edge_data[n]]: [{'cost': _, 'etd': _, 'route': route_info}] *)
Record EdgeData : Type := mkEdge {
  ed_cost : Q;
  ed_etd : Q;
  ed_route : RouteInfo
}.

Definition neighbor : Type := node * Q * Q * RouteInfo.

Record t : Type := mk {
  index : GraphIndex.t;
  postcodes : gmap string Postcode.t
}.

Definition state_coords : gmap string (Q * Q) :=
  list_to_map
    [ ("NSW", (150.9, -33.9)%Q); ("VIC", (145.1, -37.8)%Q);
      ("QLD", (153.0, -27.5)%Q); ("WA", (115.9, -31.9)%Q);
      ("SA", (139.2, -34.4)%Q); ("TAS", (147.1, -42.9)%Q);
      ("ACT", (149.2, -35.3)%Q); ("NT", (130.8, -12.5)%Q) ].

(** What [find_mltihop_path] hands on from one exploration. *)
Record SearchResult : Type := mkResult {
  parent : gmap node node;
  cost : gmap node Q;
  edge : gmap node EdgeData
}.

Record SearchState : Type := mkState {
  open_set : list entry;
  counter : nat;
  g_score : gmap node Q;
  f_score : gmap node Q;
  came_from : gmap node node;
  edge_data : gmap node EdgeData;
  visited : gset node
}.

Definition set_open (st : SearchState) (h : list entry) : SearchState :=
  mkState h (counter st) (g_score st) (f_score st) (came_from st) (edge_data st) (visited st).

Definition add_visited (st : SearchState) (n : node) : SearchState :=
  mkState (open_set st) (counter st) (g_score st) (f_score st) (came_from st)
          (edge_data st) ({[n]} ∪ visited st).

(** [neighbor in g_score and neighbor_g >= g_score[neighbor]] *)
Definition suboptimal (g_score : gmap node Q) (n : node) (neighbor_g : Q) : bool :=
  match g_score !! n with
  | Some old => Qle_bool old neighbor_g
  | None => false
  end.

Definition create_default_path (self : t) (shipment : Shipment.t) : MultiHopPath.t :=
  MultiHopPath.init (Shipment.id shipment) PInf PInf
    [ (Pc, Shipment.originPC shipment, None); (Pc, Shipment.destPC shipment, None) ]
    [] [] 0.

Section WithSqrt.
(** [math.sqrt], which has no exact rational counterpart. *)
Variable sqrt : Q -> Q.

Definition _heuristic (self : t) (pcA pcB : string) : Q :=
  match postcodes self !! pcA, postcodes self !! pcB with
  | Some pcA_obj, Some pcB_obj =>
      let stateA := if decide (Postcode.state pcA_obj = "") then "NSW"
                    else Postcode.state pcA_obj in
      let stateB := if decide (Postcode.state pcB_obj = "") then "NSW"
                    else Postcode.state pcB_obj in
      match state_coords !! stateA, state_coords !! stateB with
      | Some (lonA, latA), Some (lonB, latB) =>
          let distance := sqrt ((lonA - lonB) ^ 2 + (latA - latB) ^ 2)%Q in
          (distance * 0.01)%Q
      | _, _ => 0%Q
      end
  | _, _ => 0%Q
  end.

Definition _heuristic_node (self : t) (n : node) (goalPC : string) : Q :=
  let '(node_type, node_id, provider_id) := n in
  match node_type with
  | Pc => _heuristic self node_id goalPC
  | Pz =>
      match GraphIndex.get_PostcodesForZone (index self) provider_id node_id with
      | pc0 :: _ => _heuristic self pc0 goalPC
      | [] => 0%Q
      end
  end.

Definition _get_neighbors (self : t) (n : node) (shipment : Shipment.t)
    (maxHops : Z) (forward : bool) : list neighbor :=
  let '(node_type, node_id, provider_id) := n in
  match node_type with
  | Pc =>
      fmap (fun '(p_id, zone_code) =>
             ((Pz, zone_code, Some p_id), 0%Q, 0%Q,
              if forward then InfoEntry else InfoExit))
          (GraphIndex.get_ZonesForPostcode (index self) node_id)
  | Pz =>
      (if forward then
         fmap (fun route =>
                ((Pz, ProviderZoneRoute.toZone route, provider_id),
                 ProviderZoneRoute.calculateCost route (Shipment.weightKG shipment),
                 ProviderZoneRoute.deliveryHrs route,
                 InfoZoneRoute (ProviderZoneRoute.serviceType route) route))
            (GraphIndex.get_OutgoingRoutes (index self) provider_id node_id)
       else
         fmap (fun route =>
                ((Pz, ProviderZoneRoute.fromZone route, provider_id),
                 ProviderZoneRoute.calculateCost route (Shipment.weightKG shipment),
                 ProviderZoneRoute.deliveryHrs route,
                 InfoZoneRoute (ProviderZoneRoute.serviceType route) route))
            (GraphIndex.get_IncomingRoutes (index self) provider_id node_id))
      ++ fmap (fun pc =>
                ((Pc, pc, None), 0%Q, 0%Q, if forward then InfoExit else InfoEntry))
             (GraphIndex.get_PostcodesForZone (index self) provider_id node_id)
  end.

(** The body of [for neighbor, edge_cost, edge_etd, route_info in neighbors]. *)
Definition expand_neighbor (self : t) (goalPC : string) (maxCost maxETD : efloat)
    (current : node) (current_g : Q) (st : SearchState) (nb : neighbor) : SearchState :=
  let '(neighbor, edge_cost, edge_etd, route_info) := nb in
  let neighbor_g := (current_g + edge_cost)%Q in
  let neighbor_h := _heuristic_node self neighbor goalPC in
  let neighbor_f := (neighbor_g + neighbor_h)%Q in
  if suboptimal (g_score st) neighbor neighbor_g then st
  else if exceeds neighbor_g maxCost || exceeds edge_etd maxETD then st
  else
    {| open_set := heappush (open_set st) (neighbor_f, counter st, neighbor);
       counter := S (counter st);
       g_score := <[neighbor := neighbor_g]> (g_score st);
       f_score := <[neighbor := neighbor_f]> (f_score st);
       came_from := <[neighbor := current]> (came_from st);
       edge_data := <[neighbor := mkEdge edge_cost edge_etd route_info]> (edge_data st);
       visited := visited st |}.

(** The body of [while open_set: ...]; the loop ends when the queue is
    empty. *)
Definition loop_body (self : t) (shipment : Shipment.t) (goalPC : string)
    (forward : bool) (maxCost maxETD : efloat) (maxHops : Z)
    (st : SearchState) : outcome (SearchState + SearchState) :=
  match heappop (open_set st) with
  | None => Ret (inr st)
  | Some ((current_f, _, current), rest) =>
      let st := set_open st rest in
      if decide (current ∈ visited st) then Ret (inl st)
      else
        let st := add_visited st current in
        current_g ← getitem (g_score st) current;
        if exceeds current_g maxCost then Ret (inl st)
        else
          let neighbors := _get_neighbors self current shipment maxHops forward in
          Ret (inl (foldl (expand_neighbor self goalPC maxCost maxETD current current_g)
                          st neighbors))
  end.

Definition search_loop (self : t) (shipment : Shipment.t) (goalPC : string)
    (forward : bool) (maxCost maxETD : efloat) (maxHops : Z)
    (fuel : nat) (st : SearchState) : outcome SearchState :=
  while_loop (loop_body self shipment goalPC forward maxCost maxETD maxHops) fuel st.

Definition initial_state (start_node : node) (start_h : Q) : SearchState :=
  {| open_set := heappush [] (start_h, 0, start_node);
     counter := 1;
     g_score := {[ start_node := 0%Q ]};
     f_score := {[ start_node := start_h ]};
     came_from := ∅;
     edge_data := ∅;
     visited := ∅ |}.

Definition _astar_search (fuel : nat) (self : t) (shipment : Shipment.t)
    (startPC goalPC : string) (forward : bool) (maxCost maxETD : efloat) (maxHops : Z)
  : outcome SearchResult :=
  let start_node : node := (Pc, startPC, None) in
  let start_h := _heuristic self startPC goalPC in
  st ← search_loop self shipment goalPC forward maxCost maxETD maxHops fuel
         (initial_state start_node start_h);
  Ret {| parent := came_from st; cost := g_score st; edge := edge_data st |}.

(** One step of the loop of [_unroll_path]; [acc] is
    [(nodes, segments, totalCost, totalETD)]. *)
Definition unroll_step (came_from : gmap node node) (edge_data : gmap node EdgeData)
    (curr : node) (acc : list node * list Segment * Q * Q)
  : outcome (list node * list Segment * Q * Q) :=
  let '(nodes, segments, totalCost, totalETD) := acc in
  let nodes := nodes ++ [curr] in
  match edge_data !! curr with
  | Some data =>
      let totalCost := (totalCost + ed_cost data)%Q in
      let totalETD := (totalETD + ed_etd data)%Q in
      let route_info := ed_route data in
      prev ← getitem came_from curr;
      let seg :=
        {| seg_fromZone := node_id prev;
           seg_toZone := node_id curr;
           seg_cost := ed_cost data;
           seg_etd := ed_etd data;
           seg_type := Some (info_type route_info);
           seg_service := Some (info_service route_info);
           seg_providerId :=
             match route_info with
             | InfoZoneRoute _ route => Some (ProviderZoneRoute.providerId route)
             | _ => None
             end |} in
      Ret (nodes, segments ++ [seg], totalCost, totalETD)
  | None => Ret (nodes, segments, totalCost, totalETD)
  end.

(** The body of [while curr is not None: ...; curr = came_from.get(curr)]. *)
Definition unroll_body (came_from : gmap node node) (edge_data : gmap node EdgeData)
    (st : option node * (list node * list Segment * Q * Q))
  : outcome (option node * (list node * list Segment * Q * Q)
             + list node * list Segment * Q * Q) :=
  let '(curr, acc) := st in
  match curr with
  | None => Ret (inr acc)
  | Some c =>
      acc ← unroll_step came_from edge_data c acc;
      Ret (inl (came_from !! c, acc))
  end.

Definition unroll_loop (fuel : nat) (came_from : gmap node node)
    (edge_data : gmap node EdgeData) (curr : option node)
    (acc : list node * list Segment * Q * Q)
  : outcome (list node * list Segment * Q * Q) :=
  while_loop (unroll_body came_from edge_data) fuel (curr, acc).

Definition _unroll_path (fuel : nat) (end_node : node) (came_from : gmap node node)
    (edge_data : gmap node EdgeData) : outcome (list node * list Segment * Q * Q) :=
  unroll_loop fuel came_from edge_data (Some end_node) ([], [], 0%Q, 0%Q).

(** The body of [for meet_node in common_nodes]. *)
Definition merge_at (fuel : nat) (shipment : Shipment.t) (forward backward : SearchResult)
    (paths : list MultiHopPath.t) (meet_node : node) : outcome (list MultiHopPath.t) :=
  match node_type meet_node with
  | Pz => Ret paths
  | Pc =>
      '(f_nodes, f_segs, f_cost, f_etd) ←
        _unroll_path fuel meet_node (parent forward) (edge forward);
      let f_nodes := reverse f_nodes in
      let f_segs := reverse f_segs in
      '(b_nodes, b_segs, b_cost, b_etd) ←
        _unroll_path fuel meet_node (parent backward) (edge backward);
      let full_nodes := f_nodes ++ drop 1 b_nodes in
      let full_segs := f_segs ++ b_segs in
      let total_cost := (f_cost + b_cost)%Q in
      let total_etd := (f_etd + b_etd)%Q in
      let providers := remove_dups (omap seg_providerId full_segs) in
      let path :=
        MultiHopPath.init (Shipment.id shipment) (Fin total_cost) (Fin total_etd)
          full_nodes full_segs providers (length providers) in
      Ret (paths ++ [path])
  end.

(** [common_nodes] is a Python set; it is visited here in the order of
    [elements]. *)
Definition _merge_paths (fuel : nat) (self : t) (shipment : Shipment.t)
    (forward backward : SearchResult) : outcome (list MultiHopPath.t) :=
  let fwd_visited := cost forward in
  let bwd_visited := cost backward in
  let common_nodes : gset node := dom fwd_visited ∩ dom bwd_visited in
  paths ← ofoldl (merge_at fuel shipment forward backward) [] (elements common_nodes);
  match paths with
  | [] => Ret [create_default_path self shipment]
  | _ => Ret paths
  end.

Definition cost_leb (p q : MultiHopPath.t) : bool :=
  ef_leb (MultiHopPath.totalCost p) (MultiHopPath.totalCost q).

Definition find_mltihop_path (fuel : nat) (self : t) (shipment : Shipment.t)
    (maxCost maxETD : efloat) (maxHops : Z) (topK : Z) : outcome (list MultiHopPath.t) :=
  if decide (Shipment.originPC shipment ∈ dom (postcodes self))
  then
    if decide (Shipment.destPC shipment ∈ dom (postcodes self))
    then
      forward_paths ←
        _astar_search fuel self shipment (Shipment.originPC shipment)
          (Shipment.destPC shipment) true maxCost maxETD maxHops;
      backward_paths ←
        _astar_search fuel self shipment (Shipment.destPC shipment)
          (Shipment.originPC shipment) false maxCost maxETD maxHops;
      all_paths ← _merge_paths fuel self shipment forward_paths backward_paths;
      let all_paths := stable_sort cost_leb all_paths in
      Ret (slice_to all_paths topK)
    else
      Raise (ValueError ("Destination postcode: " +:+ Shipment.destPC shipment
                         +:+ " not found"))
  else
    Raise (ValueError ("Origin postcode: " +:+ Shipment.originPC shipment
                       +:+ " not found")).

(** *** RouteOptimizer of engine.py *)

Definition unoptimized (self : t) (shipment : Shipment.t) : MultiHopPath.t :=
  create_default_path self shipment.

Definition optimized_for_cost (fuel : nat) (self : t) (shipment : Shipment.t)
    (maxETD : efloat) : outcome (list MultiHopPath.t) :=
  find_mltihop_path fuel self shipment PInf maxETD 5 10.

Definition etd_leb (p q : MultiHopPath.t) : bool :=
  ef_leb (MultiHopPath.totalETD p) (MultiHopPath.totalETD q).

Definition optimized_for_time (fuel : nat) (self : t) (shipment : Shipment.t)
    (maxCost : efloat) : outcome (list MultiHopPath.t) :=
  paths ← find_mltihop_path fuel self shipment maxCost PInf 5 10;
  Ret (stable_sort etd_leb paths).

(** [1.0 / (1.0 + x / scale)] on floats: [0.0] at infinity, a
    [ZeroDivisionError] where the denominator vanishes. *)
Definition inverse_score (x : efloat) (scale : Q) : outcome Q :=
  match x with
  | PInf => Ret 0%Q
  | Fin q =>
      let d := (1 + q / scale)%Q in
      if Qeq_bool d 0 then Raise ZeroDivisionError else Ret (1 / d)%Q
  end.

Definition score_path (path : MultiHopPath.t) : outcome MultiHopPath.t :=
  costScore ← inverse_score (MultiHopPath.totalCost path) 1000;
  timeScore ← inverse_score (MultiHopPath.totalETD path) 24;
  let reliabilityScore := MultiHopPath.reliabilityScore path in
  Ret (MultiHopPath.set_totScore path
         (0.4 * costScore + 0.35 * timeScore + 0.25 * reliabilityScore)%Q).

(** [for x in l: ...] with a body that updates [x] and can raise. *)
Fixpoint omap_each {A B} (f : A -> outcome B) (l : list A) : outcome (list B) :=
  match l with
  | [] => Ret []
  | a :: l' => b ← f a; bs ← omap_each f l'; Ret (b :: bs)
  end.

(** [sort(key=totScore, reverse=True)]: descending, equal scores in
    their original order. *)
Definition score_geb (p q : MultiHopPath.t) : bool :=
  Qle_bool (MultiHopPath.totScore q) (MultiHopPath.totScore p).

Definition assign_ranks (paths : list MultiHopPath.t) : list MultiHopPath.t :=
  imap (fun i path => MultiHopPath.set_rank path (i + 1)) paths.

Definition optimize_multi_criteria (fuel : nat) (self : t) (shipment : Shipment.t)
  : outcome (list MultiHopPath.t) :=
  paths ← find_mltihop_path fuel self shipment PInf PInf 5 15;
  paths ← omap_each score_path paths;
  let paths := stable_sort score_geb paths in
  Ret (assign_ranks paths).
End WithSqrt.
End Engine.

(** ** engine_new.py: the forward engine *)

Module EngineNew.

(** The [info] dict of an edge: [{'type': 'entry', 'provider': _}],
    [{'type': 'transit', 'route': _}] or [{'type': 'exit', 'provider': _}]. *)
Inductive EdgeInfo : Type :=
| InfoEntry (provider : string)
| InfoTransit (route : ProviderZoneRoute.t)
| InfoExit (provider : option string).

(** [edge_data[n]]: [{'cost': _, 'etd': _, 'info': _}] *)
Record EdgeData : Type := mkEdge {
  ed_cost : Q;
  ed_etd : Q;
  ed_info : EdgeInfo
}.

Definition neighbor : Type := node * Q * Q * EdgeInfo.

Record t : Type := mk {
  index : GraphIndex.t;
  postcodes : gmap string Postcode.t
}.

Definition state_coords : gmap string (Q * Q) :=
  list_to_map
    [ ("NSW", (150.9, -33.9)%Q); ("VIC", (145.1, -37.8)%Q);
      ("QLD", (153.0, -27.5)%Q); ("WA", (115.9, -31.9)%Q);
      ("SA", (139.2, -34.4)%Q); ("TAS", (147.1, -42.9)%Q);
      ("ACT", (149.2, -35.3)%Q); ("NT", (130.8, -12.5)%Q) ].

Record SearchState : Type := mkState {
  open_set : list entry;
  counter : nat;
  came_from : gmap node node;
  g_score : gmap node Q;
  edge_data : gmap node EdgeData
}.

Definition set_open (st : SearchState) (h : list entry) : SearchState :=
  mkState h (counter st) (came_from st) (g_score st) (edge_data st).

Definition create_default_path (self : t) (shipment : Shipment.t) : MultiHopPath.t :=
  MultiHopPath.init (Shipment.id shipment) PInf PInf [] [] [] 0.

Definition _get_forward_neighbors (self : t) (n : node) (shipment : Shipment.t)
  : list neighbor :=
  let '(node_type, node_id, provider_id) := n in
  match node_type with
  | Pc =>
      fmap (fun '(p_id, zone_code) =>
             ((Pz, zone_code, Some p_id), 0%Q, 0%Q, InfoEntry p_id))
          (GraphIndex.get_ZonesForPostcode (index self) node_id)
  | Pz =>
      fmap (fun route =>
             ((Pz, ProviderZoneRoute.toZone route, provider_id),
              ProviderZoneRoute.calculateCost route (Shipment.weightKG shipment),
              ProviderZoneRoute.deliveryHrs route,
              InfoTransit route))
          (GraphIndex.get_OutgoingRoutes (index self) provider_id node_id)
      ++ fmap (fun pc => ((Pc, pc, None), 0%Q, 0%Q, InfoExit provider_id))
             (GraphIndex.get_PostcodesForZone (index self) provider_id node_id)
  end.

(** One step of the loop of [_reconstruct_path]; [acc] is
    [(nodes, segments, total_cost, total_etd, providers)]. *)
Definition reconstruct_step (edge_data : gmap node EdgeData) (current : node)
    (acc : list node * list Segment * Q * Q * list string)
  : outcome (list node * list Segment * Q * Q * list string) :=
  let '(nodes, segments, total_cost, total_etd, providers) := acc in
  data ← getitem edge_data current;
  let total_cost := (total_cost + ed_cost data)%Q in
  let total_etd := (total_etd + ed_etd data)%Q in
  let '(providers, segments) :=
    match ed_info data with
    | InfoTransit route =>
        (providers ++ [ProviderZoneRoute.providerId route],
         segments ++ [ {| seg_fromZone := ProviderZoneRoute.fromZone route;
                          seg_toZone := ProviderZoneRoute.toZone route;
                          seg_cost := ed_cost data;
                          seg_etd := ed_etd data;
                          seg_type := None;
                          seg_service := None;
                          seg_providerId := Some (ProviderZoneRoute.providerId route) |} ])
    | _ => (providers, segments)
    end in
  Ret (nodes ++ [current], segments, total_cost, total_etd, providers).

(** The body of [while current in came_from: ...; current = prev]; the
    loop hands back the vertex it stops at together with the accumulators. *)
Definition reconstruct_body (came_from : gmap node node) (edge_data : gmap node EdgeData)
    (st : node * (list node * list Segment * Q * Q * list string))
  : outcome (node * (list node * list Segment * Q * Q * list string)
             + node * (list node * list Segment * Q * Q * list string)) :=
  let '(current, acc) := st in
  match came_from !! current with
  | None => Ret (inr (current, acc))
  | Some prev =>
      acc ← reconstruct_step edge_data current acc;
      Ret (inl (prev, acc))
  end.

Definition reconstruct_loop (fuel : nat) (came_from : gmap node node)
    (edge_data : gmap node EdgeData) (current : node)
    (acc : list node * list Segment * Q * Q * list string)
  : outcome (node * (list node * list Segment * Q * Q * list string)) :=
  while_loop (reconstruct_body came_from edge_data) fuel (current, acc).

Definition _reconstruct_path (fuel : nat) (self : t) (current : node)
    (came_from : gmap node node) (edge_data : gmap node EdgeData) (shipment : Shipment.t)
  : outcome MultiHopPath.t :=
  '(current, (nodes, segments, total_cost, total_etd, providers)) ←
    reconstruct_loop fuel came_from edge_data current ([], [], 0%Q, 0%Q, []);
  let nodes := reverse (nodes ++ [current]) in
  let segments := reverse segments in
  let providers := remove_dups providers in
  Ret (MultiHopPath.init (Shipment.id shipment) (Fin total_cost) (Fin total_etd)
         nodes segments providers (length providers)).

(** [tentative_g < g_score.get(neighbor, float('inf'))] *)
Definition improves (g_score : gmap node Q) (n : node) (tentative_g : Q) : bool :=
  match g_score !! n with
  | Some old => Qgtb old tentative_g
  | None => true
  end.

Section WithSqrt.
(** [math.sqrt], which has no exact rational counterpart. *)
Variable sqrt : Q -> Q.

Definition _heuristic (self : t) (pcA pcB : string) : Q :=
  match postcodes self !! pcA, postcodes self !! pcB with
  | Some objA, Some objB =>
      let coordA := default (0, 0)%Q (state_coords !! Postcode.state objA) in
      let coordB := default (0, 0)%Q (state_coords !! Postcode.state objB) in
      let dist := sqrt ((coordA.1 - coordB.1) ^ 2 + (coordA.2 - coordB.2) ^ 2)%Q in
      (dist * 0.01)%Q
  | _, _ => 0%Q
  end.

Definition _heuristic_node (self : t) (n : node) (goalPC : string) : Q :=
  match node_type n with
  | Pc => _heuristic self (node_id n) goalPC
  | Pz =>
      match GraphIndex.get_PostcodesForZone (index self) (node_provider n) (node_id n) with
      | pc0 :: _ => _heuristic self pc0 goalPC
      | [] => 0%Q
      end
  end.

(** The body of [for neighbor, cost, etd, info in neighbors]. *)
Definition expand_neighbor (self : t) (shipment : Shipment.t) (maxCost : efloat)
    (current : node) (st : SearchState) (nb : neighbor) : outcome SearchState :=
  let '(neighbor, cost, etd, info) := nb in
  current_g ← getitem (g_score st) current;
  let tentative_g := (current_g + cost)%Q in
  if exceeds tentative_g maxCost then Ret st
  else if improves (g_score st) neighbor tentative_g then
    let h_val := _heuristic_node self neighbor (Shipment.destPC shipment) in
    let f_score := (tentative_g + h_val)%Q in
    let counter := S (counter st) in
    Ret {| open_set := heappush (open_set st) (f_score, counter, neighbor);
           counter := counter;
           came_from := <[neighbor := current]> (came_from st);
           g_score := <[neighbor := tentative_g]> (g_score st);
           edge_data := <[neighbor := mkEdge cost etd info]> (edge_data st) |}
  else Ret st.

(** The body of [while open_set: ...].  The loop leaves with
    [found_paths], an option since it breaks at the first path it appends;
    [fuel] is the allowance of the inner loop of [_reconstruct_path]. *)
Definition loop_body (fuel : nat) (self : t) (shipment : Shipment.t) (maxCost : efloat)
    (st : SearchState) : outcome (SearchState + option MultiHopPath.t) :=
  match heappop (open_set st) with
  | None => Ret (inr None)
  | Some ((current_f, _, current), rest) =>
      let st := set_open st rest in
      let '(current_type, current_id, _) := current in
      if decide (current_type = Pc ∧ current_id = Shipment.destPC shipment)
      then
        final_path ← _reconstruct_path fuel self current (came_from st)
                       (edge_data st) shipment;
        Ret (inr (Some final_path))
      else
        current_g ← getitem (g_score st) current;
        if exceeds current_g maxCost then Ret (inl st)
        else
          let neighbors := _get_forward_neighbors self current shipment in
          st ← ofoldl (expand_neighbor self shipment maxCost current) st neighbors;
          Ret (inl st)
  end.

Definition search_loop (self : t) (shipment : Shipment.t) (maxCost : efloat)
    (fuel : nat) (st : SearchState) : outcome (option MultiHopPath.t) :=
  while_loop (loop_body fuel self shipment maxCost) fuel st.

Definition find_mltihop_path (fuel : nat) (self : t) (shipment : Shipment.t)
    (maxCost maxETD : efloat) (maxHops : Z) (topK : Z) : outcome (list MultiHopPath.t) :=
  if decide (Shipment.originPC shipment ∈ dom (postcodes self))
  then
    if decide (Shipment.destPC shipment ∈ dom (postcodes self))
    then
      let start_node : node := (Pc, Shipment.originPC shipment, None) in
      let h_start := _heuristic self (Shipment.originPC shipment)
                       (Shipment.destPC shipment) in
      found_paths ←
        search_loop self shipment maxCost fuel
          {| open_set := heappush [] (h_start, 0, start_node);
             counter := 0;
             came_from := ∅;
             g_score := {[ start_node := 0%Q ]};
             edge_data := ∅ |};
      match found_paths with
      | None => Ret [create_default_path self shipment]
      | Some final_path => Ret [final_path]
      end
    else
      Raise (ValueError ("Destination postcode: " +:+ Shipment.destPC shipment
                         +:+ " not found"))
  else
    Raise (ValueError ("Origin postcode: " +:+ Shipment.originPC shipment
                       +:+ " not found")).

(** *** RouteOptimizer of engine_new.py *)

Definition unoptimized (self : t) (shipment : Shipment.t) : MultiHopPath.t :=
  create_default_path self shipment.

Definition optimized_for_cost (fuel : nat) (self : t) (shipment : Shipment.t)
    (maxETD : efloat) : outcome (list MultiHopPath.t) :=
  find_mltihop_path fuel self shipment PInf maxETD 5 10.

Definition optimized_for_time (fuel : nat) (self : t) (shipment : Shipment.t)
    (maxCost : efloat) : outcome (list MultiHopPath.t) :=
  find_mltihop_path fuel self shipment maxCost PInf 5 10.

Definition optimize_multi_criteria (fuel : nat) (self : t) (shipment : Shipment.t)
  : outcome (list MultiHopPath.t) :=
  find_mltihop_path fuel self shipment PInf PInf 5 10.
End WithSqrt.
End EngineNew.


(** ** data_model.py: [calculateCost] with every operation rounded

    [ProviderZoneRoute.calculateCost] computes on exact rationals.  Here
    each arithmetic operation of the source is the exact operation
    followed by [rnd], the rounding of the machine to a float; the
    comparisons are exact, as they are on floats.  What is assumed of
    [rnd] is said where a property needs it. *)

Module Rounded.
Section WithRounding.
Variable rnd : Q -> Q.

Definition calculateCost (self : ProviderZoneRoute.t) (weightKG : Q) : Q :=
  if Qle_bool weightKG 0 then ProviderZoneRoute.minCharge self
  else
    let charge :=
      py_max (rnd (ProviderZoneRoute.baseCharge self
                   + rnd (weightKG * ProviderZoneRoute.perKGRate self)))
             (ProviderZoneRoute.minCharge self) in
    let charge :=
      rnd (charge + rnd (charge * rnd (ProviderZoneRoute.fuelLevyPct self / 100))) in
    charge.
End WithRounding.
End Rounded.

(** ** data_loader.py: what the loader builds in memory

    The calls to the database ([create_database], [createSchema],
    [_insert_data]) and the logging change no value the loader returns;
    they are left out, so the definitions below give what the loader
    returns when those calls succeed.  The ["timestamp"] entry of the
    dictionary of [_build_graph_index] (the clock) is left out as well. *)

Module DataLoader.

(** [if key not in d: d[key] = []] followed by [d[key].append(x)], on a
    dict that is iterated afterwards: the items in insertion order, a new
    key going to the end. *)
Fixpoint append_item {V} (d : list (string * list V)) (key : string) (x : V)
  : list (string * list V) :=
  match d with
  | [] => [(key, [x])]
  | (k, l) :: d' =>
      if decide (k = key) then (k, l ++ [x]) :: d'
      else (k, l) :: append_item d' key x
  end.

(** [zones_by_provider]: the zones filed under their [providerId]. *)
Definition zones_by_provider (provider_zones : list ProviderZone.t)
  : list (string * list ProviderZone.t) :=
  foldl (fun d z => append_item d (ProviderZone.providerId z) z) [] provider_zones.

(** [f"{route.providerId}/{route.fromZone}"] *)
Definition route_key (route : ProviderZoneRoute.t) : string :=
  ProviderZoneRoute.providerId route +:+ "/" +:+ ProviderZoneRoute.fromZone route.

(** [provider_graph]: the routes filed under [route_key]. *)
Definition provider_graph (routes : list ProviderZoneRoute.t)
  : list (string * list ProviderZoneRoute.t) :=
  foldl (fun d route => append_item d (route_key route) route) [] routes.

(** [pc_to_zones]: for each postcode the strings [f"{providerId}/{zoneCode}"]
    of the zones that list it. *)
Definition pc_to_zones (provider_zones : list ProviderZone.t)
  : list (string * list string) :=
  foldl (fun d zone =>
           foldl (fun d pc =>
                    append_item d pc
                      (ProviderZone.providerId zone +:+ "/" +:+ ProviderZone.zoneCode zone))
                 d (ProviderZone.postcodes zone))
        [] provider_zones.

(** The dictionary [_build_graph_index] returns; the [__dict__] of an
    object stands for the object. *)
Record GraphIndexDict : Type := mkDict {
  gd_postcodes : gmap string Postcode.t;
  gd_provider_zones : list (string * list ProviderZone.t);
  gd_routes : list ProviderZoneRoute.t;
  gd_zone_routes_map : list (string * list ProviderZoneRoute.t);
  gd_pc_to_zones : list (string * list string)
}.

Definition _build_graph_index (postcodes : list Postcode.t)
    (provider_zones : list ProviderZone.t) (routes : list ProviderZoneRoute.t)
  : GraphIndexDict :=
  {| gd_postcodes := GraphIndex.postcode_dict postcodes;
     gd_provider_zones := zones_by_provider provider_zones;
     gd_routes := routes;
     gd_zone_routes_map := provider_graph routes;
     gd_pc_to_zones := pc_to_zones provider_zones |}.

(** The end of both [load_sample_data] and [load_from_rdbms]: the
    [GraphIndex] over the postcodes, the zones filed by provider and the
    ["zone_routes_map"] of [_build_graph_index]. *)
Definition build_index (postcodes : list Postcode.t)
    (provider_zones : list ProviderZone.t) (routes : list ProviderZoneRoute.t)
  : GraphIndex.t :=
  let graph_index_dict := _build_graph_index postcodes provider_zones routes in
  let aggregated_routes := gd_zone_routes_map graph_index_dict in
  GraphIndex.init postcodes (zones_by_provider provider_zones) aggregated_routes.

(** *** The sample data of [load_sample_data] *)

Definition postcodes_data : list (string * string * string) :=
  [ ("2000", "Sydney CBD", "NSW"); ("2010", "Pyrmont", "NSW");
    ("2050", "Neutral Bay", "NSW"); ("2100", "Chatswood", "NSW");
    ("3000", "Melbourne CBD", "VIC"); ("3010", "Docklands", "VIC");
    ("3031", "Footscray", "VIC"); ("3100", "Hawthorn", "VIC");
    ("4000", "Brisbane CBD", "QLD"); ("6000", "Perth CBD", "WA") ].

Definition zone_templates : list (string * list (string * list string * string)) :=
  [ ("FP_1", [ ("SYD_CBD", ["2000"; "2001"], "metro");
               ("SYD_INNER", ["2010"; "2015"], "inner");
               ("SYD_NORTH", ["2050"; "2060"], "north");
               ("SYD_REGION", ["2100"; "2150"], "regional") ]);
    ("FP_2", [ ("MEL_CBD", ["3000"; "3001"], "metro");
               ("MEL_INNER", ["3010"; "3020"], "inner");
               ("MEL_SOUTH", ["3031"; "3035"], "south");
               ("MEL_REGION", ["3100"; "3150"], "regional") ]);
    ("FP_3", [ ("BNE_CBD", ["4000"; "4001"], "metro");
               ("BNE_SOUTH", ["4010"; "4020"], "south");
               ("BNE_NORTH", ["4050"; "4060"], "north");
               ("BNE_REGION", ["4100"; "4200"], "regional") ]);
    ("FP_4", [ ("PER_CBD", ["6000"; "6001"], "metro");
               ("PER_INNER", ["6010"; "6020"], "inner");
               ("PER_SOUTH", ["6050"; "6060"], "south");
               ("PER_REGION", ["6100"; "6200"], "regional") ]);
    ("FP_5", [ ("NSW_EXP", ["2000"; "2100"], "express");
               ("VIC_EXP", ["3000"; "3100"], "express");
               ("QLD_EXP", ["4000"; "4100"], "express");
               ("WA_EXP", ["6000"; "6100"], "express") ]) ].

(** A row [(provider_id, from_zone, to_zone, base_cost, cost_per_kg,
    etd_hours, max_weight_kg)]. *)
Definition route_row : Type := string * string * string * Q * Q * Q * Q.

Definition fp1_routes : list route_row :=
  [ ("FP_1", "SYD_CBD", "SYD_INNER", 15.0, 0.5, 2.0, 1000);
    ("FP_1", "SYD_CBD", "SYD_NORTH", 20.0, 0.6, 3.5, 1000);
    ("FP_1", "SYD_INNER", "SYD_NORTH", 12.0, 0.4, 2.5, 1000);
    ("FP_1", "SYD_NORTH", "SYD_REGION", 25.0, 0.7, 4.0, 800) ]%Q.

Definition fp2_routes : list route_row :=
  [ ("FP_2", "MEL_CBD", "MEL_INNER", 12.0, 0.5, 2.0, 1000);
    ("FP_2", "MEL_CBD", "MEL_SOUTH", 18.0, 0.6, 3.0, 1000);
    ("FP_2", "MEL_INNER", "MEL_SOUTH", 10.0, 0.4, 2.5, 1000);
    ("FP_2", "MEL_SOUTH", "MEL_REGION", 22.0, 0.7, 4.5, 800) ]%Q.

Definition fp3_routes : list route_row :=
  [ ("FP_3", "BNE_CBD", "BNE_SOUTH", 14.0, 0.5, 2.0, 1000);
    ("FP_3", "BNE_CBD", "BNE_NORTH", 16.0, 0.6, 2.5, 1000);
    ("FP_3", "BNE_SOUTH", "BNE_NORTH", 20.0, 0.7, 3.5, 1000);
    ("FP_3", "BNE_NORTH", "BNE_REGION", 24.0, 0.8, 4.5, 800) ]%Q.

Definition fp4_routes : list route_row :=
  [ ("FP_4", "PER_CBD", "PER_INNER", 13.0, 0.5, 1.5, 1000);
    ("FP_4", "PER_CBD", "PER_SOUTH", 17.0, 0.6, 2.5, 1000);
    ("FP_4", "PER_INNER", "PER_SOUTH", 11.0, 0.4, 2.0, 1000);
    ("FP_4", "PER_SOUTH", "PER_REGION", 20.0, 0.7, 4.0, 800) ]%Q.

Definition fp5_routes : list route_row :=
  [ ("FP_5", "NSW_EXP", "VIC_EXP", 50.0, 1.0, 12.0, 500);
    ("FP_5", "VIC_EXP", "QLD_EXP", 55.0, 1.1, 14.0, 500);
    ("FP_5", "QLD_EXP", "WA_EXP", 80.0, 1.5, 24.0, 400);
    ("FP_5", "NSW_EXP", "QLD_EXP", 60.0, 1.2, 18.0, 500) ]%Q.

Definition all_routes : list route_row :=
  fp1_routes ++ fp2_routes ++ fp3_routes ++ fp4_routes ++ fp5_routes.

(** The [ProviderZoneRoute] built from a row, here and in
    [load_from_rdbms]: [minCharge] is the base cost, the service type is
    empty and the other fields keep their defaults. *)
Definition route_of_row (row : route_row) : ProviderZoneRoute.t :=
  let '(provider_id, from_zone, to_zone, base_cost, cost_per_kg, etd_hours,
        max_weight_kg) := row in
  ProviderZoneRoute.mk provider_id from_zone to_zone "" base_cost cost_per_kg base_cost
    etd_hours max_weight_kg 0 0 1 0.

(** The [ProviderZone] built from a template: the state is ["NSW"] for
    every zone. *)
Definition zone_of_template (provider_id : string)
    (template : string * list string * string) : ProviderZone.t :=
  let '(zone_name, postcodes_in_zone, service_type) := template in
  ProviderZone.mk provider_id zone_name postcodes_in_zone "NSW" service_type.

Definition load_sample_data
  : GraphIndexDict * list Postcode.t * list ProviderZone.t * list ProviderZoneRoute.t
    * GraphIndex.t :=
  let postcodes :=
    (fun '(code, suburb, state) => Postcode.mk code suburb state None) <$> postcodes_data in
  let provider_zones :=
    zone_templates ≫= fun '(provider_id, zones) => zone_of_template provider_id <$> zones in
  let routes := route_of_row <$> all_routes in
  let graph_index_dict := _build_graph_index postcodes provider_zones routes in
  (graph_index_dict, postcodes, provider_zones, routes,
   build_index postcodes provider_zones routes).

End DataLoader.

(** ** streamlit_app.py: what the pages compute

    The widgets are left out; the definitions take what the widgets hand
    over and give what is displayed. *)

Module App.

(** The options of the radio button "Optimization Criteria". *)
Inductive Criteria : Type :=
| CriteriaNone
| LowestCost
| Fastest
| BitOfBoth.

(** [d.get(key, [])] on a dict kept as the list of its items. *)
Fixpoint dict_get {V} (d : list (string * list V)) (key : string) : list V :=
  match d with
  | [] => []
  | (k, l) :: d' => if decide (k = key) then l else dict_get d' key
  end.

(** The four metrics of the home page. *)
Definition metric_providers (graph_index : GraphIndex.t) : nat :=
  length (GraphIndex.providerZones graph_index).

Definition metric_total_zones (graph_index : GraphIndex.t) : nat :=
  sum_list (length <$> (GraphIndex.providerZones graph_index).*2).

Definition metric_postcodes (graph_index : GraphIndex.t) : nat :=
  size (GraphIndex.postcodes graph_index).

Definition metric_zone_routes (graph_index : GraphIndex.t) : nat :=
  sum_list (length <$> (GraphIndex.zoneRoutes graph_index).*2).

(** Python's [min(a, b)]: [b] if [b < a], else [a]. *)
Definition py_min (a b : Q) : Q := if Qgtb a b then b else a.

(** A row of the table "Provider Network Metrics". *)
Record ComparisonRow : Type := mkRow {
  row_provider : string;
  row_zones : nat;
  row_routes : nat;
  row_avg_reliability : Q;
  row_min_charge : Q;
  row_avg_base_charge : Q
}.

Definition sum_Q (l : list Q) : Q := foldl Qplus 0%Q l.

Definition comparison_row (graph_index : GraphIndex.t) (provider_id : string)
    (zones : list ProviderZone.t) : ComparisonRow :=
  let routes := dict_get (GraphIndex.zoneRoutes graph_index) provider_id in
  {| row_provider := provider_id;
     row_zones := length zones;
     row_routes := length routes;
     row_avg_reliability :=
       match routes with
       | [] => 0%Q
       | _ => (sum_Q (ProviderZoneRoute.reliabilityScore <$> routes)
               / inject_Z (Z.of_nat (length routes)))%Q
       end;
     row_min_charge :=
       match ProviderZoneRoute.minCharge <$> routes with
       | [] => 0%Q
       | c :: cs => foldl py_min c cs
       end;
     row_avg_base_charge :=
       match routes with
       | [] => 0%Q
       | _ => (sum_Q (ProviderZoneRoute.baseCharge <$> routes)
               / inject_Z (Z.of_nat (length routes)))%Q
       end |}.

Definition comparison (graph_index : GraphIndex.t) : list ComparisonRow :=
  (fun '(provider_id, zones) => comparison_row graph_index provider_id zones)
  <$> GraphIndex.providerZones graph_index.

Section WithSqrt.
Variable sqrt : Q -> Q.

(** The button "Find Routes" with both postcodes selected (the branch
    [not origin_pc or not dest_pc], which reports the missing selection and
    leaves [shipment] unbound, is outside this definition): the shipment is
    built from the two postcodes, the optimizer of [engine_new.py] is asked
    according to the criteria, and a single path is wrapped into a list.
    An exception is what the [except] branch reports.  [shipment_id] and
    [createdAt] stand for the fresh identifier and the clock. *)
Definition find_routes (fuel : nat) (graph_index : GraphIndex.t) (criteria : Criteria)
    (shipment_id : string) (createdAt : Z) (origin_pc dest_pc : string)
    (weight_kg volume_cbm max_cost max_etd : Q) : outcome (list MultiHopPath.t) :=
  let engine := EngineNew.mk graph_index (GraphIndex.postcodes graph_index) in
  origin ← getitem (GraphIndex.postcodes graph_index) origin_pc;
  dest ← getitem (GraphIndex.postcodes graph_index) dest_pc;
  let shipment :=
    Shipment.mk shipment_id origin_pc (Postcode.suburb origin) (Postcode.state origin)
      dest_pc (Postcode.suburb dest) (Postcode.state dest) weight_kg volume_cbm 0 []
      "Standard" createdAt in
  match criteria with
  | CriteriaNone => Ret [EngineNew.unoptimized engine shipment]
  | LowestCost => EngineNew.optimized_for_cost sqrt fuel engine shipment (Fin max_etd)
  | Fastest => EngineNew.optimized_for_time sqrt fuel engine shipment (Fin max_cost)
  | BitOfBoth => EngineNew.optimize_multi_criteria sqrt fuel engine shipment
  end.
End WithSqrt.

End App.
(** * Vocabulary of the properties *)

(** ** Convergence of fuelled computations *)

(** [f] gives [a] whenever the fuel is large enough. *)
Definition converges {A} (f : nat -> outcome A) (a : A) : Prop :=
  exists f0, forall fuel, f0 <= fuel -> f fuel = Ret a.

(** The lexicographic order on triples of naturals, the measure of the
    search loops. *)
Definition lex3 (a b : nat * nat * nat) : Prop :=
  a.1.1 < b.1.1
  \/ (a.1.1 = b.1.1 /\ (a.1.2 < b.1.2 \/ (a.1.2 = b.1.2 /\ a.2 < b.2))).

(** ** The maps both engines keep: costs, parents, edge costs *)

Record core : Type := mkCore {
  cg : gmap node Q;
  cp : gmap node node;
  cw : gmap node Q
}.

(** Following parents from [n] ends at a vertex without parent. *)
Inductive rooted (p : gmap node node) : node -> Prop :=
| rooted_root n : p !! n = None -> rooted p n
| rooted_step n m : p !! n = Some m -> rooted p m -> rooted p n.

(** What the maps satisfy when no edge has a negative cost. *)
Record chain_inv (start : node) (c : core) : Prop := {
  ci_start : cg c !! start = Some 0%Q;
  ci_start_root : cp c !! start = None;
  ci_edge : forall n p, cp c !! n = Some p ->
      exists gn gp w, cg c !! n = Some gn /\ cg c !! p = Some gp /\ cw c !! n = Some w
                      /\ (0 <= w)%Q /\ (gp + w <= gn)%Q;
  ci_dom : forall n, is_Some (cw c !! n) <-> is_Some (cp c !! n);
  ci_nonneg : forall n gn, cg c !! n = Some gn -> (0 <= gn)%Q;
  ci_parent : forall n, is_Some (cg c !! n) -> n = start \/ is_Some (cp c !! n);
  ci_rooted : forall n, rooted (cp c) n
}.

(** The update both engines make when an edge to [n] improves its cost. *)
Definition relax (c : core) (n cur : node) (g w : Q) : core :=
  {| cg := <[n := g]> (cg c); cp := <[n := cur]> (cp c); cw := <[n := w]> (cw c) |}.

(** [n] is new, or [x] is strictly below its recorded cost. *)
Definition improvable (g : gmap node Q) (n : node) (x : Q) : Prop :=
  match g !! n with Some old => (x < old)%Q | None => True end.

(** ** The vertices an index can hand out as neighbours *)

Definition index_nodes (idx : GraphIndex.t) : list node :=
  (map_to_list (GraphIndex._pcToZones idx) ≫=
     fun '(_, l) => (fun '(p, z) => ((Pz, z, Some p) : node)) <$> l)
  ++ (map_to_list (GraphIndex._zoneAdj idx) ≫=
        fun '((p, _), l) => (fun r => ((Pz, ProviderZoneRoute.toZone r, Some p) : node)) <$> l)
  ++ (map_to_list (GraphIndex._revZoneAdj idx) ≫=
        fun '((p, _), l) => (fun r => ((Pz, ProviderZoneRoute.fromZone r, Some p) : node)) <$> l)
  ++ (map_to_list (GraphIndex._zoneToPCs idx) ≫=
        fun '(_, l) => (fun c => ((Pc, c, None) : node)) <$> l).

Definition universe (idx : GraphIndex.t) (start : node) : gset node :=
  {[start]} ∪ list_to_set (index_nodes idx).

(** Every route of the index has a non-negative cost at weight [w]. *)
Definition route_costs_nonneg (idx : GraphIndex.t) (w : Q) : Prop :=
  forall k l r,
    GraphIndex._zoneAdj idx !! k = Some l \/ GraphIndex._revZoneAdj idx !! k = Some l ->
    r ∈ l -> (0 <= ProviderZoneRoute.calculateCost r w)%Q.

(** ** One exploration of the bidirectional engine *)

Definition core_of (st : Engine.SearchState) : core :=
  mkCore (Engine.g_score st) (Engine.came_from st) (Engine.ed_cost <$> Engine.edge_data st).

(** What holds of every state of the loop, whatever the costs. *)
Record search_wf (self : Engine.t) (maxCost : efloat) (start : node)
    (st : Engine.SearchState) : Prop := {
  wf_open : forall e, e ∈ Engine.open_set st ->
              is_Some (Engine.g_score st !! e.2) /\ e.2 ∈ universe (Engine.index self) start;
  wf_visited : Engine.visited st ⊆ universe (Engine.index self) start;
  wf_bound : forall n g, Engine.g_score st !! n = Some g ->
               (n = start /\ g = 0%Q) \/ exceeds g maxCost = false
}.

Definition measure (self : Engine.t) (start : node) (st : Engine.SearchState)
  : nat * nat * nat :=
  (size (universe (Engine.index self) start ∖ Engine.visited st),
   length (Engine.open_set st), 0).

Definition nonneg_costs (self : Engine.t) (shipment : Shipment.t) (forward : bool)
    (maxHops : Z) : Prop :=
  forall n nb, nb ∈ Engine._get_neighbors self n shipment maxHops forward -> (0 <= nb.1.1.2)%Q.

Definition result_core (res : Engine.SearchResult) : core :=
  mkCore (Engine.cost res) (Engine.parent res) (Engine.ed_cost <$> Engine.edge res).

(** Every recorded cost respects [maxCost], but for the start vertex,
    which is seeded with cost 0 whatever the threshold. *)
Definition cost_bounded (maxCost : efloat) (start : node) (res : Engine.SearchResult) : Prop :=
  forall n g, Engine.cost res !! n = Some g ->
    (n = start /\ g = 0%Q) \/ exceeds g maxCost = false.

(** A path that [_merge_paths] built at a meeting vertex. *)
Definition merged_path (forward backward : Engine.SearchResult) (path : MultiHopPath.t)
  : Prop :=
  exists meet gf gb c e,
    node_type meet = Pc
    /\ Engine.cost forward !! meet = Some gf
    /\ Engine.cost backward !! meet = Some gb
    /\ MultiHopPath.totalCost path = Fin c
    /\ MultiHopPath.totalETD path = Fin e
    /\ (0 <= c)%Q /\ (c <= gf + gb)%Q.

(** ** Orders on paths *)

Definition cost_le (p q : MultiHopPath.t) : Prop :=
  ef_le (MultiHopPath.totalCost p) (MultiHopPath.totalCost q).

(** [p] scores at least as high as [q]. *)
Definition score_ge (p q : MultiHopPath.t) : Prop :=
  (MultiHopPath.totScore q <= MultiHopPath.totScore p)%Q.

(** ** The multi-criteria score as the specification words it *)

(** [1/(1 + x/scale)], which is 0 at infinity. *)
Definition inverse_term (x : efloat) (scale : Q) : Q :=
  match x with
  | PInf => 0
  | Fin q => 1 / (1 + q / scale)
  end.

Definition score_as_specified (p : MultiHopPath.t) : Q :=
  0.4 * inverse_term (MultiHopPath.totalCost p) 1000
  + 0.35 * inverse_term (MultiHopPath.totalETD p) 24
  + 0.25 * MultiHopPath.reliabilityScore p.

(** ** calculateCost as the specification words it *)

(** The levy is added "in either case". *)
Definition cost_as_specified (r : ProviderZoneRoute.t) (weightKG : Q) : Q :=
  let cost :=
    if Qgtb weightKG 0
    then Qmax (ProviderZoneRoute.baseCharge r + weightKG * ProviderZoneRoute.perKGRate r)
              (ProviderZoneRoute.minCharge r)
    else ProviderZoneRoute.minCharge r in
  (cost + cost * (ProviderZoneRoute.fuelLevyPct r / 100))%Q.

(** ** Sample data *)

(** A route with a 10 percent fuel levy. *)
Definition levy_route : ProviderZoneRoute.t :=
  ProviderZoneRoute.mk "FP_1" "ZA" "ZB" "Standard" 15 0.5 2 24 1000 0 0 1 10.

(** ** The search of the forward engine *)

Definition core_ofN (st : EngineNew.SearchState) : core :=
  mkCore (EngineNew.g_score st) (EngineNew.came_from st)
         (EngineNew.ed_cost <$> EngineNew.edge_data st).

(** [q] is a multiple of [1/D]. *)
Definition integral (D : positive) (q : Q) : Prop := exists z : Z, (q == z # D)%Q.

(** The number of [1/D] steps below [q]. *)
Definition scaled (D : positive) (q : Q) : nat :=
  Z.to_nat (Qfloor (q * inject_Z (Zpos D))).

(** A denominator all of [costs] share. *)
Definition common_den (costs : list Q) : positive :=
  foldr (fun q d => (Qden q * d)%positive) 1%positive costs.

(** The costs of the transit edges at the weight of the shipment. *)
Definition route_costs (idx : GraphIndex.t) (w : Q) : list Q :=
  map_to_list (GraphIndex._zoneAdj idx) ≫=
    fun '(_, l) => (fun r => ProviderZoneRoute.calculateCost r w) <$> l.

Definition potential (D : positive) (U : list node) (g : gmap node Q) : nat :=
  sum_list_with (fun n => match g !! n with Some q => scaled D q | None => 0 end) U.

Definition measureN (D : positive) (U : gset node) (st : EngineNew.SearchState)
  : nat * nat * nat :=
  (size (U ∖ dom (EngineNew.g_score st)),
   potential D (elements U) (EngineNew.g_score st),
   length (EngineNew.open_set st)).

(** The state [find_mltihop_path] of the forward engine starts from. *)
Definition initial_stateN (sqrt : Q -> Q) (self : EngineNew.t) (shipment : Shipment.t)
  : EngineNew.SearchState :=
  {| EngineNew.open_set :=
       heappush [] (EngineNew._heuristic sqrt self (Shipment.originPC shipment)
                      (Shipment.destPC shipment), 0,
                    (Pc, Shipment.originPC shipment, None));
     EngineNew.counter := 0;
     EngineNew.came_from := ∅;
     EngineNew.g_score := {[ (Pc, Shipment.originPC shipment, None) := 0%Q ]};
     EngineNew.edge_data := ∅ |}.

(** The first two components of the measure went down. *)
Definition lex2N (D : positive) (U : gset node) (a b : EngineNew.SearchState) : Prop :=
  (measureN D U a).1.1 < (measureN D U b).1.1
  \/ ((measureN D U a).1.1 = (measureN D U b).1.1
      /\ (measureN D U a).1.2 < (measureN D U b).1.2).

(** What holds of every state of the forward loop when no route has a
    negative cost. *)
Record search_invN (D : positive) (U : gset node) (start : node)
    (st : EngineNew.SearchState) : Prop := {
  in_chain : chain_inv start (core_ofN st);
  in_open : forall e, e ∈ EngineNew.open_set st -> is_Some (EngineNew.g_score st !! e.2);
  in_dom : dom (EngineNew.g_score st) ⊆ U;
  in_integral : forall n g, EngineNew.g_score st !! n = Some g -> integral D g
}.

(** Three postcodes in a row, one provider, one zone per postcode and a
    route from each zone to the next; 65 is the cost of either route at
    100 kg. *)
Definition sample_postcodes : list Postcode.t :=
  [ Postcode.mk "2000" "Sydney CBD" "NSW" None;
    Postcode.mk "2500" "Wollongong" "NSW" None;
    Postcode.mk "3000" "Melbourne CBD" "VIC" None ].

Definition sample_zones : list (string * list ProviderZone.t) :=
  [ ("FP_1",
     [ ProviderZone.mk "FP_1" "ZA" ["2000"] "NSW" "metro";
       ProviderZone.mk "FP_1" "ZB" ["2500"] "NSW" "regional";
       ProviderZone.mk "FP_1" "ZC" ["3000"] "VIC" "metro" ]) ].

Definition route_ab : ProviderZoneRoute.t :=
  ProviderZoneRoute.mk "FP_1" "ZA" "ZB" "Standard" 15 0.5 2 24 1000 0 0 1 0.

Definition route_bc : ProviderZoneRoute.t :=
  ProviderZoneRoute.mk "FP_1" "ZB" "ZC" "Standard" 15 0.5 2 24 1000 0 0 1 0.

Definition sample_routes : list (string * list ProviderZoneRoute.t) :=
  [ ("FP_1/ZA", [route_ab]); ("FP_1/ZB", [route_bc]) ].

Definition sample_index : GraphIndex.t :=
  GraphIndex.init sample_postcodes sample_zones sample_routes.

Definition sample_engine : Engine.t :=
  Engine.mk sample_index (GraphIndex.postcodes sample_index).

Definition sample_engine_new : EngineNew.t :=
  EngineNew.mk sample_index (GraphIndex.postcodes sample_index).

Definition shipment_between (originPC destPC : string) (weightKG : Q) : Shipment.t :=
  Shipment.mk "shipment-1" originPC "" "" destPC "" "" weightKG 0 0 [] "Standard" 0.

(** Sydney to Melbourne, 100 kg. *)
Definition sample_shipment : Shipment.t := shipment_between "2000" "3000" 100.

(** Sydney to Wollongong, 100 kg: one route. *)
Definition short_shipment : Shipment.t := shipment_between "2000" "2500" 100.

(** From a postcode the index does not know. *)
Definition unknown_shipment : Shipment.t := shipment_between "9999" "3000" 100.

(** A stand-in for [math.sqrt]: the integer square root of the floor. *)
Definition sample_sqrt (x : Q) : Q := inject_Z (Z.sqrt (Qfloor x)).

(** ** The input of the index, flattened in iteration order *)

Definition all_routes (zoneRoutes : list (string * list ProviderZoneRoute.t))
  : list ProviderZoneRoute.t :=
  concat (zoneRoutes.*2).

(** The zones with the provider key they are filed under. *)
Definition zone_entries (providerZones : list (string * list ProviderZone.t))
  : list (string * ProviderZone.t) :=
  providerZones ≫= fun '(providerId, zones) => (fun zone => (providerId, zone)) <$> zones.

(** One entry per postcode listed by a zone. *)
Definition postcode_entries (providerZones : list (string * list ProviderZone.t))
  : list (string * (string * string)) :=
  zone_entries providerZones ≫=
    fun '(providerId, zone) =>
      (fun pc => (pc, (providerId, ProviderZone.zoneCode zone))) <$> ProviderZone.postcodes zone.

(** Two routes with the same [(providerId, fromZone, toZone)], the second
    dearer. *)
Definition route_ab_express : ProviderZoneRoute.t :=
  ProviderZoneRoute.mk "FP_1" "ZA" "ZB" "Express" 30 1 5 12 1000 0 0 1 0.

Definition duplicate_index : GraphIndex.t :=
  GraphIndex.init sample_postcodes sample_zones [ ("FP_1/ZA", [route_ab; route_ab_express]) ].

(** A route from a zone to itself with a negative charge, so a cycle of
    negative cost. *)
Definition route_rebate : ProviderZoneRoute.t :=
  ProviderZoneRoute.mk "FP_1" "ZA" "ZA" "Standard" (-10) 0 (-10) 24 1000 0 0 1 0.

Definition rebate_index : GraphIndex.t :=
  GraphIndex.init sample_postcodes
    [ ("FP_1", [ ProviderZone.mk "FP_1" "ZA" ["2000"] "NSW" "metro" ]) ]
    [ ("FP_1/ZA", [route_rebate]) ].

Definition rebate_engine_new : EngineNew.t :=
  EngineNew.mk rebate_index (GraphIndex.postcodes rebate_index).

(** The two vertices the search of [rebate_engine_new] moves between, and
    what holds of its queue for ever. *)
Definition rebate_pc : node := (Pc, "2000", None).
Definition rebate_zone : node := (Pz, "ZA", Some "FP_1").

Definition rebate_inv (st : EngineNew.SearchState) : Prop :=
  (exists e, e ∈ EngineNew.open_set st /\ e.2 = rebate_zone)
  /\ (forall e, e ∈ EngineNew.open_set st -> e.2 = rebate_pc \/ e.2 = rebate_zone)
  /\ is_Some (EngineNew.g_score st !! rebate_pc)
  /\ is_Some (EngineNew.g_score st !! rebate_zone).

(** A postcode in two zones of one provider, and a route of negative
    charge from the first zone to the second: postcode, first zone,
    second zone and postcode again is a cycle of negative cost. *)
Definition route_detour : ProviderZoneRoute.t :=
  ProviderZoneRoute.mk "FP_1" "Z1" "Z2" "Standard" (-5) 0 (-5) 24 1000 0 0 1 0.

Definition detour_index : GraphIndex.t :=
  GraphIndex.init sample_postcodes
    [ ("FP_1", [ ProviderZone.mk "FP_1" "Z1" ["2000"] "NSW" "metro";
                 ProviderZone.mk "FP_1" "Z2" ["2000"] "NSW" "metro" ]) ]
    [ ("FP_1/Z1", [route_detour]) ].

Definition detour_engine : Engine.t :=
  Engine.mk detour_index (GraphIndex.postcodes detour_index).

Definition round_trip : Shipment.t := shipment_between "2000" "2000" 100.

Definition detour_pc : node := (Pc, "2000", None).
Definition detour_z1 : node := (Pz, "Z1", Some "FP_1").
Definition detour_z2 : node := (Pz, "Z2", Some "FP_1").

Definition result_or_empty (o : outcome Engine.SearchResult) : Engine.SearchResult :=
  match o with
  | Ret r => r
  | _ => {| Engine.parent := ∅; Engine.cost := ∅; Engine.edge := ∅ |}
  end.

(** What the two explorations of [detour_engine] return for [round_trip]. *)
Definition detour_forward : Engine.SearchResult :=
  result_or_empty (Engine._astar_search sample_sqrt 8 detour_engine round_trip
                     "2000" "2000" true PInf PInf 5).

Definition detour_backward : Engine.SearchResult :=
  result_or_empty (Engine._astar_search sample_sqrt 8 detour_engine round_trip
                     "2000" "2000" false PInf PInf 5).

(** The vertices the loop of [_unroll_path] moves between on
    [detour_forward]. *)
Definition on_detour (st : option node * (list node * list Segment * Q * Q)) : Prop :=
  st.1 = Some detour_pc \/ st.1 = Some detour_z1 \/ st.1 = Some detour_z2.

(** A decidable check of [route_costs_nonneg], for concrete indexes. *)
Definition route_costs_nonnegb (idx : GraphIndex.t) (w : Q) : bool :=
  forallb (fun '(_, l) => forallb (fun r => Qle_bool 0 (ProviderZoneRoute.calculateCost r w)) l)
          (map_to_list (GraphIndex._zoneAdj idx) ++ map_to_list (GraphIndex._revZoneAdj idx)).

(** ** Edge costs and the routes they come from *)

(** [r] is a route the index hands out. *)
Definition indexed_route (idx : GraphIndex.t) (r : ProviderZoneRoute.t) : Prop :=
  exists k l,
    (GraphIndex._zoneAdj idx !! k = Some l \/ GraphIndex._revZoneAdj idx !! k = Some l)
    /\ r ∈ l.

(** The cost an edge carries is the cost of its route at weight [w], and 0
    for an entry or exit edge. *)
Definition edge_ok (idx : GraphIndex.t) (w : Q) (d : Engine.EdgeData) : Prop :=
  match Engine.ed_route d with
  | Engine.InfoZoneRoute _ r =>
      indexed_route idx r /\ Engine.ed_cost d = ProviderZoneRoute.calculateCost r w
  | _ => Engine.ed_cost d = 0%Q
  end.

Definition edge_okN (idx : GraphIndex.t) (w : Q) (d : EngineNew.EdgeData) : Prop :=
  match EngineNew.ed_info d with
  | EngineNew.InfoTransit r =>
      indexed_route idx r /\ EngineNew.ed_cost d = ProviderZoneRoute.calculateCost r w
  | _ => EngineNew.ed_cost d = 0%Q
  end.

(** A segment with a provider carries the cost of one of that provider's
    routes; a segment without is an entry or exit and costs nothing. *)
Definition segment_ok (idx : GraphIndex.t) (w : Q) (seg : Segment) : Prop :=
  match seg_providerId seg with
  | Some p =>
      exists r, indexed_route idx r /\ ProviderZoneRoute.providerId r = p
                /\ seg_cost seg = ProviderZoneRoute.calculateCost r w
  | None => seg_cost seg = 0%Q
  end.

(** The sample shipment with nothing to weigh. *)
Definition weightless_shipment : Shipment.t := shipment_between "2000" "2500" 0.

(** A segment with a provider costs exactly the [minCharge] of one of that
    provider's routes; a segment without costs nothing. *)
Definition segment_at_minCharge (idx : GraphIndex.t) (seg : Segment) : Prop :=
  match seg_providerId seg with
  | Some p =>
      exists r, indexed_route idx r /\ ProviderZoneRoute.providerId r = p
                /\ seg_cost seg = ProviderZoneRoute.minCharge r
  | None => seg_cost seg = 0%Q
  end.


(** * Vocabulary of the further properties *)
(** ** Parent chains and what the explorations record *)

(** Following parents from [n]: the vertices met, [n] first and the vertex
    without parent last. *)
Inductive parent_chain (p : gmap node node) : node -> list node -> Prop :=
| chain_root n : p !! n = None -> parent_chain p n [n]
| chain_step n m l : p !! n = Some m -> parent_chain p m l -> parent_chain p n (n :: l).

(** What the maps of an exploration of the bidirectional engine satisfy
    whatever the costs: every vertex with a cost but the start has a
    parent, and a parent entry comes with the edge that set it. *)
Record links (self : Engine.t) (shipment : Shipment.t) (forward : bool) (maxHops : Z)
    (start : node) (g : gmap node Q) (cf : gmap node node)
    (ed : gmap node Engine.EdgeData) : Prop := {
  lk_start : is_Some (g !! start);
  lk_parent : forall n, is_Some (g !! n) -> n = start \/ is_Some (cf !! n);
  lk_edge : forall n p, cf !! n = Some p ->
      is_Some (g !! n) /\ is_Some (g !! p)
      /\ exists nb, nb ∈ Engine._get_neighbors self p shipment maxHops forward
                    /\ nb.1.1.1 = n
                    /\ ed !! n = Some (Engine.mkEdge nb.1.1.2 nb.1.2 nb.2);
  lk_dom : forall n, is_Some (ed !! n) -> is_Some (cf !! n)
}.

(** The segment [_unroll_path] appends at [curr] when its parent is [prev]. *)
Definition unroll_segment (prev curr : node) (data : Engine.EdgeData) : Segment :=
  {| seg_fromZone := node_id prev;
     seg_toZone := node_id curr;
     seg_cost := Engine.ed_cost data;
     seg_etd := Engine.ed_etd data;
     seg_type := Some (Engine.info_type (Engine.ed_route data));
     seg_service := Some (Engine.info_service (Engine.ed_route data));
     seg_providerId :=
       match Engine.ed_route data with
       | Engine.InfoZoneRoute _ route => Some (ProviderZoneRoute.providerId route)
       | _ => None
       end |}.

(** The segments of the edges along a chain, the edge into the first
    vertex first. *)
Fixpoint segs_along (ed : gmap node Engine.EdgeData) (l : list node) : list Segment :=
  match l with
  | curr :: l' =>
      match l' with
      | prev :: _ =>
          match ed !! curr with
          | Some data => [unroll_segment prev curr data]
          | None => []
          end ++ segs_along ed l'
      | [] => []
      end
  | [] => []
  end.

(** Sums as the loops accumulate them, from the left. *)
Definition cost_sum (from : Q) (segs : list Segment) : Q :=
  foldl (fun c s => (c + seg_cost s)%Q) from segs.

Definition etd_sum (from : Q) (segs : list Segment) : Q :=
  foldl (fun e s => (e + seg_etd s)%Q) from segs.

(** The path [_merge_paths] builds from the forward chain [lf] and the
    backward chain [lb] of a meeting vertex. *)
Definition path_through (shipment : Shipment.t) (forward backward : Engine.SearchResult)
    (lf lb : list node) : MultiHopPath.t :=
  let f_segs := segs_along (Engine.edge forward) lf in
  let b_segs := segs_along (Engine.edge backward) lb in
  let full_segs := reverse f_segs ++ b_segs in
  let providers := remove_dups (omap seg_providerId full_segs) in
  MultiHopPath.init (Shipment.id shipment)
    (Fin (cost_sum 0 f_segs + cost_sum 0 b_segs))
    (Fin (etd_sum 0 f_segs + etd_sum 0 b_segs))
    (reverse lf ++ drop 1 lb) full_segs providers (length providers).

(** [path] was built at the postcode vertex [meet], which both
    explorations reached. *)
Definition met_at (shipment : Shipment.t) (forward backward : Engine.SearchResult)
    (meet : node) (path : MultiHopPath.t) : Prop :=
  node_type meet = Pc
  /\ meet ∈ dom (Engine.cost forward) /\ meet ∈ dom (Engine.cost backward)
  /\ exists lf lb,
       parent_chain (Engine.parent forward) meet lf
       /\ parent_chain (Engine.parent backward) meet lb
       /\ path = path_through shipment forward backward lf lb.

(** Each vertex of [l] is related to the next. *)
Inductive walk (R : node -> node -> Prop) : list node -> Prop :=
| walk_nil : walk R []
| walk_one a : walk R [a]
| walk_cons a b l : R a b -> walk R (b :: l) -> walk R (a :: b :: l).

(** [b] is a neighbour the bidirectional engine finds at [a] when it
    searches forward. *)
Definition forward_edge (self : Engine.t) (shipment : Shipment.t) (maxHops : Z)
    (a b : node) : Prop :=
  exists nb, nb ∈ Engine._get_neighbors self a shipment maxHops true /\ nb.1.1.1 = b.

(** [a] is a neighbour the bidirectional engine finds at [b] when it
    searches backward. *)
Definition backward_edge (self : Engine.t) (shipment : Shipment.t) (maxHops : Z)
    (a b : node) : Prop :=
  exists nb, nb ∈ Engine._get_neighbors self b shipment maxHops false /\ nb.1.1.1 = a.

(** ** What a segment says about its edge *)

(** [seg] carries route [r] of the index and names [a] as its origin
    zone and [b] as its destination zone. *)
Definition route_segment (idx : GraphIndex.t) (w : Q) (seg : Segment)
    (r : ProviderZoneRoute.t) (a b : string) : Prop :=
  indexed_route idx r
  /\ seg_providerId seg = Some (ProviderZoneRoute.providerId r)
  /\ seg_cost seg = ProviderZoneRoute.calculateCost r w
  /\ seg_etd seg = ProviderZoneRoute.deliveryHrs r
  /\ seg_fromZone seg = a /\ seg_toZone seg = b.

(** [seg] is the step between a postcode and one of its zones: no
    provider, no cost, no time. *)
Definition handoff_segment (seg : Segment) : Prop :=
  seg_providerId seg = None /\ seg_cost seg = 0%Q /\ seg_etd seg = 0%Q.

(** A route segment names the zones of its route as the route runs. *)
Definition in_travel_order (idx : GraphIndex.t) (w : Q) (seg : Segment) : Prop :=
  handoff_segment seg
  \/ exists r, route_segment idx w seg r (ProviderZoneRoute.fromZone r)
                 (ProviderZoneRoute.toZone r).

(** A route segment names the destination zone of its route as
    [fromZone] and the origin zone as [toZone]. *)
Definition against_travel_order (idx : GraphIndex.t) (w : Q) (seg : Segment) : Prop :=
  handoff_segment seg
  \/ exists r, route_segment idx w seg r (ProviderZoneRoute.toZone r)
                 (ProviderZoneRoute.fromZone r).

(** ** What the forward engine records *)

(** What the state of the forward search satisfies whatever the costs. *)
Record linksN (self : EngineNew.t) (shipment : Shipment.t) (maxCost : efloat)
    (start : node) (st : EngineNew.SearchState) : Prop := {
  ln_start : is_Some (EngineNew.g_score st !! start);
  ln_root : EngineNew.came_from st !! start = None ->
            EngineNew.g_score st !! start = Some 0%Q;
  ln_open : forall e, e ∈ EngineNew.open_set st -> is_Some (EngineNew.g_score st !! e.2);
  ln_parent : forall n, is_Some (EngineNew.g_score st !! n) ->
                n = start \/ is_Some (EngineNew.came_from st !! n);
  ln_bound : forall n g, EngineNew.g_score st !! n = Some g ->
               is_Some (EngineNew.came_from st !! n) -> exceeds g maxCost = false;
  ln_edge : forall n p, EngineNew.came_from st !! n = Some p ->
      exists gn gp nb,
        EngineNew.g_score st !! n = Some gn /\ EngineNew.g_score st !! p = Some gp
        /\ nb ∈ EngineNew._get_forward_neighbors self p shipment
        /\ nb.1.1.1 = n
        /\ EngineNew.edge_data st !! n = Some (EngineNew.mkEdge nb.1.1.2 nb.1.2 nb.2)
        /\ (gp + nb.1.1.2 <= gn)%Q
}.

(** The segment [_reconstruct_path] appends for an edge: one for a
    transit edge, none for an entry or an exit. *)
Definition transit_segment (data : EngineNew.EdgeData) : list Segment :=
  match EngineNew.ed_info data with
  | EngineNew.InfoTransit route =>
      [ {| seg_fromZone := ProviderZoneRoute.fromZone route;
           seg_toZone := ProviderZoneRoute.toZone route;
           seg_cost := EngineNew.ed_cost data;
           seg_etd := EngineNew.ed_etd data;
           seg_type := None;
           seg_service := None;
           seg_providerId := Some (ProviderZoneRoute.providerId route) |} ]
  | _ => []
  end.

(** The edges into the vertices of a chain, the last vertex apart. *)
Fixpoint edges_along (ed : gmap node EngineNew.EdgeData) (l : list node)
  : list EngineNew.EdgeData :=
  match l with
  | curr :: l' =>
      match l' with
      | _ :: _ =>
          match ed !! curr with
          | Some data => [data]
          | None => []
          end ++ edges_along ed l'
      | [] => []
      end
  | [] => []
  end.

(** The path [_reconstruct_path] builds from the chain [l] of the vertex
    it starts at. *)
Definition path_along (shipment : Shipment.t) (ed : gmap node EngineNew.EdgeData)
    (l : list node) : MultiHopPath.t :=
  let ds := edges_along ed l in
  let segments := ds ≫= transit_segment in
  let providers := remove_dups (omap seg_providerId segments) in
  MultiHopPath.init (Shipment.id shipment)
    (Fin (foldl (fun c d => (c + EngineNew.ed_cost d)%Q) 0%Q ds))
    (Fin (foldl (fun e d => (e + EngineNew.ed_etd d)%Q) 0%Q ds))
    (reverse l) (reverse segments) providers (length providers).

(** [b] is a neighbour the forward engine finds at [a]. *)
Definition forward_edgeN (self : EngineNew.t) (shipment : Shipment.t) (a b : node) : Prop :=
  exists nb, nb ∈ EngineNew._get_forward_neighbors self a shipment /\ nb.1.1.1 = b.

(** What the edge data of the forward engine say: a transit edge carries
    the cost and the hours of a route of the index, an entry or exit edge
    costs nothing and takes no time. *)
Definition edge_fullN (idx : GraphIndex.t) (w : Q) (d : EngineNew.EdgeData) : Prop :=
  match EngineNew.ed_info d with
  | EngineNew.InfoTransit r =>
      indexed_route idx r
      /\ EngineNew.ed_cost d = ProviderZoneRoute.calculateCost r w
      /\ EngineNew.ed_etd d = ProviderZoneRoute.deliveryHrs r
  | _ => EngineNew.ed_cost d = 0%Q /\ EngineNew.ed_etd d = 0%Q
  end.

(** [path] is what the forward search found: the path along the chain of
    the destination vertex in a state of the search. *)
Definition found_in (self : EngineNew.t) (shipment : Shipment.t) (maxCost : efloat)
    (st : EngineNew.SearchState) (current : node) (l : list node)
    (path : MultiHopPath.t) : Prop :=
  linksN self shipment maxCost (Pc, Shipment.originPC shipment, None) st
  /\ is_Some (EngineNew.g_score st !! current)
  /\ node_type current = Pc /\ node_id current = Shipment.destPC shipment
  /\ parent_chain (EngineNew.came_from st) current l
  /\ path = path_along shipment (EngineNew.edge_data st) l.

(** ** Orders on paths by time *)

Definition etd_le (p q : MultiHopPath.t) : Prop :=
  ef_le (MultiHopPath.totalETD p) (MultiHopPath.totalETD q).

(** [p] is not slower than [q], and not dearer either when they are
    equally fast. *)
Definition faster_then_cheaper (p q : MultiHopPath.t) : Prop :=
  etd_le p q /\ (etd_le q p -> cost_le p q).

(** The denominator of one of the two inverse terms of the score is 0. *)
Definition score_undefined (p : MultiHopPath.t) : Prop :=
  (exists c, MultiHopPath.totalCost p = Fin c /\ (c == -1000)%Q)
  \/ (exists e, MultiHopPath.totalETD p = Fin e /\ (e == -24)%Q).

(** No route of the index takes a negative time. *)
Definition route_hours_nonneg (idx : GraphIndex.t) : Prop :=
  forall r, indexed_route idx r -> (0 <= ProviderZoneRoute.deliveryHrs r)%Q.

(** ** Dicts of lists kept as item lists *)

(** Every key is there once, and each list holds elements of its key. *)
Definition grouped {V} (key : V -> string) (d : list (string * list V)) : Prop :=
  NoDup d.*1 /\ forall k g, (k, g) ∈ d -> forall y, y ∈ g -> key y = k.

(** The character [/] occurs in [s]. *)
Fixpoint has_slash (s : string) : bool :=
  match s with
  | EmptyString => false
  | String c s' => if decide (String c EmptyString = "/") then true else has_slash s'
  end.

(** The base cost of a row of the loader. *)
Definition row_base_cost (row : DataLoader.route_row) : Q := row.1.1.1.2.

(** ** Float arithmetic without overflow *)

(** The largest finite float (binary64). *)
Definition max_float : Q := inject_Z (2 ^ 1024 - 2 ^ 971).

(** [x] lies in the range of the finite floats. *)
Definition in_range (x : Q) : Prop := (- max_float <= x)%Q /\ (x <= max_float)%Q.

(** What is assumed of the rounding of the machine: on the range of the
    finite floats it is monotone, and it leaves 0 unchanged. *)
Record rounding (rnd : Q -> Q) : Prop := {
  rnd_mono : forall x y, in_range x -> in_range y -> (x <= y)%Q -> (rnd x <= rnd y)%Q;
  rnd_zero : (rnd 0 == 0)%Q
}.

(** [x] is a finite float: rounding leaves it unchanged. *)
Definition is_float (rnd : Q -> Q) (x : Q) : Prop := in_range x /\ (rnd x == x)%Q.

(** No operation of [calculateCost] at weight [w] leaves the range of the
    finite floats: the exact result of each one is in range. *)
Definition no_overflow (rnd : Q -> Q) (r : ProviderZoneRoute.t) (w : Q) : Prop :=
  let product := (w * ProviderZoneRoute.perKGRate r)%Q in
  let sum := (ProviderZoneRoute.baseCharge r + rnd product)%Q in
  let charge := py_max (rnd sum) (ProviderZoneRoute.minCharge r) in
  let pct := (ProviderZoneRoute.fuelLevyPct r / 100)%Q in
  let levy := (charge * rnd pct)%Q in
  in_range product /\ in_range sum /\ in_range pct /\ in_range levy
  /\ in_range (charge + rnd levy).

(** ** Sample data of the further properties *)

(** A route that pays the shipper 1000. *)
Definition route_refund : ProviderZoneRoute.t :=
  ProviderZoneRoute.mk "FP_1" "ZA" "ZB" "Standard" (-1000) 0 (-1000) 24 1000 0 0 1 0.

Definition refund_index : GraphIndex.t :=
  GraphIndex.init sample_postcodes sample_zones [ ("FP_1/ZA", [route_refund]) ].

Definition refund_engine : Engine.t :=
  Engine.mk refund_index (GraphIndex.postcodes refund_index).

(** What [load_sample_data] returns: the postcodes, the zones, the index,
    and the engines over the index. *)
Definition poc_postcodes : list Postcode.t := DataLoader.load_sample_data.1.1.1.2.

Definition poc_zones : list ProviderZone.t := DataLoader.load_sample_data.1.1.2.

Definition poc_index : GraphIndex.t := DataLoader.load_sample_data.2.

Definition poc_engine : Engine.t := Engine.mk poc_index (GraphIndex.postcodes poc_index).

Definition poc_engine_new : EngineNew.t :=
  EngineNew.mk poc_index (GraphIndex.postcodes poc_index).

(** A shipment that stays in Sydney CBD. *)
Definition local_shipment : Shipment.t := shipment_between "2000" "2000" 100.

(** A decidable check of [route_hours_nonneg], for concrete indexes. *)
Definition route_hours_nonnegb (idx : GraphIndex.t) : bool :=
  forallb (fun '(_, l) => forallb (fun r => Qle_bool 0 (ProviderZoneRoute.deliveryHrs r)) l)
          (map_to_list (GraphIndex._zoneAdj idx) ++ map_to_list (GraphIndex._revZoneAdj idx)).

(** A rounding for the examples: to the nearest thousandth, halves up. *)
Definition round_to_thousandth (x : Q) : Q := Qfloor (x * 1000 + (1 # 2)) # 1000.

(** A route with a levy of a third of a percent. *)
Definition third_route : ProviderZoneRoute.t :=
  ProviderZoneRoute.mk "FP_1" "ZA" "ZB" "Standard" 15 (1 # 3) 2 24 1000 0 0 1 (1 # 3).
(** * Properties *)

(** ** Numbers *)

Lemma Qgtb_true (b a : Q) : Qgtb b a = true <-> (a < b)%Q.
Proof.
  unfold Qgtb. rewrite negb_true_iff, <- not_true_iff_false, Qle_bool_iff.
  split; [apply Qnot_le_lt | apply Qlt_not_le].
Qed.

Lemma Qgtb_false (b a : Q) : Qgtb b a = false <-> (b <= a)%Q.
Proof. unfold Qgtb. rewrite negb_false_iff. apply Qle_bool_iff. Qed.

Lemma Qle_bool_false (a b : Q) : Qle_bool a b = false <-> (b < a)%Q.
Proof.
  rewrite <- not_true_iff_false, Qle_bool_iff.
  split; [apply Qnot_le_lt | apply Qlt_not_le].
Qed.

Lemma py_max_Qmax (a b : Q) : (py_max a b == Qmax a b)%Q.
Proof.
  unfold py_max. destruct (Qgtb b a) eqn:E.
  - apply Qgtb_true in E. symmetry. apply Q.max_r. by apply Qlt_le_weak.
  - apply Qgtb_false in E. symmetry. by apply Q.max_l.
Qed.

Lemma exceeds_false (x : Q) (m : efloat) :
  exceeds x m = false <-> ef_le (Fin x) m.
Proof.
  destruct m as [q|]; unfold ef_le; simpl; [|done].
  unfold Qgtb. apply negb_false_iff.
Qed.

(** ** calculateCost *)

Lemma calculateCost_positive (r : ProviderZoneRoute.t) (w : Q) :
  (0 < w)%Q ->
  let charge := Qmax (ProviderZoneRoute.baseCharge r + w * ProviderZoneRoute.perKGRate r)
                     (ProviderZoneRoute.minCharge r) in
  (ProviderZoneRoute.calculateCost r w
   == charge + charge * (ProviderZoneRoute.fuelLevyPct r / 100))%Q.
Proof.
  intros Hw charge. unfold ProviderZoneRoute.calculateCost.
  apply Qle_bool_false in Hw. rewrite Hw.
  subst charge. by rewrite py_max_Qmax.
Qed.

Lemma calculateCost_nonpositive (r : ProviderZoneRoute.t) (w : Q) :
  (w <= 0)%Q -> ProviderZoneRoute.calculateCost r w = ProviderZoneRoute.minCharge r.
Proof.
  intros Hw. unfold ProviderZoneRoute.calculateCost.
  apply Qle_bool_iff in Hw. by rewrite Hw.
Qed.

(** C1, as stated, fails: at weight 0 the code returns [minCharge] (2) and
    not [minCharge] plus the levy (2.2). *)
Lemma C1_levy_not_added_at_zero_weight :
  ~ (forall (r : ProviderZoneRoute.t) (w : Q),
        (ProviderZoneRoute.calculateCost r w == cost_as_specified r w)%Q).
Proof. intros H. specialize (H levy_route 0%Q). vm_compute in H. discriminate. Qed.

(** C1 (amended): for [weightKG > 0] the cost is
    [max(baseCharge + weightKG*perKGRate, minCharge)] increased by
    [fuelLevyPct] percent of itself; for [weightKG <= 0] it is [minCharge]
    with no levy; and a route with [baseCharge = 15], [perKGRate = 0.5],
    [minCharge = 2] costs 65 plus the levy on 65 at [weightKG = 100]. *)
Theorem C1_calculateCost_formula (r : ProviderZoneRoute.t) (w : Q) :
  ((0 < w)%Q ->
   let charge := Qmax (ProviderZoneRoute.baseCharge r + w * ProviderZoneRoute.perKGRate r)
                      (ProviderZoneRoute.minCharge r) in
   (ProviderZoneRoute.calculateCost r w
    == charge + charge * (ProviderZoneRoute.fuelLevyPct r / 100))%Q)
  /\ ((w <= 0)%Q ->
      ProviderZoneRoute.calculateCost r w = ProviderZoneRoute.minCharge r)
  /\ ((ProviderZoneRoute.baseCharge r == 15)%Q ->
      (ProviderZoneRoute.perKGRate r == 0.5)%Q ->
      (ProviderZoneRoute.minCharge r == 2)%Q ->
      (ProviderZoneRoute.calculateCost r 100
       == 65 + 65 * (ProviderZoneRoute.fuelLevyPct r / 100))%Q).
Proof.
  split; [apply calculateCost_positive |].
  split; [apply calculateCost_nonpositive |].
  intros Hb Hr Hm.
  assert (Hpos : (0 < 100)%Q) by reflexivity.
  rewrite (calculateCost_positive r 100 Hpos). cbv zeta.
  assert (Hmax : (Qmax (ProviderZoneRoute.baseCharge r + 100 * ProviderZoneRoute.perKGRate r)
                       (ProviderZoneRoute.minCharge r) == 65)%Q).
  { rewrite Hb, Hr, Hm. reflexivity. }
  by rewrite Hmax.
Qed.

Lemma C1_calculateCost_formula_witness :
  (ProviderZoneRoute.calculateCost levy_route 100 == 65 + 65 * (10 / 100))%Q
  /\ ProviderZoneRoute.calculateCost levy_route 0 = 2%Q.
Proof.
  split.
  - apply (proj2 (proj2 (C1_calculateCost_formula levy_route 100))); reflexivity.
  - apply (proj1 (proj2 (C1_calculateCost_formula levy_route 0))). discriminate.
Defined.

(** ** Convergence of fuelled computations *)

Lemma converges_ret {A} (a : A) : converges (fun _ => Ret a) a.
Proof. by exists 0. Qed.

Lemma converges_bind {A B} (f : nat -> outcome A) (k : A -> nat -> outcome B) (a : A) (b : B) :
  converges f a -> converges (k a) b -> converges (fun fuel => x ← f fuel; k x fuel) b.
Proof.
  intros [f0 Hf] [k0 Hk]. exists (f0 `max` k0). intros fuel Hfuel.
  rewrite Hf by lia. simpl. apply Hk. lia.
Qed.

Lemma converges_unique {A} (f : nat -> outcome A) (a b : A) :
  converges f a -> converges f b -> a = b.
Proof.
  intros [f0 Hf] [g0 Hg]. specialize (Hf (f0 `max` g0)). specialize (Hg (f0 `max` g0)).
  rewrite Hf in Hg by lia. by injection Hg; [|lia].
Qed.

Lemma converges_ofoldl {A B} (step : nat -> A -> B -> outcome A) (Q : A -> Prop) (l : list B) :
  (forall a x, x ∈ l -> Q a -> exists a', converges (fun fuel => step fuel a x) a' /\ Q a') ->
  forall a, Q a -> exists a', converges (fun fuel => ofoldl (step fuel) a l) a' /\ Q a'.
Proof.
  induction l as [|x l IH]; intros Hstep a Ha.
  - exists a. split; [apply converges_ret | done].
  - destruct (Hstep a x) as (a1 & Hconv1 & Ha1); [by left | done |].
    destruct (IH (fun a y Hy => Hstep a y (list_elem_of_further _ _ _ Hy)) a1 Ha1)
      as (a2 & Hconv2 & Ha2).
    exists a2. split; [|done]. simpl.
    by apply (converges_bind (fun fuel => step fuel a x)
                (fun a' fuel => ofoldl (step fuel) a' l) a1 a2).
Qed.

(** ** The [while] combinator *)

Section WhileLoop.
Context {St R : Type}.

Lemma while_loop_invariant (body : St -> outcome (St + R)) (P : St -> Prop) :
  (forall st st', P st -> body st = Ret (inl st') -> P st') ->
  forall fuel st r, P st -> while_loop body fuel st = Ret r ->
  exists st', P st' /\ body st' = Ret (inr r).
Proof.
  intros Hstep fuel. induction fuel as [|fuel IH]; intros st r HP Hrun; [done|].
  simpl in Hrun. destruct (body st) as [| e | [st'|res]] eqn:Hb; simpl in Hrun; try done.
  - eapply IH; [|done]. by eapply Hstep.
  - simplify_eq. eauto.
Qed.

(** The body may itself take fuel (for a loop nested in it): a step must
    not depend on it, leaving the loop may need enough of it. *)
Lemma while_loop_converges (body : nat -> St -> outcome (St + R))
    (P : St -> Prop) (mu : St -> nat * nat * nat) :
  (forall st, P st ->
     (exists r, converges (fun g => body g st) (inr r))
     \/ (exists st', (forall g, body g st = Ret (inl st')) /\ P st' /\ lex3 (mu st') (mu st))) ->
  forall st, P st ->
  exists f0 r, forall f g, f0 <= f -> f0 <= g -> while_loop (body g) f st = Ret r.
Proof.
  intros Hstep.
  assert (Hgen : forall a b c st, mu st = (a, b, c) -> P st ->
    exists f0 r, forall f g, f0 <= f -> f0 <= g -> while_loop (body g) f st = Ret r).
  { induction a as [a IHa] using lt_wf_ind.
    induction b as [b IHb] using lt_wf_ind.
    induction c as [c IHc] using lt_wf_ind.
    intros st Hmu HP.
    destruct (Hstep st HP) as [(r & f0 & Hr) | (st' & Hb & HP' & Hlt)].
    - exists (S f0), r. intros f g Hf Hg. destruct f as [|f]; [lia|].
      simpl. rewrite Hr by lia. done.
    - assert (Hnext : exists f0 r, forall f g, f0 <= f -> f0 <= g ->
                while_loop (body g) f st' = Ret r).
      { destruct (mu st') as [[a' b'] c'] eqn:Hmu'. rewrite Hmu in Hlt.
        unfold lex3 in Hlt; simpl in Hlt.
        destruct Hlt as [Ha | [-> [Hb' | [-> Hc]]]].
        - by eapply (IHa a' Ha b' c' st').
        - by eapply (IHb b' Hb' c' st').
        - by eapply (IHc c' Hc st'). }
      destruct Hnext as (f0 & r & Hrun).
      exists (S f0), r. intros f g Hf Hg. destruct f as [|f]; [lia|].
      simpl. rewrite Hb. simpl. apply Hrun; lia. }
  intros st HP. destruct (mu st) as [[a b] c] eqn:Hmu. by eapply Hgen.
Qed.
End WhileLoop.

(** ** heappop *)

Lemma pop_min_perm (e : entry) (l : list entry) :
  (pop_min e l).1 :: (pop_min e l).2 ≡ₚ e :: l.
Proof.
  revert e. induction l as [|x l IH]; intros e; simpl; [done|].
  destruct (entry_ltb x e).
  - specialize (IH x). destruct (pop_min x l) as [m r]; simpl in *.
    etrans; [apply Permutation_swap|]. by rewrite IH.
  - specialize (IH e). destruct (pop_min e l) as [m r]; simpl in *.
    etrans; [apply Permutation_swap|]. rewrite IH. apply Permutation_swap.
Qed.

Lemma heappop_perm (h : list entry) (e : entry) (rest : list entry) :
  heappop h = Some (e, rest) -> e :: rest ≡ₚ h.
Proof.
  destruct h as [|x l]; simpl; [done|]. intros [= Hpop].
  pose proof (pop_min_perm x l) as Hperm. by rewrite Hpop in Hperm.
Qed.

(** ** Relaxing an edge keeps the chains *)

Section Core.
Context (start : node).

Lemma rooted_relax_below (c : core) (n cur : node) (x : Q) :
  chain_inv start c -> improvable (cg c) n x ->
  forall m, rooted (cp c) m -> forall gm, cg c !! m = Some gm -> (gm <= x)%Q ->
  rooted (<[n := cur]> (cp c)) m.
Proof.
  intros Hinv Himp m Hm. induction Hm as [m Hnone | m p Hp Hrp IH]; intros gm Hgm Hle.
  - assert (m <> n).
    { intros ->. unfold improvable in Himp. rewrite Hgm in Himp. lra. }
    apply rooted_root. by rewrite lookup_insert_ne.
  - assert (m <> n).
    { intros ->. unfold improvable in Himp. rewrite Hgm in Himp. lra. }
    destruct (ci_edge start c Hinv m p Hp) as (gn & gp & w & Hgn & Hgp & Hw & Hw0 & Hmono).
    apply (rooted_step _ m p); [by rewrite lookup_insert_ne|].
    apply (IH gp Hgp). simplify_eq. lra.
Qed.

Lemma chain_inv_relax (c : core) (n cur : node) (gc w : Q) :
  chain_inv start c -> cg c !! cur = Some gc -> (0 <= w)%Q ->
  improvable (cg c) n (gc + w)%Q ->
  chain_inv start (relax c n cur (gc + w)%Q w) /\ n <> cur /\ n <> start.
Proof.
  intros Hinv Hcur Hw Himp.
  assert (Hgc : (0 <= gc)%Q) by (by eapply ci_nonneg).
  assert (Hnc : n <> cur).
  { intros ->. unfold improvable in Himp. rewrite Hcur in Himp. lra. }
  assert (Hns : n <> start).
  { intros ->. unfold improvable in Himp. rewrite (ci_start start c Hinv) in Himp. lra. }
  split; [|done].
  assert (Hrn : rooted (<[n := cur]> (cp c)) n).
  { apply (rooted_step _ n cur); [by rewrite lookup_insert_eq|].
    apply (rooted_relax_below c n cur (gc + w)%Q Hinv Himp cur (ci_rooted start c Hinv cur) gc Hcur).
    lra. }
  constructor; simpl.
  - rewrite lookup_insert_ne; [apply Hinv | done].
  - rewrite lookup_insert_ne; [apply Hinv | done].
  - intros m p Hmp. destruct (decide (m = n)) as [->|Hmn].
    + rewrite lookup_insert_eq in Hmp. simplify_eq.
      exists (gc + w)%Q, gc, w. rewrite !lookup_insert_eq.
      rewrite lookup_insert_ne by done. repeat split; try done. lra.
    + rewrite lookup_insert_ne in Hmp by done.
      destruct (ci_edge start c Hinv m p Hmp) as (gn & gp & w' & Hgn & Hgp & Hw' & Hw0 & Hmono).
      rewrite !(lookup_insert_ne _ n m) by done.
      destruct (decide (p = n)) as [->|Hpn].
      * exists gn, (gc + w)%Q, w'. rewrite lookup_insert_eq.
        repeat split; try done.
        unfold improvable in Himp. rewrite Hgp in Himp. lra.
      * exists gn, gp, w'. rewrite lookup_insert_ne by done. done.
  - intros m. destruct (decide (m = n)) as [->|Hmn].
    + rewrite !lookup_insert_eq. split; eauto.
    + rewrite !lookup_insert_ne by done. apply Hinv.
  - intros m gm. destruct (decide (m = n)) as [->|Hmn].
    + rewrite lookup_insert_eq. intros; simplify_eq. lra.
    + rewrite lookup_insert_ne by done. apply Hinv.
  - intros m. destruct (decide (m = n)) as [->|Hmn].
    + rewrite !lookup_insert_eq. eauto.
    + rewrite !lookup_insert_ne by done. apply Hinv.
  - intros m. pose proof (ci_rooted start c Hinv m) as Hm.
    induction Hm as [m Hnone | m p Hp Hrp IH].
    + destruct (decide (m = n)) as [->|Hmn]; [done|].
      apply rooted_root. by rewrite lookup_insert_ne.
    + destruct (decide (m = n)) as [->|Hmn]; [done|].
      apply (rooted_step _ m p); [by rewrite lookup_insert_ne | done].
Qed.
End Core.


(** ** The vertices an index can hand out as neighbours *)

Lemma lookup_default_elem {K A} `{Countable K} (m : gmap K (list A)) (k : K) (x : A) :
  x ∈ default [] (m !! k) -> exists l, m !! k = Some l /\ x ∈ l.
Proof.
  destruct (m !! k) as [l|] eqn:E; simpl; [eauto|]. by intros ?%not_elem_of_nil.
Qed.

Lemma Engine_neighbors_in_index (self : Engine.t) (n : node) (s : Shipment.t)
    (maxHops : Z) (forward : bool) (nb : Engine.neighbor) :
  nb ∈ Engine._get_neighbors self n s maxHops forward ->
  nb.1.1.1 ∈ index_nodes (Engine.index self).
Proof.
  destruct n as [[ty id] prov]. unfold Engine._get_neighbors, index_nodes.
  rewrite !elem_of_app, !list_elem_of_bind.
  destruct ty.
  - intros Hin. apply list_elem_of_fmap in Hin as ([p z] & -> & Hin).
    apply lookup_default_elem in Hin as (l & Hl & Hin). left.
    exists (id, l). split; [|by apply elem_of_map_to_list].
    apply list_elem_of_fmap. by exists (p, z).
  - rewrite elem_of_app. intros [Hin | Hin].
    + destruct forward.
      * apply list_elem_of_fmap in Hin as (r & -> & Hin).
        destruct prov as [p|]; simpl in Hin; [|by apply not_elem_of_nil in Hin].
        apply lookup_default_elem in Hin as (l & Hl & Hin). right; left.
        exists ((p, id), l). split; [|by apply elem_of_map_to_list].
        apply list_elem_of_fmap. by exists r.
      * apply list_elem_of_fmap in Hin as (r & -> & Hin).
        destruct prov as [p|]; simpl in Hin; [|by apply not_elem_of_nil in Hin].
        apply lookup_default_elem in Hin as (l & Hl & Hin). right; right; left.
        exists ((p, id), l). split; [|by apply elem_of_map_to_list].
        apply list_elem_of_fmap. by exists r.
    + apply list_elem_of_fmap in Hin as (c & -> & Hin).
      destruct prov as [p|]; simpl in Hin; [|by apply not_elem_of_nil in Hin].
      apply lookup_default_elem in Hin as (l & Hl & Hin). right; right; right.
      exists ((p, id), l). split; [|by apply elem_of_map_to_list].
      apply list_elem_of_fmap. by exists c.
Qed.

Lemma foldl_invariant {A B} (f : A -> B -> A) (P : A -> Prop) (l : list B) :
  (forall a x, x ∈ l -> P a -> P (f a x)) -> forall a, P a -> P (foldl f a l).
Proof.
  induction l as [|x l IH]; intros Hstep a Ha; simpl; [done|].
  apply IH.
  - intros a' y Hy. apply Hstep. by right.
  - apply Hstep; [by left | done].
Qed.

(** ** One exploration of the bidirectional engine *)

Section EngineSearch.
Context (sqrt : Q -> Q) (self : Engine.t) (shipment : Shipment.t) (goalPC : string)
        (forward : bool) (maxCost maxETD : efloat) (maxHops : Z) (start : node).

Local Abbreviation U := (universe (Engine.index self) start).
Local Abbreviation wf := (search_wf self maxCost start).
Local Abbreviation body :=
  (Engine.loop_body sqrt self shipment goalPC forward maxCost maxETD maxHops).
Local Abbreviation mu := (measure self start).
Local Abbreviation initial h := (Engine.initial_state start h).
Local Abbreviation nonneg := (nonneg_costs self shipment forward maxHops).

Lemma improvable_iff (g : gmap node Q) (n : node) (x : Q) :
  Engine.suboptimal g n x = false <-> improvable g n x.
Proof.
  unfold Engine.suboptimal, improvable. destruct (g !! n); [|done].
  apply Qle_bool_false.
Qed.

Lemma expand_neighbor_cases (current : node) (current_g : Q) (st : Engine.SearchState)
    (n : node) (c e : Q) (i : Engine.RouteInfo) :
  let st' := Engine.expand_neighbor sqrt self goalPC maxCost maxETD current current_g st
               (n, c, e, i) in
  st' = st
  \/ (improvable (Engine.g_score st) n (current_g + c)%Q
      /\ exceeds (current_g + c)%Q maxCost = false
      /\ exceeds e maxETD = false
      /\ exists f,
          st' = Engine.mkState
                  (heappush (Engine.open_set st) (f, Engine.counter st, n))
                  (S (Engine.counter st))
                  (<[n := (current_g + c)%Q]> (Engine.g_score st))
                  (<[n := f]> (Engine.f_score st))
                  (<[n := current]> (Engine.came_from st))
                  (<[n := Engine.mkEdge c e i]> (Engine.edge_data st))
                  (Engine.visited st)).
Proof.
  simpl. destruct (Engine.suboptimal _ _ _) eqn:Hsub; [by left|].
  destruct (exceeds (current_g + c) maxCost) eqn:Hc; simpl; [by left|].
  destruct (exceeds e maxETD) eqn:He; simpl; [by left|].
  right. apply improvable_iff in Hsub. eauto.
Qed.

Lemma expand_neighbor_visited current current_g st nb :
  Engine.visited (Engine.expand_neighbor sqrt self goalPC maxCost maxETD current current_g st nb)
  = Engine.visited st.
Proof.
  destruct nb as [[[n c] e] i].
  destruct (expand_neighbor_cases current current_g st n c e i)
    as [-> | (_ & _ & _ & f & ->)]; done.
Qed.

Lemma expand_neighbor_wf current current_g st nb :
  nb.1.1.1 ∈ U -> wf st ->
  wf (Engine.expand_neighbor sqrt self goalPC maxCost maxETD current current_g st nb).
Proof.
  destruct nb as [[[n c] e] i]. intros Hn Hwf. simpl in Hn.
  destruct (expand_neighbor_cases current current_g st n c e i)
    as [-> | (_ & Hc & _ & f & ->)]; [done|].
  constructor; simpl.
  - intros x [-> | Hx]%elem_of_cons; simpl.
    + rewrite lookup_insert_eq. eauto.
    + destruct (wf_open _ _ _ st Hwf x Hx) as [Hg Hu]. split; [|done].
      destruct (decide (n = x.2)) as [->|Hne].
      * rewrite lookup_insert_eq. eauto.
      * by rewrite lookup_insert_ne.
  - apply Hwf.
  - intros m g. destruct (decide (n = m)) as [->|Hne].
    + rewrite lookup_insert_eq. intros [= <-]. by right.
    + rewrite lookup_insert_ne by done. apply Hwf.
Qed.

Lemma neighbors_in_universe n nb :
  nb ∈ Engine._get_neighbors self n shipment maxHops forward -> nb.1.1.1 ∈ U.
Proof.
  intros Hnb%Engine_neighbors_in_index. unfold universe.
  apply elem_of_union_r. by apply elem_of_list_to_set.
Qed.

Lemma body_wf st st' : wf st -> body st = Ret (inl st') -> wf st'.
Proof.
  intros Hwf. unfold Engine.loop_body.
  destruct (heappop (Engine.open_set st)) as [[[[f k] current] rest]|] eqn:Hpop; [|done].
  apply heappop_perm in Hpop.
  assert (Hrest : wf (Engine.set_open st rest)).
  { constructor; simpl; [|apply Hwf..].
    intros e He. apply (wf_open _ _ _ st Hwf). rewrite <- Hpop. by right. }
  destruct (wf_open _ _ _ st Hwf (f, k, current)) as [[g Hg] Hu]; [rewrite <- Hpop; by left|].
  simpl in Hg, Hu.
  destruct (decide (current ∈ _)); [by intros [= <-]|].
  assert (Hvis : wf (Engine.add_visited (Engine.set_open st rest) current)).
  { constructor; simpl; [apply Hrest| |apply Hrest].
    pose proof (wf_visited _ _ _ st Hwf). set_solver. }
  unfold getitem. simpl. rewrite Hg. simpl.
  destruct (exceeds g maxCost); [by intros [= <-]|].
  intros [= <-]. apply foldl_invariant; [|done].
  intros a nb Hnb Ha. apply expand_neighbor_wf; [|done]. by eapply neighbors_in_universe.
Qed.

Lemma body_progress st :
  wf st ->
  (exists r, body st = Ret (inr r))
  \/ (exists st', body st = Ret (inl st') /\ wf st' /\ lex3 (mu st') (mu st)).
Proof.
  intros Hwf.
  destruct (body st) as [| e | [st'|r]] eqn:Hbody.
  - exfalso. revert Hbody. unfold Engine.loop_body.
    destruct (heappop (Engine.open_set st)) as [[[[f k] current] rest]|] eqn:Hpop; [|done].
    apply heappop_perm in Hpop.
    destruct (wf_open _ _ _ st Hwf (f, k, current)) as [[g Hg] Hu]; [rewrite <- Hpop; by left|].
    simpl in Hg. destruct (decide _); [done|].
    unfold getitem. simpl. rewrite Hg. simpl. by destruct (exceeds g maxCost).
  - exfalso. revert Hbody. unfold Engine.loop_body.
    destruct (heappop (Engine.open_set st)) as [[[[f k] current] rest]|] eqn:Hpop; [|done].
    apply heappop_perm in Hpop.
    destruct (wf_open _ _ _ st Hwf (f, k, current)) as [[g Hg] Hu]; [rewrite <- Hpop; by left|].
    simpl in Hg. destruct (decide _); [done|].
    unfold getitem. simpl. rewrite Hg. simpl. by destruct (exceeds g maxCost).
  - right. exists st'. split; [done|]. split; [by eapply body_wf|].
    revert Hbody. unfold Engine.loop_body, measure, lex3.
    destruct (heappop (Engine.open_set st)) as [[[[f k] current] rest]|] eqn:Hpop; [|done].
    apply heappop_perm in Hpop.
    destruct (wf_open _ _ _ st Hwf (f, k, current)) as [[g Hg] Hu]; [rewrite <- Hpop; by left|].
    simpl in Hg, Hu. rewrite <- Hpop. simpl.
    destruct (decide (current ∈ _)) as [Hin|Hnin].
    + intros [= <-]. simpl. right. split; [done|]. left. lia.
    + assert (Hlt : size (U ∖ ({[current]} ∪ Engine.visited st))
                    < size (U ∖ Engine.visited st)).
      { apply subset_size. simpl in Hnin. clear -Hu Hnin.
        revert Hu. generalize (universe (Engine.index self) start) as X. intros X Hu.
        split; [set_solver|]. intros Hsub. specialize (Hsub current). set_solver. }
      unfold getitem. simpl. rewrite Hg. simpl.
      destruct (exceeds g maxCost); intros [= <-]; simpl; [by left|].
      left.
      assert (Hv : forall l a, Engine.visited
                     (foldl (Engine.expand_neighbor sqrt self goalPC maxCost maxETD current g)
                            a l) = Engine.visited a).
      { induction l as [|x l IH]; intros a; simpl; [done|].
        by rewrite IH, expand_neighbor_visited. }
      by rewrite Hv.
  - left. eauto.
Qed.

Lemma initial_wf h : wf (initial h).
Proof.
  constructor; simpl.
  - intros e ->%list_elem_of_singleton. simpl. rewrite lookup_singleton_eq.
    split; [eauto|]. unfold universe. set_solver.
  - set_solver.
  - intros n g [<- <-]%lookup_singleton_Some. by left.
Qed.

Lemma search_loop_converges h :
  exists st, converges
               (fun fuel => Engine.search_loop sqrt self shipment goalPC forward
                              maxCost maxETD maxHops fuel (initial h)) st.
Proof.
  destruct (while_loop_converges (fun _ => body) wf mu) with (st := initial h)
    as (f0 & r & Hrun).
  - intros st Hwf. destruct (body_progress st Hwf) as [[r Hr] | (st' & Hb & Hwf' & Hlt)].
    + left. exists r, 0. done.
    + right. exists st'. done.
  - apply initial_wf.
  - exists r, f0. intros fuel Hfuel. by apply (Hrun fuel fuel).
Qed.

Lemma search_loop_wf fuel h st :
  Engine.search_loop sqrt self shipment goalPC forward maxCost maxETD maxHops fuel (initial h)
  = Ret st -> wf st.
Proof.
  intros Hrun.
  destruct (while_loop_invariant body wf body_wf fuel (initial h) st (initial_wf h) Hrun)
    as (st' & Hwf & Hexit).
  revert Hexit. unfold Engine.loop_body.
  destruct (heappop _) as [[[[f k] current] rest]|]; [|by intros [= <-]].
  destruct (decide _); [done|]. unfold getitem. simpl.
  destruct (_ !! current); simpl; [|done]. by destruct (exceeds _ _).
Qed.

(** *** With non-negative edge costs: parent chains *)

Lemma expand_neighbor_chain current current_g st nb :
  (0 <= nb.1.1.2)%Q ->
  chain_inv start (core_of st) /\ Engine.g_score st !! current = Some current_g ->
  let st' := Engine.expand_neighbor sqrt self goalPC maxCost maxETD current current_g st nb in
  chain_inv start (core_of st') /\ Engine.g_score st' !! current = Some current_g.
Proof.
  destruct nb as [[[n c] e] i]. intros Hc [Hinv Hcur]. simpl in Hc. intros st'. subst st'.
  destruct (expand_neighbor_cases current current_g st n c e i)
    as [-> | (Himp & _ & _ & f & ->)]; [done|].
  destruct (chain_inv_relax start (core_of st) n current current_g c Hinv Hcur Hc Himp)
    as (Hinv' & Hnc & Hns).
  split.
  - unfold core_of; simpl. rewrite fmap_insert. exact Hinv'.
  - simpl. by rewrite lookup_insert_ne.
Qed.

Lemma body_chain st st' :
  nonneg -> chain_inv start (core_of st) -> body st = Ret (inl st') ->
  chain_inv start (core_of st').
Proof.
  intros Hnn Hinv. unfold Engine.loop_body.
  destruct (heappop (Engine.open_set st)) as [[[[f k] current] rest]|] eqn:Hpop; [|done].
  destruct (decide _); [by intros [= <-]|].
  unfold getitem. simpl. destruct (Engine.g_score st !! current) as [g|] eqn:Hg; [|done].
  simpl. destruct (exceeds g maxCost); [by intros [= <-]|].
  intros [= <-].
  apply (foldl_invariant _
           (fun a => chain_inv start (core_of a) /\ Engine.g_score a !! current = Some g));
    [|done].
  intros a nb Hnb Ha. apply expand_neighbor_chain; [|done]. by eapply Hnn.
Qed.

Lemma initial_chain h : chain_inv start (core_of (initial h)).
Proof.
  constructor; simpl.
  - apply lookup_singleton_eq.
  - done.
  - intros n p. by rewrite lookup_empty.
  - intros n. rewrite fmap_empty, !lookup_empty. done.
  - intros n g [<- <-]%lookup_singleton_Some. done.
  - intros n [g [<- <-]%lookup_singleton_Some]. by left.
  - intros n. by apply rooted_root.
Qed.

Lemma search_loop_chain fuel h st :
  nonneg ->
  Engine.search_loop sqrt self shipment goalPC forward maxCost maxETD maxHops fuel (initial h)
  = Ret st -> chain_inv start (core_of st).
Proof.
  intros Hnn Hrun.
  destruct (while_loop_invariant body (fun st => chain_inv start (core_of st))
              (fun st st' => body_chain st st' Hnn) fuel (initial h) st (initial_chain h) Hrun)
    as (st' & Hinv & Hexit).
  revert Hexit. unfold Engine.loop_body.
  destruct (heappop _) as [[[[f k] current] rest]|]; [|by intros [= <-]].
  destruct (decide _); [done|]. unfold getitem. simpl.
  destruct (_ !! current); simpl; [|done]. by destruct (exceeds _ _).
Qed.
End EngineSearch.

(** ** Unrolling a parent chain *)

Section Unroll.
Context (start : node) (g : gmap node Q) (p : gmap node node) (ed : gmap node Engine.EdgeData).
Hypothesis Hinv : chain_inv start (mkCore g p (Engine.ed_cost <$> ed)).

Lemma unroll_loop_converges (n : node) (gn : Q) :
  g !! n = Some gn ->
  forall nodes segs tc te,
  exists nodes' segs' tc' te',
    converges (fun fuel => Engine.unroll_loop fuel p ed (Some n) (nodes, segs, tc, te))
              (nodes', segs', tc', te')
    /\ (tc <= tc')%Q /\ (tc' <= tc + gn)%Q.
Proof.
  pose proof (ci_rooted _ _ Hinv n) as Hroot. simpl in Hroot. revert gn.
  induction Hroot as [n Hnone | n m Hp Hrm IH]; intros gn Hgn nodes segs tc te.
  - assert (Hed : ed !! n = None).
    { destruct (ed !! n) as [d|] eqn:E; [|done].
      destruct (proj1 (ci_dom _ _ Hinv n)) as [x Hx]; simpl.
      - rewrite lookup_fmap, E. eauto.
      - simpl in Hx. congruence. }
    exists (nodes ++ [n]), segs, tc, te. split.
    + exists 2. intros fuel Hfuel. destruct fuel as [|[|fuel]]; [lia..|].
      unfold Engine.unroll_loop. simpl. rewrite Hed. simpl. by rewrite Hnone.
    + pose proof (ci_nonneg _ _ Hinv n gn Hgn). lra.
  - destruct (ci_edge _ _ Hinv n m Hp) as (gn' & gp & w & Hgn' & Hgp & Hw & Hw0 & Hmono).
    simpl in *. rewrite Hgn in Hgn'. injection Hgn' as <-.
    rewrite lookup_fmap in Hw. destruct (ed !! n) as [d|] eqn:Hed; [|done].
    simpl in Hw. injection Hw as <-.
    set (seg := {| seg_fromZone := node_id m; seg_toZone := node_id n;
                   seg_cost := Engine.ed_cost d; seg_etd := Engine.ed_etd d;
                   seg_type := Some (Engine.info_type (Engine.ed_route d));
                   seg_service := Some (Engine.info_service (Engine.ed_route d));
                   seg_providerId :=
                     match Engine.ed_route d with
                     | Engine.InfoZoneRoute _ route => Some (ProviderZoneRoute.providerId route)
                     | _ => None
                     end |}).
    destruct (IH gp Hgp (nodes ++ [n]) (segs ++ [seg]) (tc + Engine.ed_cost d)%Q
                (te + Engine.ed_etd d)%Q)
      as (nodes' & segs' & tc' & te' & [f0 Hconv] & Hlo & Hhi).
    exists nodes', segs', tc', te'. split; [|split; lra].
    exists (S f0). intros fuel Hfuel. destruct fuel as [|fuel]; [lia|].
    unfold Engine.unroll_loop. simpl. rewrite Hed. unfold getitem. rewrite Hp. simpl.
    apply Hconv. lia.
Qed.
End Unroll.

(** ** Stable sort *)

Section StableSortFacts.
Context {A : Type} (leb : A -> A -> bool).

Lemma sort_insert_perm (x : A) (l : list A) : sort_insert leb x l ≡ₚ x :: l.
Proof.
  induction l as [|y l IH]; simpl; [done|].
  destruct (leb x y); [done|]. rewrite IH. apply Permutation_swap.
Qed.

Lemma stable_sort_perm (l : list A) : stable_sort leb l ≡ₚ l.
Proof.
  induction l as [|x l IH]; simpl; [done|].
  unfold stable_sort in *. simpl. by rewrite sort_insert_perm, IH.
Qed.

Lemma stable_sort_length (l : list A) : length (stable_sort leb l) = length l.
Proof. by rewrite stable_sort_perm. Qed.

Hypothesis leb_total : forall x y, leb x y = false -> leb y x = true.
Hypothesis leb_trans : forall x y z, leb x y = true -> leb y z = true -> leb x z = true.

Lemma sort_insert_sorted (x : A) (l : list A) :
  StronglySorted (fun a b => leb a b = true) l ->
  StronglySorted (fun a b => leb a b = true) (sort_insert leb x l).
Proof.
  induction 1 as [|y l Hs IH Hall]; simpl.
  - repeat constructor.
  - destruct (leb x y) eqn:E.
    + constructor; [by constructor|]. constructor; [done|].
      eapply Forall_impl; [exact Hall|]. intros z Hz. by eapply leb_trans.
    + constructor; [done|].
      rewrite sort_insert_perm. constructor; [by apply leb_total | done].
Qed.

Lemma stable_sort_sorted (l : list A) :
  StronglySorted (fun a b => leb a b = true) (stable_sort leb l).
Proof.
  induction l as [|x l IH]; [constructor|].
  unfold stable_sort in *. simpl. by apply sort_insert_sorted.
Qed.
End StableSortFacts.

Lemma StronglySorted_take {A} (R : A -> A -> Prop) (k : nat) (l : list A) :
  StronglySorted R l -> StronglySorted R (take k l).
Proof.
  intros Hs. revert k. induction Hs as [|x l Hs IH Hall]; intros [|k]; simpl; try constructor.
  - apply IH.
  - eapply Forall_forall. intros y Hy. eapply Forall_forall in Hall; [done|].
    by eapply subseteq_take.
Qed.

Lemma slice_to_sorted {A} (R : A -> A -> Prop) (k : Z) (l : list A) :
  StronglySorted R l -> StronglySorted R (slice_to l k).
Proof. unfold slice_to. destruct (0 <=? k)%Z; apply StronglySorted_take. Qed.

Lemma slice_to_length {A} (k : Z) (l : list A) :
  (0 <= k)%Z -> length (slice_to l k) = Z.to_nat k `min` length l.
Proof.
  intros Hk. unfold slice_to. destruct (Z.leb_spec 0 k); [|lia]. apply length_take.
Qed.

(** ** find_mltihop_path of the bidirectional engine *)

Section EngineFind.
Context (sqrt : Q -> Q) (self : Engine.t) (shipment : Shipment.t)
        (maxCost maxETD : efloat) (maxHops : Z).

Lemma astar_search_converges (startPC goalPC : string) (forward : bool) :
  exists res,
    converges (fun fuel => Engine._astar_search sqrt fuel self shipment startPC goalPC
                             forward maxCost maxETD maxHops) res.
Proof.
  destruct (search_loop_converges sqrt self shipment goalPC forward maxCost maxETD maxHops
              (Pc, startPC, None) (Engine._heuristic sqrt self startPC goalPC))
    as (st & f0 & Hrun).
  eexists. exists f0. intros fuel Hfuel. unfold Engine._astar_search.
  rewrite (Hrun fuel Hfuel). reflexivity.
Qed.

Lemma astar_search_inv (fuel : nat) (startPC goalPC : string) (forward : bool)
    (res : Engine.SearchResult) :
  Engine._astar_search sqrt fuel self shipment startPC goalPC forward maxCost maxETD maxHops
  = Ret res ->
  cost_bounded maxCost (Pc, startPC, None) res
  /\ (nonneg_costs self shipment forward maxHops ->
      chain_inv (Pc, startPC, None) (result_core res)).
Proof.
  unfold Engine._astar_search.
  destruct (Engine.search_loop _ _ _ _ _ _ _ _ _ _) as [| e | st] eqn:Hrun; try done.
  simpl. intros [= <-]. split.
  - intros n g Hg.
    exact (wf_bound _ _ _ _ (search_loop_wf _ _ _ _ _ _ _ _ _ _ _ _ Hrun) n g Hg).
  - intros Hnn. apply (search_loop_chain _ _ _ _ _ _ _ _ _ _ _ _ Hnn Hrun).
Qed.

Context (forward backward : Engine.SearchResult).

Lemma merge_at_converges (ostart dstart : node) (paths : list MultiHopPath.t) (meet : node) :
  chain_inv ostart (result_core forward) ->
  chain_inv dstart (result_core backward) ->
  meet ∈ dom (Engine.cost forward) -> meet ∈ dom (Engine.cost backward) ->
  Forall (merged_path forward backward) paths ->
  exists paths',
    converges (fun fuel => Engine.merge_at fuel shipment forward backward paths meet) paths'
    /\ Forall (merged_path forward backward) paths'.
Proof.
  intros Hf Hb [gf Hgf]%elem_of_dom [gb Hgb]%elem_of_dom Hall.
  unfold Engine.merge_at. destruct (node_type meet) eqn:Hty.
  2:{ exists paths. split; [apply converges_ret | done]. }
  destruct (unroll_loop_converges _ _ _ _ Hf meet gf Hgf [] [] 0%Q 0%Q)
    as (fn & fs & fc & fe & Hfconv & Hflo & Hfhi).
  destruct (unroll_loop_converges _ _ _ _ Hb meet gb Hgb [] [] 0%Q 0%Q)
    as (bn & bs & bc & be & Hbconv & Hblo & Hbhi).
  eexists. split.
  - apply (converges_bind _
             (fun x fuel =>
                let '(f_nodes, f_segs, f_cost, f_etd) := x in
                '(b_nodes, b_segs, b_cost, b_etd) ←
                  Engine._unroll_path fuel meet (Engine.parent backward) (Engine.edge backward);
                Ret (paths ++ [_])) _ _ Hfconv).
    apply (converges_bind _
             (fun x fuel => let '(b_nodes, b_segs, b_cost, b_etd) := x in Ret (paths ++ [_]))
             _ _ Hbconv).
    apply converges_ret.
  - apply Forall_app. split; [done|]. apply Forall_singleton.
    exists meet, gf, gb, (fc + bc)%Q, (fe + be)%Q. simpl. repeat split; try done; lra.
Qed.

Lemma merge_paths_converges (ostart dstart : node) :
  chain_inv ostart (result_core forward) ->
  chain_inv dstart (result_core backward) ->
  exists paths,
    converges (fun fuel => Engine._merge_paths fuel self shipment forward backward) paths
    /\ paths <> []
    /\ (paths = [Engine.create_default_path self shipment] \/ Forall (merged_path forward backward) paths).
Proof.
  intros Hf Hb. unfold Engine._merge_paths.
  destruct (converges_ofoldl
              (fun fuel => Engine.merge_at fuel shipment forward backward)
              (Forall (merged_path forward backward))
              (elements (dom (Engine.cost forward) ∩ dom (Engine.cost backward))))
    with (a := @nil MultiHopPath.t) as (paths & Hconv & Hall).
  - intros a x Hx Ha. apply elem_of_elements, elem_of_intersection in Hx as [Hxf Hxb].
    by eapply merge_at_converges.
  - constructor.
  - destruct paths as [|p paths].
    + exists [Engine.create_default_path self shipment]. split; [|split; [done | by left]].
      apply (converges_bind _ (fun x _ => match x with [] => _ | _ => _ end) _ _ Hconv).
      apply converges_ret.
    + exists (p :: paths). split; [|split; [done | by right]].
      apply (converges_bind _ (fun x _ => match x with [] => _ | _ => _ end) _ _ Hconv).
      apply converges_ret.
Qed.

(** No meeting postcode: the fold visits no postcode vertex and unrolls
    nothing, whatever the costs. *)
Lemma merge_paths_no_meeting (fuel : nat) :
  (forall n, n ∈ dom (Engine.cost forward) -> n ∈ dom (Engine.cost backward) ->
             node_type n <> Pc) ->
  Engine._merge_paths fuel self shipment forward backward
  = Ret [Engine.create_default_path self shipment].
Proof.
  intros Hno. unfold Engine._merge_paths.
  assert (Hfold : forall l, (forall n, n ∈ l -> node_type n <> Pc) ->
            ofoldl (Engine.merge_at fuel shipment forward backward) [] l = Ret []).
  { induction l as [|n l IH]; intros Hl; simpl; [done|].
    assert (Hn : Engine.merge_at fuel shipment forward backward [] n = Ret []).
    { unfold Engine.merge_at. destruct (node_type n) eqn:Hty; [|done].
      exfalso. eapply Hl; [by left | done]. }
    rewrite Hn. simpl. apply IH. intros m Hm. apply Hl. by right. }
  rewrite Hfold; [done|].
  intros n [Hf Hb]%elem_of_elements%elem_of_intersection. by apply Hno.
Qed.
End EngineFind.

Lemma route_costs_nonneg_neighbors (self : Engine.t) (shipment : Shipment.t)
    (forward : bool) (maxHops : Z) :
  route_costs_nonneg (Engine.index self) (Shipment.weightKG shipment) ->
  nonneg_costs self shipment forward maxHops.
Proof.
  intros Hnn [[ty id] prov] nb. unfold Engine._get_neighbors. destruct ty.
  - intros ([p z] & -> & _)%list_elem_of_fmap. done.
  - rewrite elem_of_app. intros [Hin | (c & -> & _)%list_elem_of_fmap]; [|done].
    destruct forward.
    + apply list_elem_of_fmap in Hin as (r & -> & Hin). simpl.
      destruct prov as [p|]; simpl in Hin; [|by apply not_elem_of_nil in Hin].
      apply lookup_default_elem in Hin as (l & Hl & Hin). eapply Hnn; eauto.
    + apply list_elem_of_fmap in Hin as (r & -> & Hin). simpl.
      destruct prov as [p|]; simpl in Hin; [|by apply not_elem_of_nil in Hin].
      apply lookup_default_elem in Hin as (l & Hl & Hin). eapply Hnn; eauto.
Qed.

Lemma slice_to_nonempty {A} (k : Z) (l : list A) :
  (1 <= k)%Z -> l <> [] -> slice_to l k <> [].
Proof.
  intros Hk Hl Hnil. apply (f_equal length) in Hnil.
  rewrite slice_to_length in Hnil by lia. destruct l; [done|]. simpl in Hnil. lia.
Qed.

Lemma slice_to_singleton {A} (k : Z) (x : A) : (1 <= k)%Z -> slice_to [x] k = [x].
Proof.
  intros Hk. unfold slice_to. destruct (Z.leb_spec 0 k); [|lia].
  apply take_ge. simpl. lia.
Qed.

Lemma stable_sort_nonempty {A} (leb : A -> A -> bool) (l : list A) :
  l <> [] -> stable_sort leb l <> [].
Proof.
  intros Hl Hnil. apply (f_equal length) in Hnil.
  rewrite stable_sort_length in Hnil. by destruct l.
Qed.

Section EngineFindConverges.
Context (sqrt : Q -> Q) (self : Engine.t) (shipment : Shipment.t)
        (maxCost maxETD : efloat) (maxHops : Z) (topK : Z).

Local Abbreviation search_forward :=
  (fun fuel => Engine._astar_search sqrt fuel self shipment (Shipment.originPC shipment)
                 (Shipment.destPC shipment) true maxCost maxETD maxHops).
Local Abbreviation search_backward :=
  (fun fuel => Engine._astar_search sqrt fuel self shipment (Shipment.destPC shipment)
                 (Shipment.originPC shipment) false maxCost maxETD maxHops).

Lemma find_unfold (fuel : nat) :
  Shipment.originPC shipment ∈ dom (Engine.postcodes self) ->
  Shipment.destPC shipment ∈ dom (Engine.postcodes self) ->
  Engine.find_mltihop_path sqrt fuel self shipment maxCost maxETD maxHops topK
  = (forward_paths ←
       Engine._astar_search sqrt fuel self shipment (Shipment.originPC shipment)
         (Shipment.destPC shipment) true maxCost maxETD maxHops;
     backward_paths ←
       Engine._astar_search sqrt fuel self shipment (Shipment.destPC shipment)
         (Shipment.originPC shipment) false maxCost maxETD maxHops;
     all_paths ← Engine._merge_paths fuel self shipment forward_paths backward_paths;
     Ret (slice_to (stable_sort Engine.cost_leb all_paths) topK)).
Proof.
  intros Ho Hd. unfold Engine.find_mltihop_path.
  destruct (decide _); [|done]. destruct (decide _); [|done]. done.
Qed.

(** The searches of both directions end whatever the costs; without a
    meeting postcode the fallback is the answer, and with non-negative
    costs every meeting vertex unrolls to a path. *)
Lemma Engine_find_converges :
  Shipment.originPC shipment ∈ dom (Engine.postcodes self) ->
  Shipment.destPC shipment ∈ dom (Engine.postcodes self) ->
  (1 <= topK)%Z ->
  exists forward backward,
    converges search_forward forward
    /\ converges search_backward backward
    /\ ((forall n, n ∈ dom (Engine.cost forward) -> n ∈ dom (Engine.cost backward) ->
                   node_type n <> Pc) ->
        converges (fun fuel => Engine.find_mltihop_path sqrt fuel self shipment
                                 maxCost maxETD maxHops topK)
                  [Engine.create_default_path self shipment])
    /\ (route_costs_nonneg (Engine.index self) (Shipment.weightKG shipment) ->
        exists merged paths,
          converges (fun fuel => Engine._merge_paths fuel self shipment forward backward) merged
          /\ converges (fun fuel => Engine.find_mltihop_path sqrt fuel self shipment
                                      maxCost maxETD maxHops topK) paths
          /\ paths = slice_to (stable_sort Engine.cost_leb merged) topK
          /\ paths <> []
          /\ (merged = [Engine.create_default_path self shipment]
              \/ Forall (merged_path forward backward) merged)).
Proof.
  intros Ho Hd Hk.
  destruct (astar_search_converges sqrt self shipment maxCost maxETD maxHops
              (Shipment.originPC shipment) (Shipment.destPC shipment) true) as [fwd Hfwd].
  destruct (astar_search_converges sqrt self shipment maxCost maxETD maxHops
              (Shipment.destPC shipment) (Shipment.originPC shipment) false) as [bwd Hbwd].
  exists fwd, bwd. split; [done|]. split; [done|]. split.
  - intros Hno. destruct Hfwd as [f1 Hf1], Hbwd as [f2 Hf2].
    exists (f1 `max` f2). intros fuel Hfuel.
    rewrite find_unfold by done. rewrite Hf1, Hf2 by lia. simpl.
    rewrite (merge_paths_no_meeting self shipment fwd bwd fuel Hno). simpl.
    unfold stable_sort. simpl. by rewrite slice_to_singleton.
  - intros Hnn.
    destruct Hfwd as [f1 Hf1], Hbwd as [f2 Hf2].
    destruct (astar_search_inv sqrt self shipment maxCost maxETD maxHops f1 _ _ _ fwd
                (Hf1 f1 (le_n _))) as [_ Hcf].
    destruct (astar_search_inv sqrt self shipment maxCost maxETD maxHops f2 _ _ _ bwd
                (Hf2 f2 (le_n _))) as [_ Hcb].
    destruct (merge_paths_converges self shipment fwd bwd _ _
                (Hcf (route_costs_nonneg_neighbors _ _ _ _ Hnn))
                (Hcb (route_costs_nonneg_neighbors _ _ _ _ Hnn)))
      as (merged & [f3 Hf3] & Hne & Hmerged).
    exists merged, (slice_to (stable_sort Engine.cost_leb merged) topK).
    split; [by exists f3|]. split; [|split; [done|split; [|done]]].
    + exists ((f1 `max` f2) `max` f3). intros fuel Hfuel.
      rewrite find_unfold by done. rewrite Hf1, Hf2 by lia. simpl.
      rewrite Hf3 by lia. done.
    + by apply slice_to_nonempty, stable_sort_nonempty.
Qed.
End EngineFindConverges.

(** ** Costs on a common denominator *)

Lemma integral_0 (D : positive) : integral D 0.
Proof. exists 0%Z. reflexivity. Qed.

Lemma integral_plus (D : positive) (a b : Q) :
  integral D a -> integral D b -> integral D (a + b).
Proof.
  intros [x Hx] [y Hy]. exists (x + y)%Z. rewrite Hx, Hy.
  unfold Qeq, Qplus. simpl. nia.
Qed.

Lemma integral_common_den (costs : list Q) (q : Q) :
  q ∈ costs -> integral (common_den costs) q.
Proof.
  induction costs as [|c costs IH]; [by intros ?%not_elem_of_nil|].
  intros [-> | Hq]%elem_of_cons; simpl.
  - exists (Qnum c * Zpos (common_den costs))%Z. unfold Qeq. simpl. nia.
  - destruct (IH Hq) as [z Hz]. exists (z * Zpos (Qden c))%Z.
    rewrite Hz. unfold Qeq. simpl. nia.
Qed.

Lemma scaled_integral (D : positive) (q : Q) (z : Z) :
  (q == z # D)%Q -> scaled D q = Z.to_nat z.
Proof.
  intros Hq. unfold scaled. f_equal.
  assert (Hz : (q * inject_Z (Z.pos D) == inject_Z z)%Q).
  { rewrite Hq. unfold Qeq, Qmult, inject_Z. simpl. nia. }
  rewrite Hz. apply Qfloor_Z.
Qed.

Lemma scaled_lt (D : positive) (a b : Q) :
  integral D a -> integral D b -> (0 <= a)%Q -> (a < b)%Q -> scaled D a < scaled D b.
Proof.
  intros [x Hx] [y Hy] Ha Hab.
  rewrite (scaled_integral D a x Hx), (scaled_integral D b y Hy).
  rewrite Hx in Ha, Hab. rewrite Hy in Hab.
  unfold Qle, Qlt in *. simpl in *. nia.
Qed.

Lemma potential_insert_lt (D : positive) (U : list node) (g : gmap node Q) (n : node)
    (old new : Q) :
  n ∈ U -> g !! n = Some old -> scaled D new < scaled D old ->
  potential D U (<[n := new]> g) < potential D U g.
Proof.
  intros Hn Hold Hlt. unfold potential.
  assert (Hle : forall l,
            sum_list_with (fun m => match <[n := new]> g !! m with
                                    | Some q => scaled D q | None => 0 end) l
            <= sum_list_with (fun m => match g !! m with
                                       | Some q => scaled D q | None => 0 end) l).
  { induction l as [|m l IH]; simpl; [done|].
    destruct (decide (n = m)) as [->|Hne].
    - rewrite lookup_insert_eq, Hold. lia.
    - rewrite lookup_insert_ne by done. lia. }
  induction U as [|m U IH]; [by apply not_elem_of_nil in Hn|].
  simpl. apply elem_of_cons in Hn as [<- | Hn].
  - rewrite lookup_insert_eq, Hold. specialize (Hle U). lia.
  - specialize (IH Hn). destruct (decide (n = m)) as [->|Hne].
    + rewrite lookup_insert_eq, Hold. lia.
    + rewrite lookup_insert_ne by done. lia.
Qed.

(** ** The search of the forward engine *)

Lemma ofoldl_invariant {A B} (f : A -> B -> outcome A) (P : A -> Prop) (l : list B) :
  (forall a x, x ∈ l -> P a -> exists a', f a x = Ret a' /\ P a') ->
  forall a, P a -> exists a', ofoldl f a l = Ret a' /\ P a'.
Proof.
  induction l as [|x l IH]; intros Hstep a Ha; simpl; [eauto|].
  destruct (Hstep a x) as (a1 & Hf & Ha1); [by left | done |].
  rewrite Hf. simpl. apply IH; [|done].
  intros a' y Hy. apply Hstep. by right.
Qed.

Lemma EngineNew_neighbors_in_index (self : EngineNew.t) (n : node) (s : Shipment.t)
    (nb : EngineNew.neighbor) :
  nb ∈ EngineNew._get_forward_neighbors self n s ->
  nb.1.1.1 ∈ index_nodes (EngineNew.index self).
Proof.
  destruct n as [[ty id] prov]. unfold EngineNew._get_forward_neighbors, index_nodes.
  rewrite !elem_of_app, !list_elem_of_bind.
  destruct ty.
  - intros Hin. apply list_elem_of_fmap in Hin as ([p z] & -> & Hin).
    apply lookup_default_elem in Hin as (l & Hl & Hin). left.
    exists (id, l). split; [|by apply elem_of_map_to_list].
    apply list_elem_of_fmap. by exists (p, z).
  - rewrite elem_of_app. intros [Hin | Hin].
    + apply list_elem_of_fmap in Hin as (r & -> & Hin).
      destruct prov as [p|]; simpl in Hin; [|by apply not_elem_of_nil in Hin].
      apply lookup_default_elem in Hin as (l & Hl & Hin). right; left.
      exists ((p, id), l). split; [|by apply elem_of_map_to_list].
      apply list_elem_of_fmap. by exists r.
    + apply list_elem_of_fmap in Hin as (c & -> & Hin).
      destruct prov as [p|]; simpl in Hin; [|by apply not_elem_of_nil in Hin].
      apply lookup_default_elem in Hin as (l & Hl & Hin). right; right; right.
      exists ((p, id), l). split; [|by apply elem_of_map_to_list].
      apply list_elem_of_fmap. by exists c.
Qed.

Lemma EngineNew_neighbor_cost (self : EngineNew.t) (n : node) (s : Shipment.t)
    (nb : EngineNew.neighbor) :
  nb ∈ EngineNew._get_forward_neighbors self n s ->
  nb.1.1.2 = 0%Q
  \/ nb.1.1.2 ∈ route_costs (EngineNew.index self) (Shipment.weightKG s)
     /\ exists k l r, GraphIndex._zoneAdj (EngineNew.index self) !! k = Some l /\ r ∈ l
                      /\ nb.1.1.2 = ProviderZoneRoute.calculateCost r (Shipment.weightKG s).
Proof.
  destruct n as [[ty id] prov]. unfold EngineNew._get_forward_neighbors.
  destruct ty.
  - intros ([p z] & -> & _)%list_elem_of_fmap. by left.
  - rewrite elem_of_app. intros [Hin | (c & -> & _)%list_elem_of_fmap]; [|by left].
    apply list_elem_of_fmap in Hin as (r & -> & Hin). simpl.
    destruct prov as [p|]; simpl in Hin; [|by apply not_elem_of_nil in Hin].
    apply lookup_default_elem in Hin as (l & Hl & Hin). right. split.
    + unfold route_costs. apply list_elem_of_bind. exists ((p, id), l).
      split; [|by apply elem_of_map_to_list]. apply list_elem_of_fmap. by exists r.
    + by exists (p, id), l, r.
Qed.

Section EngineNewSearch.
Context (sqrt : Q -> Q) (self : EngineNew.t) (shipment : Shipment.t)
        (maxCost : efloat) (start : node).
Hypothesis Hnonneg :
  route_costs_nonneg (EngineNew.index self) (Shipment.weightKG shipment).

Local Abbreviation D :=
  (common_den (route_costs (EngineNew.index self) (Shipment.weightKG shipment))).
Local Abbreviation U := (universe (EngineNew.index self) start).
Local Abbreviation inv := (search_invN D U start).
Local Abbreviation mu := (measureN D U).

Local Abbreviation lex2 := (lex2N D U).

Lemma improvableN_iff (g : gmap node Q) (n : node) (x : Q) :
  EngineNew.improves g n x = true <-> improvable g n x.
Proof.
  unfold EngineNew.improves, improvable. destruct (g !! n); [|done]. apply Qgtb_true.
Qed.

Lemma expand_neighborN_step (current : node) (current_g : Q) (st : EngineNew.SearchState)
    (nb : EngineNew.neighbor) :
  nb ∈ EngineNew._get_forward_neighbors self current shipment ->
  inv st -> EngineNew.g_score st !! current = Some current_g ->
  exists st',
    EngineNew.expand_neighbor sqrt self shipment maxCost current st nb = Ret st'
    /\ inv st' /\ EngineNew.g_score st' !! current = Some current_g
    /\ (st' = st \/ lex2 st' st).
Proof.
  intros Hnb Hinv Hcur.
  pose proof (EngineNew_neighbors_in_index _ _ _ _ Hnb) as Hidx.
  pose proof (EngineNew_neighbor_cost _ _ _ _ Hnb) as Hcost.
  destruct nb as [[[n c] e] i]. simpl in Hidx, Hcost.
  assert (Hc0 : (0 <= c)%Q).
  { destruct Hcost as [-> | (_ & k & l & r & Hl & Hr & ->)]; [done|]. eapply Hnonneg; eauto. }
  assert (Hcint : integral D c).
  { destruct Hcost as [-> | (Hin & _)]; [apply integral_0 | by apply integral_common_den]. }
  unfold EngineNew.expand_neighbor, getitem. rewrite Hcur. simpl.
  destruct (exceeds (current_g + c) maxCost); [by eauto 10|].
  destruct (EngineNew.improves _ _ _) eqn:Himp; [|by eauto 10].
  apply improvableN_iff in Himp.
  destruct (chain_inv_relax start (core_ofN st) n current current_g c
              (in_chain _ _ _ _ Hinv) Hcur Hc0 Himp) as (Hchain & Hnc & Hns).
  assert (HnU : n ∈ U).
  { unfold universe. apply elem_of_union_r. by apply elem_of_list_to_set. }
  assert (Hgint : integral D (current_g + c)).
  { apply integral_plus; [|done]. by eapply in_integral. }
  eexists. split; [done|]. split; [|split].
  - constructor; simpl.
    + unfold core_ofN; simpl. rewrite fmap_insert. exact Hchain.
    + intros x [-> | Hx]%elem_of_cons; simpl.
      * rewrite lookup_insert_eq. eauto.
      * destruct (decide (n = x.2)) as [->|Hne].
        -- rewrite lookup_insert_eq. eauto.
        -- rewrite lookup_insert_ne by done. by eapply in_open.
    + rewrite dom_insert_L. pose proof (in_dom _ _ _ _ Hinv). set_solver.
    + intros m g. destruct (decide (n = m)) as [->|Hne].
      * rewrite lookup_insert_eq. by intros [= <-].
      * rewrite lookup_insert_ne by done. by eapply in_integral.
  - simpl. by rewrite lookup_insert_ne.
  - right. unfold lex2N, measureN. simpl.
    destruct (EngineNew.g_score st !! n) as [old|] eqn:Hold.
    + right. split.
      * f_equal. rewrite dom_insert_L.
        assert (n ∈ dom (EngineNew.g_score st)) by (apply elem_of_dom; eauto).
        f_equal. set_solver.
      * apply (potential_insert_lt D _ _ n old); [by apply elem_of_elements | done |].
        unfold improvable in Himp. rewrite Hold in Himp.
        apply scaled_lt; [done | by eapply in_integral | | done].
        pose proof (ci_nonneg _ _ (in_chain _ _ _ _ Hinv) current current_g Hcur). lra.
    + left. apply subset_size. rewrite dom_insert_L.
      assert (n ∉ dom (EngineNew.g_score st)) by (by apply not_elem_of_dom).
      clear -HnU H. split; [set_solver|]. intros Hsub. specialize (Hsub n). set_solver.
Qed.

Lemma lex2_trans (a b c : EngineNew.SearchState) : lex2 a b -> lex2 b c -> lex2 a c.
Proof. unfold lex2N. lia. Qed.

Lemma reconstruct_loop_converges (g : gmap node Q) (cf : gmap node node)
    (ed : gmap node EngineNew.EdgeData) (n : node)
    (acc : list node * list Segment * Q * Q * list string) :
  chain_inv start (mkCore g cf (EngineNew.ed_cost <$> ed)) ->
  exists res, converges (fun fuel => EngineNew.reconstruct_loop fuel cf ed n acc) res.
Proof.
  intros Hinv. pose proof (ci_rooted _ _ Hinv n) as Hroot. simpl in Hroot. revert acc.
  induction Hroot as [n Hnone | n m Hp Hrm IH]; intros acc.
  - exists (n, acc), 1. intros fuel Hfuel. destruct fuel as [|fuel]; [lia|].
    unfold EngineNew.reconstruct_loop. simpl. by rewrite Hnone.
  - destruct (proj2 (ci_dom _ _ Hinv n)) as [w Hw]; [simpl; eauto|].
    simpl in Hw. rewrite lookup_fmap in Hw.
    destruct (ed !! n) as [d|] eqn:Hed; [|done].
    destruct (EngineNew.reconstruct_step ed n acc) as [| e | acc'] eqn:Hstep.
    + exfalso. revert Hstep. unfold EngineNew.reconstruct_step, getitem.
      destruct acc as [[[[? ?] ?] ?] ?]. rewrite Hed. simpl.
      by destruct (EngineNew.ed_info d).
    + exfalso. revert Hstep. unfold EngineNew.reconstruct_step, getitem.
      destruct acc as [[[[? ?] ?] ?] ?]. rewrite Hed. simpl.
      by destruct (EngineNew.ed_info d).
    + destruct (IH acc') as (res & f0 & Hconv).
      exists res, (S f0). intros fuel Hfuel. destruct fuel as [|fuel]; [lia|].
      unfold EngineNew.reconstruct_loop. simpl. rewrite Hp, Hstep. simpl.
      apply Hconv. lia.
Qed.

Lemma reconstruct_path_converges (g : gmap node Q) (cf : gmap node node)
    (ed : gmap node EngineNew.EdgeData) (n : node) :
  chain_inv start (mkCore g cf (EngineNew.ed_cost <$> ed)) ->
  exists path,
    converges (fun fuel => EngineNew._reconstruct_path fuel self n cf ed shipment) path.
Proof.
  intros Hinv.
  destruct (reconstruct_loop_converges g cf ed n ([], [], 0%Q, 0%Q, []) Hinv)
    as ([cur [[[[nodes segs] tc] te] provs]] & f0 & Hconv).
  eexists. exists f0. intros fuel Hfuel. unfold EngineNew._reconstruct_path.
  rewrite Hconv by done. reflexivity.
Qed.

Lemma bodyN_unfold (fuel : nat) (st : EngineNew.SearchState) (f : Q) (k : nat)
    (current : node) (rest : list entry) (g : Q) :
  heappop (EngineNew.open_set st) = Some (f, k, current, rest) ->
  ~ (node_type current = Pc /\ node_id current = Shipment.destPC shipment) ->
  EngineNew.g_score st !! current = Some g ->
  EngineNew.loop_body sqrt fuel self shipment maxCost st
  = if exceeds g maxCost then Ret (inl (EngineNew.set_open st rest))
    else st' ← ofoldl (EngineNew.expand_neighbor sqrt self shipment maxCost current)
                 (EngineNew.set_open st rest)
                 (EngineNew._get_forward_neighbors self current shipment);
         Ret (inl st').
Proof.
  intros Hpop Hgoal Hg. unfold EngineNew.loop_body. rewrite Hpop.
  destruct current as [[ty id] prov]. unfold node_type, node_id in Hgoal. simpl in Hgoal.
  destruct (decide _); [done|]. unfold getitem.
  change (EngineNew.g_score (EngineNew.set_open st rest)) with (EngineNew.g_score st).
  rewrite Hg. reflexivity.
Qed.

Lemma bodyN_progress (st : EngineNew.SearchState) :
  inv st ->
  (exists r, converges (fun fuel => EngineNew.loop_body sqrt fuel self shipment maxCost st) (inr r))
  \/ (exists st', (forall fuel, EngineNew.loop_body sqrt fuel self shipment maxCost st
                                = Ret (inl st'))
                  /\ inv st' /\ lex3 (mu st') (mu st)).
Proof.
  intros Hinv.
  destruct (heappop (EngineNew.open_set st)) as [[[[f k] current] rest]|] eqn:Hpop.
  2:{ left. exists None, 0. intros fuel _. unfold EngineNew.loop_body. by rewrite Hpop. }
  pose proof (heappop_perm _ _ _ Hpop) as Hperm.
  assert (Hrest : inv (EngineNew.set_open st rest)).
  { constructor; simpl; [apply Hinv | | apply Hinv..].
    intros e He. apply (in_open _ _ _ _ Hinv). rewrite <- Hperm. by right. }
  destruct (in_open _ _ _ _ Hinv (f, k, current)) as [g Hg]; [rewrite <- Hperm; by left|].
  simpl in Hg.
  destruct (decide (node_type current = Pc /\ node_id current = Shipment.destPC shipment))
    as [Hgoal|Hgoal].
  - left. destruct current as [[ty id] prov]. unfold node_type, node_id in Hgoal.
    simpl in Hgoal.
    destruct (reconstruct_path_converges (EngineNew.g_score st) (EngineNew.came_from st)
                (EngineNew.edge_data st) (ty, id, prov) (in_chain _ _ _ _ Hinv))
      as (path & f0 & Hconv).
    exists (Some path), f0. intros fuel Hfuel. unfold EngineNew.loop_body. rewrite Hpop.
    destruct (decide _); [|done]. simpl. by rewrite Hconv.
  - right.
    assert (Hbody := fun fuel => bodyN_unfold fuel st f k current rest g Hpop Hgoal Hg).
    revert Hbody. destruct (exceeds g maxCost); intros Hbody.
    + exists (EngineNew.set_open st rest). split; [done|]. split; [done|].
      unfold lex3, measureN. simpl. right. split; [done|]. right. split; [done|].
      rewrite <- Hperm. simpl. lia.
    + destruct (ofoldl_invariant
                  (EngineNew.expand_neighbor sqrt self shipment maxCost current)
                  (fun a => inv a /\ EngineNew.g_score a !! current = Some g
                            /\ (a = EngineNew.set_open st rest
                                \/ lex2 a (EngineNew.set_open st rest)))
                  (EngineNew._get_forward_neighbors self current shipment))
        with (a := EngineNew.set_open st rest) as (st' & Hfold & Hinv' & _ & Hprog).
      * intros a nb Hnb (Ha & Hcur & Hprog).
        destruct (expand_neighborN_step current g a nb Hnb Ha Hcur)
          as (a' & Hexp & Ha' & Hcur' & Hstep).
        exists a'. split; [done|]. split; [done|]. split; [done|].
        destruct Hstep as [-> | Hlt]; [done|]. right.
        destruct Hprog as [-> | Hlt0]; [done|]. by eapply lex2_trans.
      * split; [done|]. split; [done|]. by left.
      * exists st'. split; [intros fuel; by rewrite Hbody, Hfold|]. split; [done|].
        destruct Hprog as [-> | Hlt].
        -- unfold lex3, measureN. simpl. right. split; [done|]. right. split; [done|].
           rewrite <- Hperm. simpl. lia.
        -- unfold lex2N, measureN in Hlt. unfold lex3, measureN. simpl in *. lia.
Qed.

Lemma initialN_inv (h : Q) :
  inv {| EngineNew.open_set := heappush [] (h, 0, start);
         EngineNew.counter := 0;
         EngineNew.came_from := ∅;
         EngineNew.g_score := {[ start := 0%Q ]};
         EngineNew.edge_data := ∅ |}.
Proof.
  constructor; simpl.
  - constructor; simpl.
    + apply lookup_singleton_eq.
    + done.
    + intros n p. by rewrite lookup_empty.
    + intros n. rewrite fmap_empty, !lookup_empty. done.
    + intros n g [<- <-]%lookup_singleton_Some. done.
    + intros n [g [<- <-]%lookup_singleton_Some]. by left.
    + intros n. by apply rooted_root.
  - intros e ->%list_elem_of_singleton. simpl. rewrite lookup_singleton_eq. eauto.
  - rewrite dom_singleton_L. unfold universe. set_solver.
  - intros n g [<- <-]%lookup_singleton_Some. apply integral_0.
Qed.

Lemma search_loopN_converges (h : Q) :
  exists found,
    converges (fun fuel => EngineNew.search_loop sqrt self shipment maxCost fuel
                 {| EngineNew.open_set := heappush [] (h, 0, start);
                    EngineNew.counter := 0;
                    EngineNew.came_from := ∅;
                    EngineNew.g_score := {[ start := 0%Q ]};
                    EngineNew.edge_data := ∅ |}) found.
Proof.
  destruct (while_loop_converges
              (fun fuel => EngineNew.loop_body sqrt fuel self shipment maxCost)
              inv mu bodyN_progress _ (initialN_inv h)) as (f0 & r & Hrun).
  exists r, f0. intros fuel Hfuel. by apply (Hrun fuel fuel).
Qed.
End EngineNewSearch.

(** With non-negative route costs the forward engine ends: it hands back
    the path it found, or the fallback when the queue ran empty. *)
Lemma EngineNew_find_converges (sqrt : Q -> Q) (self : EngineNew.t) (shipment : Shipment.t)
    (maxCost maxETD : efloat) (maxHops topK : Z) :
  Shipment.originPC shipment ∈ dom (EngineNew.postcodes self) ->
  Shipment.destPC shipment ∈ dom (EngineNew.postcodes self) ->
  route_costs_nonneg (EngineNew.index self) (Shipment.weightKG shipment) ->
  exists found,
    converges
      (fun fuel => EngineNew.search_loop sqrt self shipment maxCost fuel
                     (initial_stateN sqrt self shipment)) found
    /\ converges
         (fun fuel => EngineNew.find_mltihop_path sqrt fuel self shipment
                        maxCost maxETD maxHops topK)
         (match found with
          | None => [EngineNew.create_default_path self shipment]
          | Some final_path => [final_path]
          end).
Proof.
  intros Ho Hd Hnn.
  destruct (search_loopN_converges sqrt self shipment maxCost
              (Pc, Shipment.originPC shipment, None) Hnn
              (EngineNew._heuristic sqrt self (Shipment.originPC shipment)
                 (Shipment.destPC shipment))) as (found & f0 & Hconv).
  exists found. split; [by exists f0|].
  exists f0. intros fuel Hfuel. unfold EngineNew.find_mltihop_path.
  destruct (decide _); [|done]. destruct (decide _); [|done].
  rewrite Hconv by done. by destruct found.
Qed.

Lemma route_costs_nonnegb_sound (idx : GraphIndex.t) (w : Q) :
  route_costs_nonnegb idx w = true -> route_costs_nonneg idx w.
Proof.
  unfold route_costs_nonnegb. rewrite forallb_forall. intros Hall k l r Hl Hr.
  assert (Hin : In (k, l) (map_to_list (GraphIndex._zoneAdj idx)
                           ++ map_to_list (GraphIndex._revZoneAdj idx))).
  { apply list_elem_of_In, elem_of_app.
    destruct Hl as [Hl | Hl]; [left | right]; by apply elem_of_map_to_list. }
  specialize (Hall _ Hin). simpl in Hall. rewrite forallb_forall in Hall.
  apply Qle_bool_iff, Hall. by apply list_elem_of_In.
Qed.


(** ** Unknown locations (C2) *)

Lemma Engine_find_unknown (sqrt : Q -> Q) (fuel : nat) (self : Engine.t)
    (shipment : Shipment.t) (maxCost maxETD : efloat) (maxHops topK : Z) :
  (Shipment.originPC shipment ∉ dom (Engine.postcodes self))
  \/ (Shipment.destPC shipment ∉ dom (Engine.postcodes self)) ->
  exists msg,
    Engine.find_mltihop_path sqrt fuel self shipment maxCost maxETD maxHops topK
    = Raise (ValueError msg).
Proof.
  intros Hunknown. unfold Engine.find_mltihop_path.
  destruct (decide _); [|by eauto]. destruct (decide _); [|by eauto]. by destruct Hunknown.
Qed.

Lemma EngineNew_find_unknown (sqrt : Q -> Q) (fuel : nat) (self : EngineNew.t)
    (shipment : Shipment.t) (maxCost maxETD : efloat) (maxHops topK : Z) :
  (Shipment.originPC shipment ∉ dom (EngineNew.postcodes self))
  \/ (Shipment.destPC shipment ∉ dom (EngineNew.postcodes self)) ->
  exists msg,
    EngineNew.find_mltihop_path sqrt fuel self shipment maxCost maxETD maxHops topK
    = Raise (ValueError msg).
Proof.
  intros Hunknown. unfold EngineNew.find_mltihop_path.
  destruct (decide _); [|by eauto]. destruct (decide _); [|by eauto]. by destruct Hunknown.
Qed.

(** C2, as stated, fails for [unoptimized]: with an origin postcode the
    engine does not know, it hands back the fallback path and raises
    nothing, in either facade. *)
Lemma C2_unoptimized_does_not_fail :
  (Shipment.originPC unknown_shipment ∉ dom (Engine.postcodes sample_engine))
  /\ Engine.unoptimized sample_engine unknown_shipment
     = Engine.create_default_path sample_engine unknown_shipment
  /\ EngineNew.unoptimized sample_engine_new unknown_shipment
     = EngineNew.create_default_path sample_engine_new unknown_shipment
  /\ ~ (exists e : exn,
          Ret (Engine.unoptimized sample_engine unknown_shipment) = Raise e).
Proof.
  split; [by vm_compute|]. split; [done|]. split; [done|]. by intros [e He].
Qed.

(** C2 (amended): when the origin or the destination postcode is missing
    from the engine's postcode dictionary, [optimized_for_cost],
    [optimized_for_time] and [optimize_multi_criteria] of both facades raise
    [ValueError], and they do so for every fuel, zero included, so before
    the first iteration of any loop; [unoptimized] makes no check. *)
Theorem C2_search_entry_points_fail_fast (sqrt : Q -> Q) (fuel : nat)
    (self : Engine.t) (self' : EngineNew.t) (shipment : Shipment.t)
    (maxCost maxETD : efloat) :
  (Shipment.originPC shipment ∉ dom (Engine.postcodes self))
  \/ (Shipment.destPC shipment ∉ dom (Engine.postcodes self)) ->
  (Shipment.originPC shipment ∉ dom (EngineNew.postcodes self'))
  \/ (Shipment.destPC shipment ∉ dom (EngineNew.postcodes self')) ->
  (exists msg, Engine.optimized_for_cost sqrt fuel self shipment maxETD
               = Raise (ValueError msg))
  /\ (exists msg, Engine.optimized_for_time sqrt fuel self shipment maxCost
                  = Raise (ValueError msg))
  /\ (exists msg, Engine.optimize_multi_criteria sqrt fuel self shipment
                  = Raise (ValueError msg))
  /\ (exists msg, EngineNew.optimized_for_cost sqrt fuel self' shipment maxETD
                  = Raise (ValueError msg))
  /\ (exists msg, EngineNew.optimized_for_time sqrt fuel self' shipment maxCost
                  = Raise (ValueError msg))
  /\ (exists msg, EngineNew.optimize_multi_criteria sqrt fuel self' shipment
                  = Raise (ValueError msg))
  /\ Engine.unoptimized self shipment = Engine.create_default_path self shipment
  /\ EngineNew.unoptimized self' shipment = EngineNew.create_default_path self' shipment.
Proof.
  intros H H'.
  unfold Engine.optimized_for_cost, Engine.optimized_for_time, Engine.optimize_multi_criteria,
    EngineNew.optimized_for_cost, EngineNew.optimized_for_time,
    EngineNew.optimize_multi_criteria.
  destruct (Engine_find_unknown sqrt fuel self shipment PInf maxETD 5 10 H) as [m1 ->].
  destruct (Engine_find_unknown sqrt fuel self shipment maxCost PInf 5 10 H) as [m2 ->].
  destruct (Engine_find_unknown sqrt fuel self shipment PInf PInf 5 15 H) as [m3 ->].
  destruct (EngineNew_find_unknown sqrt fuel self' shipment PInf maxETD 5 10 H') as [m4 ->].
  destruct (EngineNew_find_unknown sqrt fuel self' shipment maxCost PInf 5 10 H') as [m5 ->].
  destruct (EngineNew_find_unknown sqrt fuel self' shipment PInf PInf 5 10 H') as [m6 ->].
  simpl. eauto 20.
Qed.

Lemma C2_search_entry_points_fail_fast_witness :
  exists msg,
    Engine.optimized_for_cost sample_sqrt 0 sample_engine unknown_shipment PInf
    = Raise (ValueError msg).
Proof.
  apply (C2_search_entry_points_fail_fast sample_sqrt 0 sample_engine sample_engine_new
           unknown_shipment PInf PInf); left; by vm_compute.
Defined.

(** ** maxHops (C8) *)

(** C8: [maxHops] is handed down to [_get_neighbors] and read nowhere, and
    the forward engine does not even hand it down: two values of it give
    the same outcome at every fuel, in both engines. *)
Theorem C8_maxHops_is_ignored (sqrt : Q -> Q) (fuel : nat) (self : Engine.t)
    (self' : EngineNew.t) (shipment : Shipment.t) (maxCost maxETD : efloat)
    (topK h1 h2 : Z) :
  Engine.find_mltihop_path sqrt fuel self shipment maxCost maxETD h1 topK
  = Engine.find_mltihop_path sqrt fuel self shipment maxCost maxETD h2 topK
  /\ EngineNew.find_mltihop_path sqrt fuel self' shipment maxCost maxETD h1 topK
     = EngineNew.find_mltihop_path sqrt fuel self' shipment maxCost maxETD h2 topK.
Proof. split; reflexivity. Qed.

(** ** Ordering and truncation of the results (C5) *)

Lemma ef_leb_total (x y : efloat) : ef_leb x y = false -> ef_leb y x = true.
Proof.
  destruct x as [a|], y as [b|]; simpl; try done.
  intros H%Qle_bool_false. apply Qle_bool_iff. by apply Qlt_le_weak.
Qed.

Lemma ef_leb_trans (x y z : efloat) :
  ef_leb x y = true -> ef_leb y z = true -> ef_leb x z = true.
Proof.
  destruct x as [a|], y as [b|], z as [c|]; simpl; try done.
  rewrite !Qle_bool_iff. apply Qle_trans.
Qed.

Lemma Engine_find_sorted (sqrt : Q -> Q) (fuel : nat) (self : Engine.t)
    (shipment : Shipment.t) (maxCost maxETD : efloat) (maxHops topK : Z)
    (paths : list MultiHopPath.t) :
  Engine.find_mltihop_path sqrt fuel self shipment maxCost maxETD maxHops topK = Ret paths ->
  exists candidates,
    paths = slice_to (stable_sort Engine.cost_leb candidates) topK
    /\ StronglySorted cost_le paths.
Proof.
  unfold Engine.find_mltihop_path.
  destruct (decide _); [|done]. destruct (decide _); [|done].
  destruct (Engine._astar_search _ _ _ _ _ _ true _ _ _) as [| |fwd]; try done. simpl.
  destruct (Engine._astar_search _ _ _ _ _ _ false _ _ _) as [| |bwd]; try done. simpl.
  destruct (Engine._merge_paths _ _ _ _ _) as [| |candidates]; try done. simpl.
  intros [= <-]. exists candidates. split; [done|].
  apply slice_to_sorted.
  apply (stable_sort_sorted Engine.cost_leb).
  - intros p q. apply ef_leb_total.
  - intros p q r. apply ef_leb_trans.
Qed.

Lemma EngineNew_find_singleton (sqrt : Q -> Q) (fuel : nat) (self : EngineNew.t)
    (shipment : Shipment.t) (maxCost maxETD : efloat) (maxHops topK : Z)
    (paths : list MultiHopPath.t) :
  EngineNew.find_mltihop_path sqrt fuel self shipment maxCost maxETD maxHops topK = Ret paths ->
  exists path, paths = [path].
Proof.
  unfold EngineNew.find_mltihop_path.
  destruct (decide _); [|done]. destruct (decide _); [|done].
  destruct (EngineNew.search_loop _ _ _ _ _ _) as [| |[p|]]; try done; simpl;
    intros [= <-]; eauto.
Qed.

Lemma Engine_find_top (sqrt : Q -> Q) (fuel : nat) (self : Engine.t)
    (shipment : Shipment.t) (maxCost maxETD : efloat) (maxHops topK : Z)
    (paths : list MultiHopPath.t) :
  Engine.find_mltihop_path sqrt fuel self shipment maxCost maxETD maxHops topK = Ret paths ->
  exists forward backward candidates,
    Engine._astar_search sqrt fuel self shipment (Shipment.originPC shipment)
      (Shipment.destPC shipment) true maxCost maxETD maxHops = Ret forward
    /\ Engine._astar_search sqrt fuel self shipment (Shipment.destPC shipment)
         (Shipment.originPC shipment) false maxCost maxETD maxHops = Ret backward
    /\ Engine._merge_paths fuel self shipment forward backward = Ret candidates
    /\ paths = slice_to (stable_sort Engine.cost_leb candidates) topK.
Proof.
  unfold Engine.find_mltihop_path.
  destruct (decide _); [|done]. destruct (decide _); [|done].
  destruct (Engine._astar_search _ _ _ _ _ _ true _ _ _) as [| |fwd]; try done. simpl.
  destruct (Engine._astar_search _ _ _ _ _ _ false _ _ _) as [| |bwd]; try done. simpl.
  destruct (Engine._merge_paths _ _ _ _ _) as [| |candidates] eqn:Hm; try done. simpl.
  intros [= <-]. by exists fwd, bwd, candidates.
Qed.

(** In a sorted list nothing after position [k] comes before anything up
    to position [k]. *)
Lemma StronglySorted_take_drop {A} (R : A -> A -> Prop) (k : nat) (l : list A) (x y : A) :
  StronglySorted R l -> x ∈ take k l -> y ∈ drop k l -> R x y.
Proof.
  intros Hs Hx Hy. rewrite <- (take_drop k l) in Hs.
  by apply (StronglySorted_app_1_elem_of R (take k l) (drop k l)).
Qed.



(** ** Multi-criteria ranking (C6) *)

Lemma inverse_score_spec (x : efloat) (scale s : Q) :
  Engine.inverse_score x scale = Ret s -> s = inverse_term x scale.
Proof.
  destruct x as [q|]; simpl; [|by intros [= <-]].
  destruct (Qeq_bool _ _); [done | by intros [= <-]].
Qed.

Lemma score_path_spec (p p' : MultiHopPath.t) :
  Engine.score_path p = Ret p' ->
  p' = MultiHopPath.set_totScore p (score_as_specified p).
Proof.
  unfold Engine.score_path.
  destruct (Engine.inverse_score (MultiHopPath.totalCost p) 1000) as [| |c] eqn:Hc; try done.
  simpl.
  destruct (Engine.inverse_score (MultiHopPath.totalETD p) 24) as [| |t] eqn:Ht; try done.
  simpl. intros [= <-].
  apply inverse_score_spec in Hc as ->. by apply inverse_score_spec in Ht as ->.
Qed.

Lemma omap_each_spec {A B} (f : A -> outcome B) (g : A -> B) (l : list A) (l' : list B) :
  (forall a b, f a = Ret b -> b = g a) ->
  Engine.omap_each f l = Ret l' -> l' = g <$> l.
Proof.
  intros Hf. revert l'. induction l as [|a l IH]; intros l'; simpl; [by intros [= <-]|].
  destruct (f a) as [| |b] eqn:Hb; try done. simpl.
  destruct (Engine.omap_each f l) as [| |bs]; try done. simpl.
  intros [= <-]. by rewrite (Hf a b Hb), (IH bs).
Qed.

Lemma assign_ranks_ranks (l : list MultiHopPath.t) :
  MultiHopPath.rank <$> Engine.assign_ranks l = seq 1 (length l).
Proof.
  unfold Engine.assign_ranks.
  assert (Hgen : forall k,
            MultiHopPath.rank <$> imap (fun i p => MultiHopPath.set_rank p (k + i + 1)) l
            = seq (k + 1) (length l)).
  { induction l as [|p l IH]; intros k; simpl; [done|].
    f_equal; [simpl; lia|].
    replace (S (k + 1)) with (S k + 1) by lia. rewrite <- (IH (S k)).
    f_equal. apply imap_ext. intros i x _. simpl. f_equal. lia. }
  apply (Hgen 0).
Qed.

Lemma assign_ranks_scores (l : list MultiHopPath.t) :
  MultiHopPath.totScore <$> Engine.assign_ranks l = MultiHopPath.totScore <$> l.
Proof.
  unfold Engine.assign_ranks.
  assert (Hgen : forall f : nat -> nat,
            MultiHopPath.totScore <$> imap (fun i p => MultiHopPath.set_rank p (f i)) l
            = MultiHopPath.totScore <$> l).
  { induction l as [|p l IH]; intros f; simpl; [done|]. f_equal.
    apply (IH (f ∘ S)). }
  apply (Hgen (fun i => i + 1)).
Qed.

Lemma StronglySorted_fmap_inv {A B} (f : A -> B) (R : B -> B -> Prop) (l : list A) :
  StronglySorted R (f <$> l) <-> StronglySorted (fun x y => R (f x) (f y)) l.
Proof.
  induction l as [|x l IH]; simpl.
  - split; constructor.
  - split; intros H; inversion_clear H as [|? ? Hs Hall]; constructor.
    + by apply IH.
    + by rewrite Forall_fmap in Hall.
    + by apply IH.
    + by rewrite Forall_fmap.
Qed.

Lemma StronglySorted_mono {A} (R R' : A -> A -> Prop) (l : list A) :
  (forall x y, R x y -> R' x y) -> StronglySorted R l -> StronglySorted R' l.
Proof.
  intros HR. induction 1 as [|x l Hs IH Hall]; constructor; [done|].
  eapply Forall_impl; [exact Hall|]. intros y. apply HR.
Qed.

(** The bidirectional facade does what C6 says: it asks for 15
    candidates, gives each the weighted score, sorts by descending score
    and numbers the result 1, 2, ..., N. *)
Lemma Engine_multi_criteria_ranked (sqrt : Q -> Q) (fuel : nat) (self : Engine.t)
    (shipment : Shipment.t) (paths : list MultiHopPath.t) :
  Engine.optimize_multi_criteria sqrt fuel self shipment = Ret paths ->
  exists candidates,
    Engine.find_mltihop_path sqrt fuel self shipment PInf PInf 5 15 = Ret candidates
    /\ length candidates <= 15
    /\ paths = Engine.assign_ranks
                 (stable_sort Engine.score_geb
                    ((fun p => MultiHopPath.set_totScore p (score_as_specified p))
                       <$> candidates))
    /\ MultiHopPath.rank <$> paths = seq 1 (length paths)
    /\ length paths = length candidates
    /\ StronglySorted score_ge paths.
Proof.
  unfold Engine.optimize_multi_criteria.
  destruct (Engine.find_mltihop_path sqrt fuel self shipment PInf PInf 5 15)
    as [| |candidates] eqn:Hfind; try done. simpl.
  destruct (Engine.omap_each Engine.score_path candidates) as [| |scored] eqn:Hscore;
    try done. simpl. intros [= <-].
  apply (omap_each_spec _ (fun p => MultiHopPath.set_totScore p (score_as_specified p)))
    in Hscore as ->; [|apply score_path_spec].
  exists candidates. split; [done|]. split.
  { apply Engine_find_sorted in Hfind as (cands & -> & _).
    change (slice_to ?l 15) with (take 15 l). rewrite length_take. lia. }
  split; [done|]. split.
  { rewrite assign_ranks_ranks. unfold Engine.assign_ranks. by rewrite length_imap. }
  split.
  { unfold Engine.assign_ranks. by rewrite length_imap, stable_sort_length, length_fmap. }
  apply (StronglySorted_fmap_inv MultiHopPath.totScore (fun a b => (b <= a)%Q)).
  rewrite assign_ranks_scores.
  apply (StronglySorted_fmap_inv MultiHopPath.totScore (fun a b => (b <= a)%Q)).
  apply (StronglySorted_mono (fun a b => Engine.score_geb a b = true)).
  { intros p q. unfold Engine.score_geb. apply Qle_bool_iff. }
  apply (stable_sort_sorted Engine.score_geb).
  - intros p q. unfold Engine.score_geb. intros H%Qle_bool_false.
    apply Qle_bool_iff. by apply Qlt_le_weak.
  - intros p q r. unfold Engine.score_geb. rewrite !Qle_bool_iff. intros H1 H2.
    by eapply Qle_trans.
Qed.

(** The forward facade does none of it: its [optimize_multi_criteria] is
    the plain search with the default [topK]. *)
Lemma EngineNew_multi_criteria_is_plain_search (sqrt : Q -> Q) (fuel : nat)
    (self : EngineNew.t) (shipment : Shipment.t) :
  EngineNew.optimize_multi_criteria sqrt fuel self shipment
  = EngineNew.find_mltihop_path sqrt fuel self shipment PInf PInf 5 10.
Proof. reflexivity. Qed.

(** C6 fails on [engine_new.py]: for the one-route shipment the path comes
    back with [rank = 0] where C6 wants rank 1, and with [totScore = 0]
    where the weighted score is not 0. *)
Theorem C6_forward_facade_leaves_paths_unranked :
  exists p,
    EngineNew.optimize_multi_criteria sample_sqrt 30 sample_engine_new short_shipment = Ret [p]
    /\ MultiHopPath.rank p = 0
    /\ MultiHopPath.totScore p = 0%Q
    /\ ~ (score_as_specified p == 0)%Q
    /\ MultiHopPath.rank <$> [p] <> seq 1 1.
Proof.
  eexists. split; [vm_compute; reflexivity|].
  split; [reflexivity|]. split; [reflexivity|]. split; [by vm_compute | done].
Qed.

(** ** The ETD threshold (C4) *)

(** [maxETD] is a parameter of the forward search that nothing reads. *)
Lemma EngineNew_maxETD_is_ignored (sqrt : Q -> Q) (fuel : nat) (self : EngineNew.t)
    (shipment : Shipment.t) (maxCost e1 e2 : efloat) (maxHops topK : Z) :
  EngineNew.find_mltihop_path sqrt fuel self shipment maxCost e1 maxHops topK
  = EngineNew.find_mltihop_path sqrt fuel self shipment maxCost e2 maxHops topK.
Proof. reflexivity. Qed.

(** The bidirectional loop does refuse an edge slower than [maxETD]. *)
Lemma Engine_expand_neighbor_etd (sqrt : Q -> Q) (self : Engine.t) (goalPC : string)
    (maxCost maxETD : efloat) (current : node) (current_g : Q) (st : Engine.SearchState)
    (n : node) (c e : Q) (i : Engine.RouteInfo) :
  exceeds e maxETD = true ->
  Engine.expand_neighbor sqrt self goalPC maxCost maxETD current current_g st (n, c, e, i) = st.
Proof.
  intros He. unfold Engine.expand_neighbor. rewrite He, orb_true_r.
  by destruct (Engine.suboptimal _ _ _).
Qed.

(** The forward loop refuses an edge whose cumulative cost is above
    [maxCost]. *)
Lemma EngineNew_expand_neighbor_cost (sqrt : Q -> Q) (self : EngineNew.t)
    (shipment : Shipment.t) (maxCost : efloat) (current : node) (current_g : Q)
    (st : EngineNew.SearchState) (n : node) (c e : Q) (i : EngineNew.EdgeInfo) :
  EngineNew.g_score st !! current = Some current_g ->
  exceeds (current_g + c) maxCost = true ->
  EngineNew.expand_neighbor sqrt self shipment maxCost current st (n, c, e, i) = Ret st.
Proof.
  intros Hg Hc. unfold EngineNew.expand_neighbor, getitem. rewrite Hg. simpl. by rewrite Hc.
Qed.

(** C4 fails on [engine_new.py]: asked for the cheapest route with
    [maxETD = 1] hour, the forward engine relaxes the 24-hour route and
    returns a path whose transit segment takes 24 hours; the bidirectional
    engine, given the same query, refuses the edge and returns the
    fallback. *)
Theorem C4_forward_engine_ignores_maxETD :
  exists p seg,
    EngineNew.optimized_for_cost sample_sqrt 30 sample_engine_new short_shipment (Fin 1)
    = Ret [p]
    /\ MultiHopPath.segments p = [seg]
    /\ seg_providerId seg = Some "FP_1"
    /\ seg_etd seg = 24%Q
    /\ exceeds (seg_etd seg) (Fin 1) = true
    /\ Engine.optimized_for_cost sample_sqrt 30 sample_engine short_shipment (Fin 1)
       = Ret [Engine.create_default_path sample_engine short_shipment].
Proof.
  eexists. eexists. split; [vm_compute; reflexivity|].
  split; [reflexivity|]. split; [reflexivity|]. split; [reflexivity|].
  split; [reflexivity|]. vm_compute. reflexivity.
Qed.

(** ** Construction of the index (C9) *)

Lemma foldl_bind_list {A X Y} (f : A -> Y -> A) (g : X -> list Y) (l : list X) (a : A) :
  foldl f a (l ≫= g) = foldl (fun a x => foldl f a (g x)) a l.
Proof.
  revert a. induction l as [|x l IH]; intros a; simpl; [done|].
  by rewrite foldl_app, IH.
Qed.

Lemma foldl_concat_list {A Y} (f : A -> Y -> A) (ls : list (list Y)) (a : A) :
  foldl f a (concat ls) = foldl (fun a l => foldl f a l) a ls.
Proof.
  revert a. induction ls as [|l ls IH]; intros a; simpl; [done|].
  by rewrite foldl_app, IH.
Qed.

Lemma foldl_fmap_list {A X Y} (f : A -> Y -> A) (g : X -> Y) (l : list X) (a : A) :
  foldl f a (g <$> l) = foldl (fun a x => f a (g x)) a l.
Proof. revert a. induction l as [|x l IH]; intros a; simpl; [done|]. apply IH. Qed.

Lemma foldl_ext_list {A X} (f g : A -> X -> A) (l : list X) (a : A) :
  (forall a x, f a x = g a x) -> foldl f a l = foldl g a l.
Proof.
  intros Hfg. revert a. induction l as [|x l IH]; intros a; simpl; [done|].
  by rewrite Hfg, IH.
Qed.

(** Appending under a key keeps every entry, in order. *)
Lemma foldl_append_at {K A X} `{Countable K} (key : X -> K) (val : X -> A)
    (l : list X) (adj : gmap K (list A)) (k : K) :
  default [] (foldl (fun adj x => GraphIndex.append_at adj (key x) (val x)) adj l !! k)
  = default [] (adj !! k) ++ (val <$> filter (fun x => key x = k) l).
Proof.
  revert adj. induction l as [|x l IH]; intros adj; simpl.
  - by rewrite app_nil_r.
  - rewrite IH. unfold GraphIndex.append_at. rewrite filter_cons.
    destruct (decide (key x = k)) as [->|Hne].
    + rewrite lookup_insert_eq. simpl. by rewrite <- app_assoc.
    + by rewrite lookup_insert_ne.
Qed.

(** Inserting under a key keeps the last entry. *)
Lemma foldl_insert_last {K V X} `{Countable K} (key : X -> K) (val : X -> V)
    (l : list X) (m : gmap K V) (k : K) :
  foldl (fun m x => <[key x := val x]> m) m l !! k
  = match last (filter (fun x => key x = k) l) with
    | Some x => Some (val x)
    | None => m !! k
    end.
Proof.
  revert m. induction l as [|x l IH]; intros m; simpl; [done|].
  rewrite IH, filter_cons. destruct (decide (key x = k)) as [->|Hne].
  - rewrite last_cons. destruct (last _); [done|]. by rewrite lookup_insert_eq.
  - destruct (last _); [done|]. by rewrite lookup_insert_ne.
Qed.

Lemma postcode_dict_last (postcodes : list Postcode.t) (c : string) :
  GraphIndex.postcode_dict postcodes !! c
  = last (filter (fun pc => Postcode.code pc = c) postcodes).
Proof.
  unfold GraphIndex.postcode_dict.
  rewrite (foldl_insert_last Postcode.code (fun pc => pc)).
  by destruct (last _).
Qed.

Lemma buildZoneToPCMap_last (providerZones : list (string * list ProviderZone.t))
    (p z : string) :
  GraphIndex._buildZoneToPCMap providerZones !! (p, z)
  = ProviderZone.postcodes ∘ snd
    <$> last (filter (fun e => (e.1, ProviderZone.zoneCode e.2) = (p, z))
                     (zone_entries providerZones)).
Proof.
  assert (Hflat : GraphIndex._buildZoneToPCMap providerZones
                  = foldl (fun m e => <[(e.1, ProviderZone.zoneCode e.2)
                                        := ProviderZone.postcodes e.2]> m)
                          ∅ (zone_entries providerZones)).
  { unfold GraphIndex._buildZoneToPCMap, zone_entries.
    rewrite foldl_bind_list. apply foldl_ext_list. intros a [pid zones].
    by rewrite foldl_fmap_list. }
  rewrite Hflat, foldl_insert_last, lookup_empty. by destruct (last _).
Qed.

Lemma buildZoneAdjacency_all (zoneRoutes : list (string * list ProviderZoneRoute.t))
    (p z : string) :
  default [] (GraphIndex._buildZoneAdjacency zoneRoutes !! (p, z))
  = filter (fun r => (ProviderZoneRoute.providerId r, ProviderZoneRoute.fromZone r) = (p, z))
           (all_routes zoneRoutes).
Proof.
  unfold GraphIndex._buildZoneAdjacency, all_routes.
  rewrite <- foldl_concat_list.
  rewrite (foldl_append_at
             (fun r => (ProviderZoneRoute.providerId r, ProviderZoneRoute.fromZone r))
             (fun r => r)).
  by rewrite lookup_empty, list_fmap_id.
Qed.

Lemma buildReverseZoneAdjacency_all (zoneRoutes : list (string * list ProviderZoneRoute.t))
    (p z : string) :
  default [] (GraphIndex._buildReverseZoneAdjacency zoneRoutes !! (p, z))
  = filter (fun r => (ProviderZoneRoute.providerId r, ProviderZoneRoute.toZone r) = (p, z))
           (all_routes zoneRoutes).
Proof.
  unfold GraphIndex._buildReverseZoneAdjacency, all_routes.
  rewrite <- foldl_concat_list.
  rewrite (foldl_append_at
             (fun r => (ProviderZoneRoute.providerId r, ProviderZoneRoute.toZone r))
             (fun r => r)).
  by rewrite lookup_empty, list_fmap_id.
Qed.

Lemma buildPCtoZoneMap_all (providerZones : list (string * list ProviderZone.t))
    (pc : string) :
  default [] (GraphIndex._buildPCtoZoneMap providerZones !! pc)
  = snd <$> filter (fun e => e.1 = pc) (postcode_entries providerZones).
Proof.
  assert (Hflat : GraphIndex._buildPCtoZoneMap providerZones
                  = foldl (fun m e => GraphIndex.append_at m e.1 e.2)
                          ∅ (postcode_entries providerZones)).
  { unfold GraphIndex._buildPCtoZoneMap, postcode_entries, zone_entries.
    rewrite !foldl_bind_list. apply foldl_ext_list. intros a [pid zones].
    rewrite foldl_fmap_list. apply foldl_ext_list. intros a' zone.
    by rewrite foldl_fmap_list. }
  by rewrite Hflat, (foldl_append_at fst snd), lookup_empty.
Qed.

(** C9, as stated, fails for routes: two routes with the same
    [(providerId, fromZone, toZone)] are both handed out, the earlier one
    first; the later one overwrites nothing. *)
Lemma C9_duplicate_routes_are_both_kept :
  (ProviderZoneRoute.providerId route_ab, ProviderZoneRoute.fromZone route_ab,
   ProviderZoneRoute.toZone route_ab)
  = (ProviderZoneRoute.providerId route_ab_express,
     ProviderZoneRoute.fromZone route_ab_express,
     ProviderZoneRoute.toZone route_ab_express)
  /\ GraphIndex.get_OutgoingRoutes duplicate_index (Some "FP_1") "ZA"
     = [route_ab; route_ab_express]
  /\ GraphIndex.get_IncomingRoutes duplicate_index (Some "FP_1") "ZB"
     = [route_ab; route_ab_express]
  /\ GraphIndex.get_OutgoingRoutes duplicate_index (Some "FP_1") "ZA" <> [route_ab_express].
Proof.
  split; [reflexivity|]. split; [by vm_compute|]. split; [by vm_compute|].
  vm_compute. discriminate.
Qed.

(** C9 (amended): [GraphIndex.init] is defined on every input.  The
    postcode dictionary and the zone-to-postcodes map keep, for a key, the
    last entity with that key.  The two route adjacency maps and the
    postcode-to-zones map keep every entity, in input order: entities with
    the same key accumulate. *)
Theorem C9_index_construction (postcodes : list Postcode.t)
    (providerZones : list (string * list ProviderZone.t))
    (zoneRoutes : list (string * list ProviderZoneRoute.t)) :
  let idx := GraphIndex.init postcodes providerZones zoneRoutes in
  (forall c, GraphIndex.postcodes idx !! c
             = last (filter (fun pc => Postcode.code pc = c) postcodes))
  /\ (forall p z,
        GraphIndex.get_PostcodesForZone idx (Some p) z
        = default []
            (ProviderZone.postcodes ∘ snd
             <$> last (filter (fun e => (e.1, ProviderZone.zoneCode e.2) = (p, z))
                              (zone_entries providerZones))))
  /\ (forall p z,
        GraphIndex.get_OutgoingRoutes idx (Some p) z
        = filter (fun r => (ProviderZoneRoute.providerId r, ProviderZoneRoute.fromZone r)
                           = (p, z))
                 (all_routes zoneRoutes))
  /\ (forall p z,
        GraphIndex.get_IncomingRoutes idx (Some p) z
        = filter (fun r => (ProviderZoneRoute.providerId r, ProviderZoneRoute.toZone r)
                           = (p, z))
                 (all_routes zoneRoutes))
  /\ (forall pc,
        GraphIndex.get_ZonesForPostcode idx pc
        = snd <$> filter (fun e => e.1 = pc) (postcode_entries providerZones)).
Proof.
  intros idx. split; [|split; [|split; [|split]]].
  - intros c. apply postcode_dict_last.
  - intros p z. unfold GraphIndex.get_PostcodesForZone. subst idx. simpl.
    by rewrite buildZoneToPCMap_last.
  - intros p z. apply buildZoneAdjacency_all.
  - intros p z. apply buildReverseZoneAdjacency_all.
  - intros pc. apply buildPCtoZoneMap_all.
Qed.

(** ** The cost threshold of the bidirectional engine (C10) *)

Lemma elem_of_slice_to {A} (x : A) (l : list A) (k : Z) : x ∈ slice_to l k -> x ∈ l.
Proof. unfold slice_to. destruct (0 <=? k)%Z; apply subseteq_take. Qed.




(** ** Termination and the fallback (C3) *)

Lemma while_loop_diverges {St R} (body : St -> outcome (St + R)) (P : St -> Prop) :
  (forall st, P st -> exists st', body st = Ret (inl st') /\ P st') ->
  forall fuel st, P st -> while_loop body fuel st = OutOfFuel.
Proof.
  intros Hstep fuel. induction fuel as [|fuel IH]; intros st HP; [done|].
  simpl. destruct (Hstep st HP) as (st' & -> & HP'). simpl. by apply IH.
Qed.

Lemma rebate_neighbors_pc :
  EngineNew._get_forward_neighbors rebate_engine_new rebate_pc sample_shipment
  = [ (rebate_zone, 0%Q, 0%Q, EngineNew.InfoEntry "FP_1") ].
Proof. by vm_compute. Qed.

Lemma rebate_neighbors_zone :
  EngineNew._get_forward_neighbors rebate_engine_new rebate_zone sample_shipment
  = [ (rebate_zone, ProviderZoneRoute.calculateCost route_rebate 100, 24%Q,
       EngineNew.InfoTransit route_rebate);
      (rebate_pc, 0%Q, 0%Q, EngineNew.InfoExit (Some "FP_1")) ].
Proof. by vm_compute. Qed.

(** Expanding an edge only adds to the queue, and keeps the cost map
    defined where it was. *)
Lemma expand_neighborN_grows (sqrt : Q -> Q) (self : EngineNew.t) (shipment : Shipment.t)
    (maxCost : efloat) (current : node) (st : EngineNew.SearchState)
    (nb : EngineNew.neighbor) :
  is_Some (EngineNew.g_score st !! current) ->
  exists st',
    EngineNew.expand_neighbor sqrt self shipment maxCost current st nb = Ret st'
    /\ (EngineNew.open_set st' = EngineNew.open_set st
        \/ exists f k, EngineNew.open_set st' = (f, k, nb.1.1.1) :: EngineNew.open_set st)
    /\ (forall n, is_Some (EngineNew.g_score st !! n) -> is_Some (EngineNew.g_score st' !! n)).
Proof.
  intros [g Hg]. destruct nb as [[[n c] e] i].
  unfold EngineNew.expand_neighbor, getitem. rewrite Hg. simpl.
  destruct (exceeds _ _); [by eauto 10|].
  destruct (EngineNew.improves _ _ _); [|by eauto 10].
  eexists. split; [done|]. simpl. split; [right; eauto|].
  intros m Hm. destruct (decide (n = m)) as [->|Hne].
  - rewrite lookup_insert_eq. eauto.
  - by rewrite lookup_insert_ne.
Qed.

Lemma rebate_step (fuel : nat) (st : EngineNew.SearchState) :
  rebate_inv st ->
  exists st',
    EngineNew.loop_body sample_sqrt fuel rebate_engine_new sample_shipment PInf st
    = Ret (inl st')
    /\ rebate_inv st'.
Proof.
  intros ([ez [Hez Hezn]] & Hall & HgA & HgZ).
  destruct (heappop (EngineNew.open_set st)) as [[[[f k] current] rest]|] eqn:Hpop.
  2:{ destruct (EngineNew.open_set st); [by apply not_elem_of_nil in Hez | done]. }
  pose proof (heappop_perm _ _ _ Hpop) as Hperm.
  assert (Hrest : forall e, e ∈ rest -> e.2 = rebate_pc \/ e.2 = rebate_zone).
  { intros e He. apply Hall. rewrite <- Hperm. by right. }
  destruct (Hall (f, k, current)) as [Hcur | Hcur]; [rewrite <- Hperm; by left | |];
    simpl in Hcur; subst current.
  - (* the postcode vertex: the zone entry stays in the queue *)
    destruct HgA as [ga HgA].
    rewrite (bodyN_unfold sample_sqrt rebate_engine_new sample_shipment PInf fuel st f k
               rebate_pc rest ga Hpop); [|by intros [_ [=]] | done].
    cbn [exceeds]. rewrite rebate_neighbors_pc. cbn [ofoldl].
    destruct (expand_neighborN_grows sample_sqrt rebate_engine_new sample_shipment PInf
                rebate_pc (EngineNew.set_open st rest)
                (rebate_zone, 0%Q, 0%Q, EngineNew.InfoEntry "FP_1"))
      as (st1 & -> & Hopen & Hdom); [simpl; eauto|].
    simpl. eexists. split; [done|].
    assert (Hzrest : ez ∈ rest).
    { rewrite <- Hperm in Hez. apply elem_of_cons in Hez as [-> | ?]; [|done].
      simpl in Hezn. discriminate. }
    split; [|split; [|split]].
    + exists ez. split; [|done]. destruct Hopen as [-> | (f' & k' & ->)]; [done | by right].
    + intros e He. destruct Hopen as [Ho | (f' & k' & Ho)]; rewrite Ho in He.
      * by apply Hrest.
      * apply elem_of_cons in He as [-> | He]; [by right | by apply Hrest].
    + apply Hdom. simpl. eauto.
    + apply Hdom. simpl. done.
  - (* the zone vertex: the rebate edge improves its cost, so it is queued again *)
    destruct HgZ as [gz HgZ].
    rewrite (bodyN_unfold sample_sqrt rebate_engine_new sample_shipment PInf fuel st f k
               rebate_zone rest gz Hpop); [|by intros [[=] _] | done].
    cbn [exceeds]. rewrite rebate_neighbors_zone.
    set (st0 := EngineNew.set_open st rest).
    assert (Hfirst : exists st1 f1 k1,
              EngineNew.expand_neighbor sample_sqrt rebate_engine_new sample_shipment PInf
                rebate_zone st0
                (rebate_zone, ProviderZoneRoute.calculateCost route_rebate 100, 24%Q,
                 EngineNew.InfoTransit route_rebate) = Ret st1
              /\ EngineNew.open_set st1 = (f1, k1, rebate_zone) :: rest
              /\ (forall n, is_Some (EngineNew.g_score st0 !! n) ->
                            is_Some (EngineNew.g_score st1 !! n))).
    { unfold EngineNew.expand_neighbor, getitem. simpl. rewrite HgZ. simpl.
      assert (Himp : EngineNew.improves (EngineNew.g_score st) rebate_zone
                       (gz + ProviderZoneRoute.calculateCost route_rebate 100) = true).
      { unfold EngineNew.improves. rewrite HgZ. apply Qgtb_true.
        assert ((ProviderZoneRoute.calculateCost route_rebate 100 < 0)%Q) by reflexivity.
        lra. }
      rewrite Himp. eexists _, _, _. split; [done|]. simpl. split; [done|].
      intros m Hm. destruct (decide (rebate_zone = m)) as [<-|Hne].
      - rewrite lookup_insert_eq. eauto.
      - by rewrite lookup_insert_ne. }
    destruct Hfirst as (st1 & f1 & k1 & Hexp1 & Hopen1 & Hdom1).
    cbn [ofoldl]. rewrite Hexp1. cbn [mbind outcome_bind obind ofoldl].
    destruct (expand_neighborN_grows sample_sqrt rebate_engine_new sample_shipment PInf
                rebate_zone st1 (rebate_pc, 0%Q, 0%Q, EngineNew.InfoExit (Some "FP_1")))
      as (st2 & -> & Hopen2 & Hdom2); [apply Hdom1; simpl; eauto|].
    simpl. eexists. split; [done|].
    split; [|split; [|split]].
    + exists (f1, k1, rebate_zone). split; [|done].
      destruct Hopen2 as [-> | (f' & k' & ->)]; rewrite Hopen1; [by left | right; by left].
    + intros e He. destruct Hopen2 as [Ho | (f' & k' & Ho)]; rewrite Ho, Hopen1 in He.
      * apply elem_of_cons in He as [-> | He]; [by right | by apply Hrest].
      * apply elem_of_cons in He as [-> | He]; [by left|].
        apply elem_of_cons in He as [-> | He]; [by right | by apply Hrest].
    + apply Hdom2, Hdom1. simpl. done.
    + apply Hdom2, Hdom1. simpl. eauto.
Qed.

Lemma EngineNew_find_unfold (sqrt : Q -> Q) (fuel : nat) (self : EngineNew.t)
    (shipment : Shipment.t) (maxCost maxETD : efloat) (maxHops topK : Z) :
  Shipment.originPC shipment ∈ dom (EngineNew.postcodes self) ->
  Shipment.destPC shipment ∈ dom (EngineNew.postcodes self) ->
  EngineNew.find_mltihop_path sqrt fuel self shipment maxCost maxETD maxHops topK
  = (found_paths ←
       EngineNew.search_loop sqrt self shipment maxCost fuel
         (initial_stateN sqrt self shipment);
     match found_paths with
     | None => Ret [EngineNew.create_default_path self shipment]
     | Some final_path => Ret [final_path]
     end).
Proof.
  intros Ho Hd. unfold EngineNew.find_mltihop_path.
  destruct (decide _); [|done]. destruct (decide _); [|done]. done.
Qed.

Lemma rebate_first_step (fuel : nat) :
  exists st',
    EngineNew.loop_body sample_sqrt fuel rebate_engine_new sample_shipment PInf
      (initial_stateN sample_sqrt rebate_engine_new sample_shipment)
    = Ret (inl st')
    /\ rebate_inv st'.
Proof.
  eexists. split; [vm_compute; reflexivity|].
  split; [|split; [|split]].
  - eexists. split; [by left | done].
  - intros e ->%list_elem_of_singleton. by right.
  - eexists. vm_compute. reflexivity.
  - eexists. vm_compute. reflexivity.
Qed.

(** On the index with the rebate route the forward search never ends:
    each time the zone is expanded its cost drops by the rebate and it is
    queued again. *)
Lemma rebate_search_diverges (fuel : nat) :
  EngineNew.find_mltihop_path sample_sqrt fuel rebate_engine_new sample_shipment
    PInf PInf 5 10 = OutOfFuel.
Proof.
  rewrite EngineNew_find_unfold by (by vm_compute).
  unfold EngineNew.search_loop.
  rewrite (while_loop_diverges _
             (fun st => st = initial_stateN sample_sqrt rebate_engine_new sample_shipment
                        \/ rebate_inv st)); [done | | by left].
  intros st [-> | Hinv].
  - destruct (rebate_first_step fuel) as (st' & Hstep & Hinv). eauto.
  - destruct (rebate_step fuel st Hinv) as (st' & Hstep & Hinv'). eauto.
Qed.

(** Once a loop has an outcome, more fuel does not change it. *)
Lemma while_loop_stable {St R} (body : St -> outcome (St + R)) (fuel fuel' : nat) (st : St) :
  while_loop body fuel st <> OutOfFuel -> fuel <= fuel' ->
  while_loop body fuel' st = while_loop body fuel st.
Proof.
  revert fuel' st. induction fuel as [|fuel IH]; intros fuel' st Hne Hle; [done|].
  destruct fuel' as [|fuel']; [lia|]. simpl in *.
  destruct (body st) as [|e|[st'|r]]; simpl in *; try done.
  apply IH; [done | lia].
Qed.

Lemma astar_search_stable (sqrt : Q -> Q) (fuel fuel' : nat) (self : Engine.t)
    (shipment : Shipment.t) (startPC goalPC : string) (forward : bool)
    (maxCost maxETD : efloat) (maxHops : Z) :
  Engine._astar_search sqrt fuel self shipment startPC goalPC forward maxCost maxETD maxHops
    <> OutOfFuel ->
  fuel <= fuel' ->
  Engine._astar_search sqrt fuel' self shipment startPC goalPC forward maxCost maxETD maxHops
  = Engine._astar_search sqrt fuel self shipment startPC goalPC forward maxCost maxETD maxHops.
Proof.
  unfold Engine._astar_search, Engine.search_loop. intros Hne Hle.
  rewrite (while_loop_stable _ fuel fuel'); [done | | done].
  intros Heq. rewrite Heq in Hne. done.
Qed.

(** With any fuel each exploration on the detour index either runs out
    or returns the result computed above. *)
Lemma detour_search (forward : bool) (fuel : nat) :
  Engine._astar_search sample_sqrt fuel detour_engine round_trip "2000" "2000" forward
    PInf PInf 5 = OutOfFuel
  \/ Engine._astar_search sample_sqrt fuel detour_engine round_trip "2000" "2000" forward
       PInf PInf 5 = Ret (if forward then detour_forward else detour_backward).
Proof.
  destruct (Engine._astar_search sample_sqrt fuel detour_engine round_trip "2000" "2000"
              forward PInf PInf 5) eqn:Hs; [by left | |]; right.
  all: assert (Hne : Engine._astar_search sample_sqrt fuel detour_engine round_trip
                  "2000" "2000" forward PInf PInf 5 <> OutOfFuel) by (by rewrite Hs).
  all: pose proof (astar_search_stable _ fuel (fuel `max` 8) _ _ _ _ _ _ _ _ Hne
                     (Nat.le_max_l _ _)) as H1.
  all: assert (H8 : Engine._astar_search sample_sqrt 8 detour_engine round_trip
                  "2000" "2000" forward PInf PInf 5
                = Ret (if forward then detour_forward else detour_backward))
         by (destruct forward; vm_compute; reflexivity).
  all: assert (Hne8 : Engine._astar_search sample_sqrt 8 detour_engine round_trip
                  "2000" "2000" forward PInf PInf 5 <> OutOfFuel) by (by rewrite H8).
  all: pose proof (astar_search_stable _ 8 (fuel `max` 8) _ _ _ _ _ _ _ _ Hne8
                     (Nat.le_max_r _ _)) as H2.
  all: rewrite <- Hs, <- H1, H2, H8; done.
Qed.

Lemma detour_common_nodes :
  elements (dom (Engine.cost detour_forward) ∩ dom (Engine.cost detour_backward))
  = [detour_pc; detour_z1; detour_z2].
Proof. vm_compute. reflexivity. Qed.

(** The parents of the forward exploration form a cycle: the loop of
    [_unroll_path] started at the postcode never meets [None]. *)
Lemma detour_unroll_step (st : option node * (list node * list Segment * Q * Q)) :
  on_detour st ->
  exists st',
    Engine.unroll_body (Engine.parent detour_forward) (Engine.edge detour_forward) st
    = Ret (inl st')
    /\ on_detour st'.
Proof.
  destruct st as [curr [[[nodes segs] c] e]]. unfold on_detour. simpl.
  assert (Hpc : Engine.parent detour_forward !! detour_pc = Some detour_z2)
    by (vm_compute; reflexivity).
  assert (Hz2 : Engine.parent detour_forward !! detour_z2 = Some detour_z1)
    by (vm_compute; reflexivity).
  assert (Hz1 : Engine.parent detour_forward !! detour_z1 = Some detour_pc)
    by (vm_compute; reflexivity).
  assert (Hepc : is_Some (Engine.edge detour_forward !! detour_pc))
    by (eexists; vm_compute; reflexivity).
  assert (Hez1 : is_Some (Engine.edge detour_forward !! detour_z1))
    by (eexists; vm_compute; reflexivity).
  assert (Hez2 : is_Some (Engine.edge detour_forward !! detour_z2))
    by (eexists; vm_compute; reflexivity).
  intros [-> | [-> | ->]]; unfold Engine.unroll_step, getitem.
  - destruct Hepc as [d ->]. rewrite Hpc. simpl. eauto.
  - destruct Hez1 as [d ->]. rewrite Hz1. simpl. eauto.
  - destruct Hez2 as [d ->]. rewrite Hz2. simpl. eauto.
Qed.

Lemma detour_unroll_diverges (fuel : nat) :
  Engine._unroll_path fuel detour_pc (Engine.parent detour_forward)
    (Engine.edge detour_forward) = OutOfFuel.
Proof.
  unfold Engine._unroll_path, Engine.unroll_loop.
  apply (while_loop_diverges _ on_detour); [apply detour_unroll_step | by left].
Qed.

Lemma detour_merge_diverges (fuel : nat) (paths : list MultiHopPath.t) :
  Engine.merge_at fuel round_trip detour_forward detour_backward paths detour_pc
  = OutOfFuel.
Proof.
  unfold Engine.merge_at. change (node_type detour_pc) with Pc. cbv iota.
  by rewrite detour_unroll_diverges.
Qed.

(** On the detour index the bidirectional engine returns nothing: both
    explorations end, and unrolling the forward parents from the common
    postcode goes round the cycle for ever. *)
Lemma detour_find_diverges (fuel : nat) :
  Engine.find_mltihop_path sample_sqrt fuel detour_engine round_trip PInf PInf 5 10
  = OutOfFuel.
Proof.
  rewrite find_unfold by (by vm_compute).
  change (Shipment.originPC round_trip) with "2000".
  change (Shipment.destPC round_trip) with "2000".
  destruct (detour_search true fuel) as [-> | ->]; [done|].
  destruct (detour_search false fuel) as [-> | ->]; [done|].
  cbn [mbind outcome_bind obind]. unfold Engine._merge_paths.
  rewrite detour_common_nodes. cbn [ofoldl].
  rewrite detour_merge_diverges. done.
Qed.




(** ** Edge costs on the paths (C7) *)

Lemma Engine_neighbor_edge_ok (self : Engine.t) (n : node) (s : Shipment.t) (maxHops : Z)
    (forward : bool) (nb : Engine.neighbor) :
  nb ∈ Engine._get_neighbors self n s maxHops forward ->
  edge_ok (Engine.index self) (Shipment.weightKG s)
          (Engine.mkEdge nb.1.1.2 nb.1.2 nb.2).
Proof.
  destruct n as [[ty id] prov]. unfold Engine._get_neighbors, edge_ok. destruct ty.
  - intros ([p z] & -> & _)%list_elem_of_fmap. simpl. by destruct forward.
  - rewrite elem_of_app. intros [Hin | (c & -> & _)%list_elem_of_fmap];
      [|simpl; by destruct forward].
    destruct forward.
    + apply list_elem_of_fmap in Hin as (r & -> & Hin). simpl. split; [|done].
      destruct prov as [p|]; simpl in Hin; [|by apply not_elem_of_nil in Hin].
      apply lookup_default_elem in Hin as (l & Hl & Hin). exists (p, id), l. eauto.
    + apply list_elem_of_fmap in Hin as (r & -> & Hin). simpl. split; [|done].
      destruct prov as [p|]; simpl in Hin; [|by apply not_elem_of_nil in Hin].
      apply lookup_default_elem in Hin as (l & Hl & Hin). exists (p, id), l. eauto.
Qed.

Lemma EngineNew_neighbor_edge_ok (self : EngineNew.t) (n : node) (s : Shipment.t)
    (nb : EngineNew.neighbor) :
  nb ∈ EngineNew._get_forward_neighbors self n s ->
  edge_okN (EngineNew.index self) (Shipment.weightKG s)
           (EngineNew.mkEdge nb.1.1.2 nb.1.2 nb.2).
Proof.
  destruct n as [[ty id] prov]. unfold EngineNew._get_forward_neighbors, edge_okN.
  destruct ty.
  - intros ([p z] & -> & _)%list_elem_of_fmap. done.
  - rewrite elem_of_app. intros [Hin | (c & -> & _)%list_elem_of_fmap]; [|done].
    apply list_elem_of_fmap in Hin as (r & -> & Hin). simpl. split; [|done].
    destruct prov as [p|]; simpl in Hin; [|by apply not_elem_of_nil in Hin].
    apply lookup_default_elem in Hin as (l & Hl & Hin). exists (p, id), l. eauto.
Qed.

Section EngineEdges.
Context (sqrt : Q -> Q) (self : Engine.t) (shipment : Shipment.t) (goalPC : string)
        (forward : bool) (maxCost maxETD : efloat) (maxHops : Z).

Local Abbreviation ok := (edge_ok (Engine.index self) (Shipment.weightKG shipment)).

Lemma expand_neighbor_edges current current_g st nb :
  nb ∈ Engine._get_neighbors self current shipment maxHops forward ->
  map_Forall (fun _ => ok) (Engine.edge_data st) ->
  map_Forall (fun _ => ok)
    (Engine.edge_data
       (Engine.expand_neighbor sqrt self goalPC maxCost maxETD current current_g st nb)).
Proof.
  intros Hnb Hall. pose proof (Engine_neighbor_edge_ok _ _ _ _ _ _ Hnb) as Hok.
  destruct nb as [[[n c] e] i].
  destruct (expand_neighbor_cases sqrt self goalPC maxCost maxETD current current_g st n c e i)
    as [-> | (_ & _ & _ & f & ->)]; [done|].
  simpl. by apply map_Forall_insert_2.
Qed.

Lemma body_edges st st' :
  map_Forall (fun _ => ok) (Engine.edge_data st) ->
  Engine.loop_body sqrt self shipment goalPC forward maxCost maxETD maxHops st = Ret (inl st') ->
  map_Forall (fun _ => ok) (Engine.edge_data st').
Proof.
  intros Hall. unfold Engine.loop_body.
  destruct (heappop (Engine.open_set st)) as [[[[f k] current] rest]|]; [|done].
  destruct (decide _); [by intros [= <-]|].
  unfold getitem. simpl. destruct (Engine.g_score st !! current) as [g|]; [|done].
  simpl. destruct (exceeds g maxCost); [by intros [= <-]|].
  intros [= <-].
  apply (foldl_invariant _ (fun a => map_Forall (fun _ => ok) (Engine.edge_data a))); [|done].
  intros a nb Hnb Ha. by apply expand_neighbor_edges.
Qed.

Lemma astar_search_edges fuel startPC res :
  Engine._astar_search sqrt fuel self shipment startPC goalPC forward maxCost maxETD maxHops
  = Ret res ->
  map_Forall (fun _ => ok) (Engine.edge res).
Proof.
  unfold Engine._astar_search.
  destruct (Engine.search_loop _ _ _ _ _ _ _ _ _ _) as [| e | st] eqn:Hrun; try done.
  simpl. intros [= <-]. simpl.
  destruct (while_loop_invariant _ (fun st => map_Forall (fun _ => ok) (Engine.edge_data st))
              body_edges fuel _ st (map_Forall_empty _) Hrun) as (st' & Hall & Hexit).
  revert Hexit. unfold Engine.loop_body.
  destruct (heappop _) as [[[[f k] current] rest]|]; [|by intros [= <-]].
  destruct (decide _); [done|]. unfold getitem. simpl.
  destruct (_ !! current); simpl; [|done]. by destruct (exceeds _ _).
Qed.
End EngineEdges.

Lemma ofoldl_preserves {A B} (f : A -> B -> outcome A) (P : A -> Prop) (l : list B) :
  (forall a x a', x ∈ l -> P a -> f a x = Ret a' -> P a') ->
  forall a a', P a -> ofoldl f a l = Ret a' -> P a'.
Proof.
  induction l as [|x l IH]; intros Hstep a a' Ha; simpl; [by intros [= <-]|].
  destruct (f a x) as [| |a1] eqn:Hf; try done. simpl.
  apply IH; [|by eapply Hstep; [left| |]].
  intros b y b' Hy. apply Hstep. by right.
Qed.

Section EngineSegments.
Context (idx : GraphIndex.t) (w : Q).

Lemma unroll_step_segments (came_from : gmap node node) (edge_data : gmap node Engine.EdgeData)
    (c : node) (acc acc' : list node * list Segment * Q * Q) :
  map_Forall (fun _ => edge_ok idx w) edge_data ->
  Forall (segment_ok idx w) acc.1.1.2 ->
  Engine.unroll_step came_from edge_data c acc = Ret acc' ->
  Forall (segment_ok idx w) acc'.1.1.2.
Proof.
  intros Hall Hacc. destruct acc as [[[nodes segs] tc] te]. unfold Engine.unroll_step.
  destruct (edge_data !! c) as [d|] eqn:Hd; [|by intros [= <-]].
  destruct (getitem came_from c) as [| |prev]; try done. simpl. intros [= <-]. simpl.
  apply Forall_app. split; [done|]. apply Forall_singleton.
  specialize (Hall c d Hd). unfold edge_ok in Hall. unfold segment_ok. simpl.
  destruct (Engine.ed_route d) as [| |svc r]; [done..|]. destruct Hall as [Hr Hc]. eauto.
Qed.

Lemma unroll_path_segments (fuel : nat) (end_node : node) (came_from : gmap node node)
    (edge_data : gmap node Engine.EdgeData) (res : list node * list Segment * Q * Q) :
  map_Forall (fun _ => edge_ok idx w) edge_data ->
  Engine._unroll_path fuel end_node came_from edge_data = Ret res ->
  Forall (segment_ok idx w) res.1.1.2.
Proof.
  intros Hall Hrun. unfold Engine._unroll_path, Engine.unroll_loop in Hrun.
  destruct (while_loop_invariant (Engine.unroll_body came_from edge_data)
              (fun st => Forall (segment_ok idx w) st.2.1.1.2))
    with (fuel := fuel) (st := (Some end_node, (@nil node, @nil Segment, 0%Q, 0%Q))) (r := res)
    as ([curr acc] & Hacc & Hexit); [| by constructor | done |].
  - intros [curr acc] st'. simpl. intros Hacc. destruct curr as [c|]; [|done].
    destruct (Engine.unroll_step came_from edge_data c acc) as [| |acc1] eqn:Hstep; try done.
    simpl. intros [= <-]. simpl. by eapply unroll_step_segments.
  - simpl in *. destruct curr as [c|]; [|by injection Hexit as <-].
    by destruct (Engine.unroll_step _ _ _ _).
Qed.

Lemma merge_at_segments (fuel : nat) (shipment : Shipment.t)
    (forward backward : Engine.SearchResult) (paths paths' : list MultiHopPath.t)
    (meet : node) :
  map_Forall (fun _ => edge_ok idx w) (Engine.edge forward) ->
  map_Forall (fun _ => edge_ok idx w) (Engine.edge backward) ->
  Forall (fun p => Forall (segment_ok idx w) (MultiHopPath.segments p)) paths ->
  Engine.merge_at fuel shipment forward backward paths meet = Ret paths' ->
  Forall (fun p => Forall (segment_ok idx w) (MultiHopPath.segments p)) paths'.
Proof.
  intros Hf Hb Hall. unfold Engine.merge_at. destruct (node_type meet); [|by intros [= <-]].
  destruct (Engine._unroll_path fuel meet (Engine.parent forward) (Engine.edge forward))
    as [| |[[[fn fs] fc] fe]] eqn:Hfu; try done. simpl.
  destruct (Engine._unroll_path fuel meet (Engine.parent backward) (Engine.edge backward))
    as [| |[[[bn bs] bc] be]] eqn:Hbu; try done. simpl.
  intros [= <-]. apply Forall_app. split; [done|]. apply Forall_singleton. simpl.
  apply Forall_app. split.
  - apply Forall_reverse. exact (unroll_path_segments _ _ _ _ _ Hf Hfu).
  - exact (unroll_path_segments _ _ _ _ _ Hb Hbu).
Qed.
End EngineSegments.

(** Every segment of a path the bidirectional engine returns carries the
    cost of its route at the weight of the shipment. *)
Lemma Engine_find_segments (sqrt : Q -> Q) (fuel : nat) (self : Engine.t)
    (shipment : Shipment.t) (maxCost maxETD : efloat) (maxHops topK : Z)
    (paths : list MultiHopPath.t) :
  Engine.find_mltihop_path sqrt fuel self shipment maxCost maxETD maxHops topK = Ret paths ->
  Forall (fun p => Forall (segment_ok (Engine.index self) (Shipment.weightKG shipment))
                          (MultiHopPath.segments p)) paths.
Proof.
  unfold Engine.find_mltihop_path.
  destruct (decide _); [|done]. destruct (decide _); [|done].
  destruct (Engine._astar_search _ _ _ _ _ _ true _ _ _) as [| |fwd] eqn:Hfwd; try done. simpl.
  destruct (Engine._astar_search _ _ _ _ _ _ false _ _ _) as [| |bwd] eqn:Hbwd; try done. simpl.
  destruct (Engine._merge_paths _ _ _ _ _) as [| |merged] eqn:Hmerge; try done. simpl.
  intros [= <-].
  apply astar_search_edges in Hfwd. apply astar_search_edges in Hbwd.
  assert (Hall : Forall (fun p => Forall (segment_ok (Engine.index self)
                                            (Shipment.weightKG shipment))
                                         (MultiHopPath.segments p)) merged).
  { revert Hmerge. unfold Engine._merge_paths.
    destruct (ofoldl _ _ _) as [| |ps] eqn:Hfold; try done. simpl.
    assert (Hps : Forall (fun p => Forall (segment_ok (Engine.index self)
                                             (Shipment.weightKG shipment))
                                          (MultiHopPath.segments p)) ps).
    { refine (ofoldl_preserves (Engine.merge_at fuel shipment fwd bwd)
                (Forall (fun p => Forall (segment_ok (Engine.index self)
                                            (Shipment.weightKG shipment))
                                         (MultiHopPath.segments p)))
                _ _ [] ps (Forall_nil_2 _) Hfold).
      intros a x a' _ Ha Hstep.
      exact (merge_at_segments _ _ fuel shipment fwd bwd a a' x Hfwd Hbwd Ha Hstep). }
    destruct ps; intros [= <-]; [|done]. repeat constructor. }
  rewrite Forall_forall in Hall. apply Forall_forall. intros p Hp%elem_of_slice_to.
  apply Hall. by rewrite stable_sort_perm in Hp.
Qed.

Section EngineNewEdges.
Context (sqrt : Q -> Q) (self : EngineNew.t) (shipment : Shipment.t) (maxCost : efloat).

Local Abbreviation okN := (edge_okN (EngineNew.index self) (Shipment.weightKG shipment)).
Local Abbreviation seg_okN :=
  (segment_ok (EngineNew.index self) (Shipment.weightKG shipment)).

Lemma expand_neighborN_edges current st nb st' :
  nb ∈ EngineNew._get_forward_neighbors self current shipment ->
  map_Forall (fun _ => okN) (EngineNew.edge_data st) ->
  EngineNew.expand_neighbor sqrt self shipment maxCost current st nb = Ret st' ->
  map_Forall (fun _ => okN) (EngineNew.edge_data st').
Proof.
  intros Hnb Hall. pose proof (EngineNew_neighbor_edge_ok _ _ _ _ Hnb) as Hok.
  destruct nb as [[[n c] e] i]. unfold EngineNew.expand_neighbor.
  destruct (getitem _ _) as [| |g]; try done. simpl.
  destruct (exceeds _ _); [by intros [= <-]|].
  destruct (EngineNew.improves _ _ _); [|by intros [= <-]].
  intros [= <-]. simpl. by apply map_Forall_insert_2.
Qed.

Lemma reconstruct_step_segments (edge_data : gmap node EngineNew.EdgeData) (current : node)
    (acc acc' : list node * list Segment * Q * Q * list string) :
  map_Forall (fun _ => okN) edge_data ->
  Forall seg_okN acc.1.1.1.2 ->
  EngineNew.reconstruct_step edge_data current acc = Ret acc' ->
  Forall seg_okN acc'.1.1.1.2.
Proof.
  intros Hall Hacc. destruct acc as [[[[nodes segs] tc] te] provs].
  unfold EngineNew.reconstruct_step, getitem.
  destruct (edge_data !! current) as [d|] eqn:Hd; [|done]. simpl.
  specialize (Hall current d Hd). unfold edge_okN in Hall.
  destruct (EngineNew.ed_info d) as [p|r|p]; intros [= <-]; simpl; try done.
  apply Forall_app. split; [done|]. apply Forall_singleton.
  unfold segment_ok. simpl. destruct Hall as [Hr Hc]. eauto.
Qed.

Lemma reconstruct_path_segments (fuel : nat) (current : node) (came_from : gmap node node)
    (edge_data : gmap node EngineNew.EdgeData) (path : MultiHopPath.t) :
  map_Forall (fun _ => okN) edge_data ->
  EngineNew._reconstruct_path fuel self current came_from edge_data shipment = Ret path ->
  Forall seg_okN (MultiHopPath.segments path).
Proof.
  intros Hall. unfold EngineNew._reconstruct_path, EngineNew.reconstruct_loop.
  destruct (while_loop _ _ _) as [| |[cur [[[[nodes segs] tc] te] provs]]] eqn:Hrun; try done.
  simpl. intros [= <-]. simpl. apply Forall_reverse.
  destruct (while_loop_invariant (EngineNew.reconstruct_body came_from edge_data)
              (fun st => Forall seg_okN st.2.1.1.1.2))
    with (fuel := fuel) (st := (current, (@nil node, @nil Segment, 0%Q, 0%Q, @nil string)))
         (r := (cur, (nodes, segs, tc, te, provs)))
    as ([cur' acc] & Hacc & Hexit); [| by constructor | done |].
  - intros [c acc] st'. simpl. intros Hacc. destruct (came_from !! c); [|done].
    destruct (EngineNew.reconstruct_step edge_data c acc) as [| |acc1] eqn:Hstep; try done.
    simpl. intros [= <-]. simpl. by eapply reconstruct_step_segments.
  - simpl in *. destruct (came_from !! cur'); [|by simplify_eq].
    by destruct (EngineNew.reconstruct_step _ _ _).
Qed.

Lemma bodyN_edges (fuel : nat) st st' :
  map_Forall (fun _ => okN) (EngineNew.edge_data st) ->
  EngineNew.loop_body sqrt fuel self shipment maxCost st = Ret (inl st') ->
  map_Forall (fun _ => okN) (EngineNew.edge_data st').
Proof.
  intros Hall. unfold EngineNew.loop_body.
  destruct (heappop (EngineNew.open_set st)) as [[[[f k] [[ty id] prov]] rest]|]; [|done].
  destruct (decide _).
  { by destruct (EngineNew._reconstruct_path _ _ _ _ _ _). }
  destruct (getitem _ _) as [| |g]; try done. simpl.
  destruct (exceeds g maxCost); [by intros [= <-]|].
  destruct (ofoldl _ _ _) as [| |st1] eqn:Hfold; try done. simpl. intros [= <-].
  refine (ofoldl_preserves
            (EngineNew.expand_neighbor sqrt self shipment maxCost (ty, id, prov))
            (fun a => map_Forall (fun _ => okN) (EngineNew.edge_data a))
            (EngineNew._get_forward_neighbors self (ty, id, prov) shipment)
            _ (EngineNew.set_open st rest) st1 Hall Hfold).
  intros a nb a' Hnb Ha Hstep.
  exact (expand_neighborN_edges (ty, id, prov) a nb a' Hnb Ha Hstep).
Qed.

Lemma EngineNew_find_segments (fuel : nat) (maxETD : efloat) (maxHops topK : Z)
    (paths : list MultiHopPath.t) :
  EngineNew.find_mltihop_path sqrt fuel self shipment maxCost maxETD maxHops topK = Ret paths ->
  Forall (fun p => Forall seg_okN (MultiHopPath.segments p)) paths.
Proof.
  unfold EngineNew.find_mltihop_path.
  destruct (decide _); [|done]. destruct (decide _); [|done].
  destruct (EngineNew.search_loop _ _ _ _ _ _) as [| |found] eqn:Hrun; try done. simpl.
  unfold EngineNew.search_loop in Hrun.
  destruct (while_loop_invariant _
              (fun st => map_Forall (fun _ => okN) (EngineNew.edge_data st))
              (bodyN_edges fuel) fuel _ found (map_Forall_empty _) Hrun)
    as (st' & Hall & Hexit).
  destruct found as [p|]; intros [= <-]; repeat constructor.
  revert Hexit. unfold EngineNew.loop_body.
  destruct (heappop (EngineNew.open_set st')) as [[[[f k] [[ty id] prov]] rest]|]; [|done].
  destruct (decide _).
  - destruct (EngineNew._reconstruct_path _ _ _ _ _ _) as [| |p'] eqn:Hrec; try done.
    simpl. intros [= ->]. by eapply reconstruct_path_segments.
  - destruct (getitem _ _) as [| |g]; try done. simpl.
    destruct (exceeds g maxCost); [done|]. by destruct (ofoldl _ _ _).
Qed.
End EngineNewEdges.


Lemma segment_ok_minCharge (idx : GraphIndex.t) (w : Q) (seg : Segment) :
  (w <= 0)%Q -> segment_ok idx w seg -> segment_at_minCharge idx seg.
Proof.
  intros Hw. unfold segment_ok, segment_at_minCharge.
  destruct (seg_providerId seg) as [p|]; [|done].
  intros (r & Hr & Hp & Hc). exists r. by rewrite <- (calculateCost_nonpositive r w Hw).
Qed.

(** C7: for a shipment of weight 0 [calculateCost] is [minCharge] itself
    (equal, not merely close: no levy, no other term); so is the cost of
    every transit edge either engine generates, and so is the cost of
    every transit segment of every path either engine returns, the other
    segments (entry and exit) costing 0. *)
Theorem C7_zero_weight_costs_minCharge (sqrt : Q -> Q) (self : Engine.t)
    (self' : EngineNew.t) (shipment : Shipment.t) :
  (Shipment.weightKG shipment == 0)%Q ->
  (forall r, ProviderZoneRoute.calculateCost r (Shipment.weightKG shipment)
             = ProviderZoneRoute.minCharge r)
  /\ (forall n maxHops forward nb svc r,
        nb ∈ Engine._get_neighbors self n shipment maxHops forward ->
        nb.2 = Engine.InfoZoneRoute svc r ->
        nb.1.1.2 = ProviderZoneRoute.minCharge r)
  /\ (forall n nb r,
        nb ∈ EngineNew._get_forward_neighbors self' n shipment ->
        nb.2 = EngineNew.InfoTransit r ->
        nb.1.1.2 = ProviderZoneRoute.minCharge r)
  /\ (forall fuel maxCost maxETD maxHops topK paths,
        Engine.find_mltihop_path sqrt fuel self shipment maxCost maxETD maxHops topK
        = Ret paths ->
        forall p seg, p ∈ paths -> seg ∈ MultiHopPath.segments p ->
                      segment_at_minCharge (Engine.index self) seg)
  /\ (forall fuel maxCost maxETD maxHops topK paths,
        EngineNew.find_mltihop_path sqrt fuel self' shipment maxCost maxETD maxHops topK
        = Ret paths ->
        forall p seg, p ∈ paths -> seg ∈ MultiHopPath.segments p ->
                      segment_at_minCharge (EngineNew.index self') seg).
Proof.
  intros Hw0. assert (Hw : (Shipment.weightKG shipment <= 0)%Q) by (rewrite Hw0; apply Qle_refl).
  split; [|split; [|split; [|split]]].
  - intros r. by apply calculateCost_nonpositive.
  - intros n maxHops forward nb svc r Hnb Hinfo.
    pose proof (Engine_neighbor_edge_ok _ _ _ _ _ _ Hnb) as Hok.
    unfold edge_ok in Hok. simpl in Hok. rewrite Hinfo in Hok. destruct Hok as [_ ->].
    by apply calculateCost_nonpositive.
  - intros n nb r Hnb Hinfo.
    pose proof (EngineNew_neighbor_edge_ok _ _ _ _ Hnb) as Hok.
    unfold edge_okN in Hok. simpl in Hok. rewrite Hinfo in Hok. destruct Hok as [_ ->].
    by apply calculateCost_nonpositive.
  - intros fuel maxCost maxETD maxHops topK paths Hfind p seg Hp Hseg.
    apply Engine_find_segments in Hfind. rewrite Forall_forall in Hfind.
    specialize (Hfind p Hp). rewrite Forall_forall in Hfind.
    eapply segment_ok_minCharge; [exact Hw | by apply Hfind].
  - intros fuel maxCost maxETD maxHops topK paths Hfind p seg Hp Hseg.
    apply EngineNew_find_segments in Hfind. rewrite Forall_forall in Hfind.
    specialize (Hfind p Hp). rewrite Forall_forall in Hfind.
    eapply segment_ok_minCharge; [exact Hw | by apply Hfind].
Qed.

Lemma C7_zero_weight_costs_minCharge_witness :
  exists p seg,
    EngineNew.find_mltihop_path sample_sqrt 30 sample_engine_new weightless_shipment
      PInf PInf 5 10 = Ret [p]
    /\ MultiHopPath.segments p = [seg]
    /\ seg_cost seg = 2%Q
    /\ segment_at_minCharge (EngineNew.index sample_engine_new) seg.
Proof.
  eexists. eexists. split; [vm_compute; reflexivity|]. split; [reflexivity|].
  split; [reflexivity|].
  refine (proj2 (proj2 (proj2 (proj2
            (C7_zero_weight_costs_minCharge sample_sqrt sample_engine sample_engine_new
               weightless_shipment _))))
            30 PInf PInf 5%Z 10%Z _ _ _ _ _ _).
  - reflexivity.
  - vm_compute. reflexivity.
  - by left.
  - by left.
Defined.
(** * Further properties

    ** The cost of a route *)

Lemma calculateCost_lower_bound (r : ProviderZoneRoute.t) (w : Q) :
  (0 <= ProviderZoneRoute.minCharge r)%Q -> (0 <= ProviderZoneRoute.fuelLevyPct r)%Q ->
  (ProviderZoneRoute.minCharge r <= ProviderZoneRoute.calculateCost r w)%Q.
Proof.
  intros Hmin Hlevy. destruct (Qlt_le_dec 0 w) as [Hw | Hw].
  - rewrite (calculateCost_positive r w Hw). cbv zeta.
    set (b := (ProviderZoneRoute.baseCharge r + w * ProviderZoneRoute.perKGRate r)%Q).
    pose proof (Q.le_max_r b (ProviderZoneRoute.minCharge r)) as Hmax.
    set (c := Qmax b (ProviderZoneRoute.minCharge r)) in *.
    assert (0 <= c * (ProviderZoneRoute.fuelLevyPct r / 100))%Q; [|lra].
    apply Qmult_le_0_compat; [lra|]. apply Qle_shift_div_l; [reflexivity | lra].
  - rewrite (calculateCost_nonpositive r w Hw). lra.
Qed.

(** *** Under rounding *)

Lemma in_range_0 : in_range 0.
Proof. split; unfold Qle; simpl; lia. Qed.

Lemma py_max_le_r (a b : Q) : (b <= py_max a b)%Q.
Proof. rewrite py_max_Qmax. apply Q.le_max_r. Qed.

Lemma py_max_mono (a1 a2 b : Q) : (a1 <= a2)%Q -> (py_max a1 b <= py_max a2 b)%Q.
Proof. intros H. rewrite !py_max_Qmax. by apply Q.max_le_compat_r. Qed.

Section RoundedCost.
Context (rnd : Q -> Q) (Hrnd : rounding rnd) (r : ProviderZoneRoute.t).
Hypothesis Hmin : (0 <= ProviderZoneRoute.minCharge r)%Q.
Hypothesis Hlevy : (0 <= ProviderZoneRoute.fuelLevyPct r)%Q.

Lemma rnd_nonneg (x : Q) : in_range x -> (0 <= x)%Q -> (0 <= rnd x)%Q.
Proof.
  intros Hx H0. rewrite <- (rnd_zero rnd Hrnd).
  by apply (rnd_mono rnd Hrnd); [apply in_range_0 | |].
Qed.

Lemma rounded_pct_nonneg :
  in_range (ProviderZoneRoute.fuelLevyPct r / 100) ->
  (0 <= rnd (ProviderZoneRoute.fuelLevyPct r / 100))%Q.
Proof.
  intros Hr. apply rnd_nonneg; [done|]. apply Qle_shift_div_l; [reflexivity | lra].
Qed.

Lemma rounded_cost_lower_bound (w : Q) :
  is_float rnd (ProviderZoneRoute.minCharge r) -> no_overflow rnd r w ->
  (ProviderZoneRoute.minCharge r <= Rounded.calculateCost rnd r w)%Q.
Proof.
  intros [Hm Hfix] (_ & _ & Hpct & Hlv & Hsum). unfold Rounded.calculateCost.
  destruct (Qle_bool w 0); [lra|]. cbv zeta in *.
  set (charge := py_max _ (ProviderZoneRoute.minCharge r)) in *.
  pose proof (py_max_le_r (rnd (ProviderZoneRoute.baseCharge r
                                + rnd (w * ProviderZoneRoute.perKGRate r)))
                (ProviderZoneRoute.minCharge r)) as Hc. fold charge in Hc.
  pose proof (rounded_pct_nonneg Hpct) as Hl.
  assert (Hp : (0 <= rnd (charge * rnd (ProviderZoneRoute.fuelLevyPct r / 100)))%Q).
  { apply rnd_nonneg; [done|]. apply Qmult_le_0_compat; lra. }
  rewrite <- Hfix at 1. apply (rnd_mono rnd Hrnd); [done | done | lra].
Qed.

Lemma rounded_cost_monotone (w1 w2 : Q) :
  (0 <= ProviderZoneRoute.perKGRate r)%Q ->
  is_float rnd (ProviderZoneRoute.minCharge r) ->
  no_overflow rnd r w1 -> no_overflow rnd r w2 -> (w1 <= w2)%Q ->
  (Rounded.calculateCost rnd r w1 <= Rounded.calculateCost rnd r w2)%Q.
Proof.
  intros Hrate Hfloat H1 H2 Hw.
  pose proof (rounded_cost_lower_bound w2 Hfloat H2) as Hlow.
  unfold Rounded.calculateCost in *.
  destruct (Qle_bool w1 0) eqn:E1; [done|].
  apply Qle_bool_false in E1.
  assert (E2 : Qle_bool w2 0 = false) by (apply Qle_bool_false; lra).
  rewrite E2. clear Hlow.
  destruct H1 as (Hp1 & Hs1 & Hpct & Hl1 & Ht1), H2 as (Hp2 & Hs2 & _ & Hl2 & Ht2).
  cbv zeta in *.
  set (l := rnd (ProviderZoneRoute.fuelLevyPct r / 100)) in *.
  assert (Hl : (0 <= l)%Q) by (by apply rounded_pct_nonneg).
  assert (Ha : (rnd (w1 * ProviderZoneRoute.perKGRate r)
                <= rnd (w2 * ProviderZoneRoute.perKGRate r))%Q).
  { apply (rnd_mono rnd Hrnd); [done | done |].
    assert (0 <= (w2 - w1) * ProviderZoneRoute.perKGRate r)%Q
      by (apply Qmult_le_0_compat; lra). lra. }
  set (a1 := rnd (w1 * ProviderZoneRoute.perKGRate r)) in *.
  set (a2 := rnd (w2 * ProviderZoneRoute.perKGRate r)) in *.
  assert (Hb : (rnd (ProviderZoneRoute.baseCharge r + a1)
                <= rnd (ProviderZoneRoute.baseCharge r + a2))%Q)
    by (apply (rnd_mono rnd Hrnd); [done | done | lra]).
  pose proof (py_max_mono _ _ (ProviderZoneRoute.minCharge r) Hb) as Hc.
  set (c1 := py_max (rnd (ProviderZoneRoute.baseCharge r + a1)) _) in *.
  set (c2 := py_max (rnd (ProviderZoneRoute.baseCharge r + a2)) _) in *.
  assert (Hq : (rnd (c1 * l) <= rnd (c2 * l))%Q).
  { apply (rnd_mono rnd Hrnd); [done | done |].
    assert (0 <= (c2 - c1) * l)%Q by (apply Qmult_le_0_compat; lra). lra. }
  apply (rnd_mono rnd Hrnd); [done | done | lra].
Qed.
End RoundedCost.

Lemma round_to_thousandth_rounding : rounding round_to_thousandth.
Proof.
  split.
  - intros x y _ _ Hxy.
    assert (H : (Qfloor (x * 1000 + (1 # 2)) <= Qfloor (y * 1000 + (1 # 2)))%Z)
      by (apply Qfloor_resp_le; lra).
    unfold round_to_thousandth, Qle. cbn [Qnum Qden]. lia.
  - reflexivity.
Qed.

(** With the identity as rounding the rounded cost is the exact one. *)
Lemma rounded_cost_exact (r : ProviderZoneRoute.t) (w : Q) :
  Rounded.calculateCost (fun x => x) r w = ProviderZoneRoute.calculateCost r w.
Proof. reflexivity. Qed.

(** X1: on floats, as long as no operation overflows: with a non-negative
    [minCharge] and a non-negative fuel levy, [calculateCost] never returns
    less than [minCharge], whatever the weight and however the operations
    round; in particular the cost is not negative. *)
Theorem X1_calculateCost_at_least_minCharge (rnd : Q -> Q) (r : ProviderZoneRoute.t)
    (w : Q) :
  rounding rnd -> is_float rnd (ProviderZoneRoute.minCharge r) ->
  (0 <= ProviderZoneRoute.minCharge r)%Q -> (0 <= ProviderZoneRoute.fuelLevyPct r)%Q ->
  no_overflow rnd r w ->
  (ProviderZoneRoute.minCharge r <= Rounded.calculateCost rnd r w)%Q
  /\ (0 <= Rounded.calculateCost rnd r w)%Q.
Proof.
  intros Hrnd Hfloat Hmin Hlevy Hno.
  pose proof (rounded_cost_lower_bound rnd Hrnd r Hmin Hlevy w Hfloat Hno). split; lra.
Qed.

Lemma X1_calculateCost_at_least_minCharge_witness :
  (Rounded.calculateCost round_to_thousandth third_route 100 == 48.478)%Q
  /\ (ProviderZoneRoute.minCharge third_route
      <= Rounded.calculateCost round_to_thousandth third_route 100)%Q
  /\ (0 <= Rounded.calculateCost round_to_thousandth third_route 100)%Q.
Proof.
  split; [by vm_compute|].
  apply (X1_calculateCost_at_least_minCharge round_to_thousandth third_route 100).
  - exact round_to_thousandth_rounding.
  - split; [split|]; by vm_compute.
  - by vm_compute.
  - by vm_compute.
  - repeat split; by vm_compute.
Defined.

(** X2: on floats, as long as no operation overflows: with a non-negative
    rate per kilogram, a non-negative [minCharge] and a non-negative fuel
    levy, a heavier shipment never costs less, however the operations
    round: [calculateCost] is monotone in the weight, also across the
    weight 0 where the formula changes. *)
Theorem X2_calculateCost_monotone_in_weight (rnd : Q -> Q) (r : ProviderZoneRoute.t)
    (w1 w2 : Q) :
  rounding rnd -> is_float rnd (ProviderZoneRoute.minCharge r) ->
  (0 <= ProviderZoneRoute.perKGRate r)%Q ->
  (0 <= ProviderZoneRoute.minCharge r)%Q -> (0 <= ProviderZoneRoute.fuelLevyPct r)%Q ->
  no_overflow rnd r w1 -> no_overflow rnd r w2 ->
  (w1 <= w2)%Q ->
  (Rounded.calculateCost rnd r w1 <= Rounded.calculateCost rnd r w2)%Q.
Proof.
  intros Hrnd Hfloat Hrate Hmin Hlevy H1 H2 Hw.
  by apply (rounded_cost_monotone rnd Hrnd r Hmin Hlevy).
Qed.

Lemma X2_calculateCost_monotone_in_weight_witness :
  (Rounded.calculateCost round_to_thousandth third_route 0
   <= Rounded.calculateCost round_to_thousandth third_route 100)%Q
  /\ (Rounded.calculateCost round_to_thousandth third_route 100
      <= Rounded.calculateCost round_to_thousandth third_route (301 # 3))%Q.
Proof.
  split.
  - apply (X2_calculateCost_monotone_in_weight round_to_thousandth third_route 0 100);
      [exact round_to_thousandth_rounding | split; [split|]; by vm_compute
      | by vm_compute | by vm_compute | by vm_compute
      | repeat split; by vm_compute | repeat split; by vm_compute | by vm_compute].
  - apply (X2_calculateCost_monotone_in_weight round_to_thousandth third_route 100
             (301 # 3));
      [exact round_to_thousandth_rounding | split; [split|]; by vm_compute
      | by vm_compute | by vm_compute | by vm_compute
      | repeat split; by vm_compute | repeat split; by vm_compute | by vm_compute].
Defined.
(** ** The paths of the bidirectional engine *)

Section EngineLinks.
Context (sqrt : Q -> Q) (self : Engine.t) (shipment : Shipment.t) (goalPC : string)
        (forward : bool) (maxCost maxETD : efloat) (maxHops : Z) (start : node).

Local Abbreviation lk st :=
  (links self shipment forward maxHops start (Engine.g_score st) (Engine.came_from st)
         (Engine.edge_data st)).

Lemma expand_neighbor_links current current_g st nb :
  nb ∈ Engine._get_neighbors self current shipment maxHops forward ->
  lk st /\ is_Some (Engine.g_score st !! current) ->
  let st' := Engine.expand_neighbor sqrt self goalPC maxCost maxETD current current_g st nb in
  lk st' /\ is_Some (Engine.g_score st' !! current).
Proof.
  intros Hnb [Hlk Hcur]. destruct nb as [[[n c] e] i].
  destruct (expand_neighbor_cases sqrt self goalPC maxCost maxETD current current_g st n c e i)
    as [-> | (_ & _ & _ & f & ->)]; [done|]. simpl.
  assert (Hsome : forall m, is_Some (Engine.g_score st !! m) ->
                            is_Some (<[n := (current_g + c)%Q]> (Engine.g_score st) !! m)).
  { intros m Hm. destruct (decide (n = m)) as [->|Hne].
    - rewrite lookup_insert_eq. eauto.
    - by rewrite lookup_insert_ne. }
  split; [|by apply Hsome].
  destruct Hlk as [Hs Hp He Hd]. constructor.
  - by apply Hsome.
  - intros m Hm. destruct (decide (n = m)) as [->|Hne].
    + right. rewrite lookup_insert_eq. eauto.
    + rewrite lookup_insert_ne in Hm by done. rewrite lookup_insert_ne by done. by apply Hp.
  - intros m p Hmp. destruct (decide (n = m)) as [->|Hne].
    + rewrite lookup_insert_eq in Hmp. injection Hmp as <-.
      split; [rewrite lookup_insert_eq; eauto|]. split; [by apply Hsome|].
      exists (m, c, e, i). split; [done|]. split; [done|]. by rewrite lookup_insert_eq.
    + rewrite lookup_insert_ne in Hmp by done.
      destruct (He m p Hmp) as (Hgm & Hgp & nb & Hin & Hn & Hed).
      split; [by apply Hsome|]. split; [by apply Hsome|].
      exists nb. split; [done|]. split; [done|]. by rewrite lookup_insert_ne.
  - intros m Hm. destruct (decide (n = m)) as [->|Hne].
    + rewrite lookup_insert_eq. eauto.
    + rewrite lookup_insert_ne in Hm by done. rewrite lookup_insert_ne by done. by apply Hd.
Qed.

Lemma body_links st st' :
  lk st ->
  Engine.loop_body sqrt self shipment goalPC forward maxCost maxETD maxHops st = Ret (inl st') ->
  lk st'.
Proof.
  intros Hlk. unfold Engine.loop_body.
  destruct (heappop (Engine.open_set st)) as [[[[f k] current] rest]|]; [|done].
  destruct (decide (current ∈ _)); [by intros [= <-]|].
  unfold getitem. simpl.
  destruct (Engine.g_score st !! current) as [g|] eqn:Hg; [|done]. simpl.
  destruct (exceeds g maxCost); [by intros [= <-]|].
  intros [= <-].
  apply (foldl_invariant _ (fun a => lk a /\ is_Some (Engine.g_score a !! current)));
    [|split; [done | simpl; eauto]].
  intros a nb Hnb Ha. by apply expand_neighbor_links.
Qed.

End EngineLinks.

Lemma astar_search_links (sqrt : Q -> Q) (fuel : nat) (self : Engine.t)
    (shipment : Shipment.t) (startPC goalPC : string) (forward : bool)
    (maxCost maxETD : efloat) (maxHops : Z) (res : Engine.SearchResult) :
  Engine._astar_search sqrt fuel self shipment startPC goalPC forward maxCost maxETD maxHops
  = Ret res ->
  links self shipment forward maxHops (Pc, startPC, None) (Engine.cost res)
        (Engine.parent res) (Engine.edge res).
Proof.
  unfold Engine._astar_search, Engine.search_loop.
  destruct (while_loop _ _ _) as [| e | st] eqn:Hrun; try done. simpl. intros [= <-]. simpl.
  assert (Hinit : links self shipment forward maxHops (Pc, startPC, None)
                    (Engine.g_score (Engine.initial_state (Pc, startPC, None)
                                       (Engine._heuristic sqrt self startPC goalPC)))
                    (Engine.came_from (Engine.initial_state (Pc, startPC, None)
                                         (Engine._heuristic sqrt self startPC goalPC)))
                    (Engine.edge_data (Engine.initial_state (Pc, startPC, None)
                                         (Engine._heuristic sqrt self startPC goalPC)))).
  { constructor; simpl.
    - rewrite lookup_singleton_eq. eauto.
    - intros n [g Hg]. apply lookup_singleton_Some in Hg as [<- _]. by left.
    - intros n p Hnp. by rewrite lookup_empty in Hnp.
    - intros n [d Hd]. by rewrite lookup_empty in Hd. }
  destruct (while_loop_invariant _
              (fun st => links self shipment forward maxHops (Pc, startPC, None)
                           (Engine.g_score st) (Engine.came_from st) (Engine.edge_data st))
              (body_links sqrt self shipment goalPC forward maxCost maxETD maxHops _)
              _ _ _ Hinit Hrun)
    as (st' & Hlk & Hbody).
  revert Hbody. unfold Engine.loop_body.
  destruct (heappop (Engine.open_set st')) as [[[[f k] current] rest]|].
  - destruct (decide _); [done|]. unfold getitem. simpl.
    destruct (_ !! current); [|done]. simpl. destruct (exceeds _ _); done.
  - by intros [= <-].
Qed.

(** *** Unrolling parents *)

Lemma parent_chain_head (p : gmap node node) (n : node) (l : list node) :
  parent_chain p n l -> exists l', l = n :: l'.
Proof. destruct 1; eauto. Qed.

Lemma unroll_loop_chain (fuel : nat) (cf : gmap node node) (ed : gmap node Engine.EdgeData)
    (n : node) (acc res : list node * list Segment * Q * Q) :
  Engine.unroll_loop fuel cf ed (Some n) acc = Ret res ->
  exists l, parent_chain cf n l
            /\ ofoldl (fun acc m => Engine.unroll_step cf ed m acc) acc l = Ret res.
Proof.
  unfold Engine.unroll_loop. revert n acc.
  induction fuel as [|fuel IH]; intros n acc; [done|]. simpl.
  destruct (Engine.unroll_step cf ed n acc) as [| e | acc'] eqn:Hstep; try done. simpl.
  destruct (cf !! n) as [m|] eqn:Hn.
  - intros (l & Hl & Hfold)%IH. exists (n :: l). split; [by econstructor|].
    simpl. rewrite Hstep. done.
  - destruct fuel as [|fuel]; [done|]. simpl. intros [= <-].
    exists [n]. split; [by constructor|]. simpl. by rewrite Hstep.
Qed.

Lemma unroll_step_eq (cf : gmap node node) (ed : gmap node Engine.EdgeData) (n : node)
    (nodes : list node) (segs : list Segment) (c e : Q) :
  Engine.unroll_step cf ed n (nodes, segs, c, e)
  = match ed !! n with
    | Some d =>
        prev ← getitem cf n;
        Ret (nodes ++ [n], segs ++ [unroll_segment prev n d],
             (c + Engine.ed_cost d)%Q, (e + Engine.ed_etd d)%Q)
    | None => Ret (nodes ++ [n], segs, c, e)
    end.
Proof. reflexivity. Qed.

Lemma ofoldl_cons {A B} (f : A -> B -> outcome A) (a : A) (x : B) (l : list B) :
  ofoldl f a (x :: l) = (a' ← f a x; ofoldl f a' l).
Proof. reflexivity. Qed.

Lemma unroll_along_spec (cf : gmap node node) (ed : gmap node Engine.EdgeData)
    (n : node) (l : list node) :
  parent_chain cf n l ->
  (forall m, is_Some (ed !! m) -> is_Some (cf !! m)) ->
  forall nodes segs c e,
    ofoldl (fun acc m => Engine.unroll_step cf ed m acc) (nodes, segs, c, e) l
    = Ret (nodes ++ l, segs ++ segs_along ed l,
           cost_sum c (segs_along ed l), etd_sum e (segs_along ed l)).
Proof.
  intros Hl Hdom. induction Hl as [n Hn | n m l Hn Hl IH]; intros nodes segs c e.
  - rewrite ofoldl_cons, unroll_step_eq. destruct (ed !! n) as [d|] eqn:Hd.
    { destruct (Hdom n) as [p Hp]; [eauto|]. congruence. }
    simpl. by rewrite app_nil_r.
  - destruct (parent_chain_head _ _ _ Hl) as [l' ->].
    rewrite ofoldl_cons, unroll_step_eq. cbn [segs_along].
    destruct (ed !! n) as [d|] eqn:Hd.
    + unfold getitem. rewrite Hn. cbn [mbind outcome_bind obind].
      rewrite IH. unfold cost_sum, etd_sum. rewrite !foldl_app. simpl.
      by rewrite <- !(assoc_L (++)).
    + cbn [mbind outcome_bind obind]. rewrite IH. simpl. by rewrite <- !(assoc_L (++)).
Qed.

Lemma unroll_path_spec (fuel : nat) (cf : gmap node node) (ed : gmap node Engine.EdgeData)
    (n : node) (res : list node * list Segment * Q * Q) :
  (forall m, is_Some (ed !! m) -> is_Some (cf !! m)) ->
  Engine._unroll_path fuel n cf ed = Ret res ->
  exists l, parent_chain cf n l
            /\ res = (l, segs_along ed l, cost_sum 0 (segs_along ed l),
                      etd_sum 0 (segs_along ed l)).
Proof.
  intros Hdom (l & Hl & Hfold)%unroll_loop_chain. exists l. split; [done|].
  rewrite (unroll_along_spec cf ed n l Hl Hdom) in Hfold. by injection Hfold as <-.
Qed.

Section MergeSpec.
Context (shipment : Shipment.t) (forward backward : Engine.SearchResult).
Hypothesis Hf : forall m, is_Some (Engine.edge forward !! m) ->
                          is_Some (Engine.parent forward !! m).
Hypothesis Hb : forall m, is_Some (Engine.edge backward !! m) ->
                          is_Some (Engine.parent backward !! m).

Lemma merge_at_spec (fuel : nat) (paths paths' : list MultiHopPath.t) (meet : node) :
  Engine.merge_at fuel shipment forward backward paths meet = Ret paths' ->
  paths' = paths
  \/ (node_type meet = Pc
      /\ exists lf lb,
           parent_chain (Engine.parent forward) meet lf
           /\ parent_chain (Engine.parent backward) meet lb
           /\ paths' = paths ++ [path_through shipment forward backward lf lb]).
Proof.
  unfold Engine.merge_at. destruct (node_type meet) eqn:Hty; [|intros [= <-]; by left].
  destruct (Engine._unroll_path fuel meet (Engine.parent forward) (Engine.edge forward))
    as [| e | f] eqn:Hfw; try done.
  apply (unroll_path_spec _ _ _ _ _ Hf) in Hfw as (lf & Hlf & ->).
  cbn [mbind outcome_bind obind].
  destruct (Engine._unroll_path fuel meet (Engine.parent backward) (Engine.edge backward))
    as [| e | b] eqn:Hbw; try done.
  apply (unroll_path_spec _ _ _ _ _ Hb) in Hbw as (lb & Hlb & ->).
  cbn [mbind outcome_bind obind]. intros [= <-]. right. split; [done|].
  exists lf, lb. done.
Qed.

Lemma merge_paths_spec (fuel : nat) (self : Engine.t) (paths : list MultiHopPath.t) :
  Engine._merge_paths fuel self shipment forward backward = Ret paths ->
  paths = [Engine.create_default_path self shipment]
  \/ (paths <> []
      /\ Forall (fun p => exists meet, met_at shipment forward backward meet p) paths).
Proof.
  unfold Engine._merge_paths.
  destruct (ofoldl _ _ _) as [| e | merged] eqn:Hfold; try done.
  cbn [mbind outcome_bind obind].
  assert (Hall : Forall (fun p => exists meet, met_at shipment forward backward meet p)
                        merged).
  { revert Hfold.
    apply (ofoldl_preserves _
             (Forall (fun p => exists meet, met_at shipment forward backward meet p)));
      [|done].
    intros a meet a' Hmeet Ha Hstep.
    apply merge_at_spec in Hstep as [-> | (Hty & lf & lb & Hlf & Hlb & ->)]; [done|].
    apply Forall_app. split; [done|]. apply Forall_singleton.
    exists meet. apply elem_of_elements, elem_of_intersection in Hmeet as [? ?].
    split; [done|]. split; [done|]. split; [done|]. by exists lf, lb. }
  destruct merged as [|p merged]; intros [= <-]; [by left | by right].
Qed.
End MergeSpec.

Lemma elem_of_stable_sort {A} (leb : A -> A -> bool) (x : A) (l : list A) :
  x ∈ stable_sort leb l <-> x ∈ l.
Proof. by rewrite (stable_sort_perm leb l). Qed.

(** What [find_mltihop_path] of the bidirectional engine hands back: the
    fallback, or paths built at meeting postcodes of the two explorations. *)
Lemma Engine_find_spec (sqrt : Q -> Q) (fuel : nat) (self : Engine.t)
    (shipment : Shipment.t) (maxCost maxETD : efloat) (maxHops topK : Z)
    (paths : list MultiHopPath.t) :
  Engine.find_mltihop_path sqrt fuel self shipment maxCost maxETD maxHops topK = Ret paths ->
  exists forward backward,
    Engine._astar_search sqrt fuel self shipment (Shipment.originPC shipment)
      (Shipment.destPC shipment) true maxCost maxETD maxHops = Ret forward
    /\ Engine._astar_search sqrt fuel self shipment (Shipment.destPC shipment)
         (Shipment.originPC shipment) false maxCost maxETD maxHops = Ret backward
    /\ forall p, p ∈ paths ->
         p = Engine.create_default_path self shipment
         \/ exists meet, met_at shipment forward backward meet p.
Proof.
  unfold Engine.find_mltihop_path.
  destruct (decide _); [|done]. destruct (decide _); [|done].
  destruct (Engine._astar_search _ _ _ _ _ _ true _ _ _) as [| |fwd] eqn:Hfwd; try done.
  cbn [mbind outcome_bind obind].
  destruct (Engine._astar_search _ _ _ _ _ _ false _ _ _) as [| |bwd] eqn:Hbwd; try done.
  cbn [mbind outcome_bind obind].
  destruct (Engine._merge_paths _ _ _ _ _) as [| |merged] eqn:Hmerge; try done.
  cbn [mbind outcome_bind obind]. intros [= <-].
  exists fwd, bwd. split; [done|]. split; [done|].
  intros p Hp%elem_of_slice_to%elem_of_stable_sort.
  apply merge_paths_spec in Hmerge as [-> | [_ Hall]].
  - apply list_elem_of_singleton in Hp as ->. by left.
  - right. rewrite Forall_forall in Hall. by apply Hall.
  - apply (lk_dom _ _ _ _ _ _ _ _ (astar_search_links _ _ _ _ _ _ _ _ _ _ _ Hfwd)).
  - apply (lk_dom _ _ _ _ _ _ _ _ (astar_search_links _ _ _ _ _ _ _ _ _ _ _ Hbwd)).
Qed.

(** *** Chains under the link invariant *)

Lemma walk_mono (R R' : node -> node -> Prop) (l : list node) :
  (forall a b, R a b -> R' a b) -> walk R l -> walk R' l.
Proof. intros HR. induction 1; constructor; auto. Qed.

Lemma walk_snoc (R : node -> node -> Prop) (l : list node) (a b : node) :
  walk R (l ++ [a]) -> R a b -> walk R (l ++ [a; b]).
Proof.
  intros Hw Hab. induction l as [|x l IH]; simpl in *.
  - by repeat constructor.
  - destruct l as [|y l]; simpl in *.
    + inversion_clear Hw. by repeat constructor.
    + inversion_clear Hw. constructor; [done|]. by apply IH.
Qed.

Lemma walk_reverse (R : node -> node -> Prop) (l : list node) :
  walk R l -> walk (flip R) (reverse l).
Proof.
  induction 1 as [| a | a b l Hab Hw IH]; [constructor | constructor |].
  rewrite !reverse_cons. rewrite reverse_cons in IH.
  rewrite <- (assoc_L (++)). simpl. by apply walk_snoc.
Qed.

Lemma walk_app (R : node -> node -> Prop) (l1 l2 : list node) (x : node) :
  walk R (l1 ++ [x]) -> walk R (x :: l2) -> walk R (l1 ++ x :: l2).
Proof.
  intros H1 H2. induction l1 as [|a l1 IH]; simpl in *; [done|].
  destruct l1 as [|b l1]; simpl in *.
  - inversion_clear H1. by constructor.
  - inversion_clear H1. constructor; [done|]. by apply IH.
Qed.

Lemma parent_chain_walk (cf : gmap node node) (n : node) (l : list node) :
  parent_chain cf n l -> walk (fun a b => cf !! a = Some b) l.
Proof.
  induction 1 as [n Hn | n m l Hn Hl IH]; [constructor|].
  destruct (parent_chain_head _ _ _ Hl) as [l' ->]. by constructor.
Qed.

Lemma parent_chain_last (cf : gmap node node) (n : node) (l : list node) :
  parent_chain cf n l -> exists r, last l = Some r /\ cf !! r = None /\ r ∈ l.
Proof.
  induction 1 as [n Hn | n m l Hn Hl (r & Hr & Hnone & Hin)].
  - exists n. split; [done|]. split; [done|]. by left.
  - exists r. destruct (parent_chain_head _ _ _ Hl) as [l' ->].
    split; [by rewrite last_cons_cons|]. split; [done|]. by right.
Qed.

Section ChainLinks.
Context (self : Engine.t) (shipment : Shipment.t) (forward : bool) (maxHops : Z)
        (start : node) (g : gmap node Q) (cf : gmap node node)
        (ed : gmap node Engine.EdgeData).
Hypothesis Hlk : links self shipment forward maxHops start g cf ed.

Lemma parent_chain_dom (n : node) (l : list node) :
  parent_chain cf n l -> is_Some (g !! n) -> forall m, m ∈ l -> is_Some (g !! m).
Proof.
  induction 1 as [n Hn | n m l Hn Hl IH]; intros Hg x Hx.
  - by apply list_elem_of_singleton in Hx as ->.
  - apply elem_of_cons in Hx as [-> | Hx]; [done|].
    apply IH; [|done]. by destruct (lk_edge _ _ _ _ _ _ _ _ Hlk n m Hn) as (_ & ? & _).
Qed.

Lemma parent_chain_ends_at_start (n : node) (l : list node) :
  parent_chain cf n l -> is_Some (g !! n) -> last l = Some start.
Proof.
  intros Hl Hg. destruct (parent_chain_last _ _ _ Hl) as (r & Hr & Hnone & Hin).
  rewrite Hr. f_equal.
  destruct (lk_parent _ _ _ _ _ _ _ _ Hlk r) as [-> | [p Hp]]; [|done|congruence].
  by eapply parent_chain_dom.
Qed.

Lemma parent_chain_edges (n : node) (l : list node) :
  parent_chain cf n l ->
  walk (fun a b => exists nb, nb ∈ Engine._get_neighbors self b shipment maxHops forward
                              /\ nb.1.1.1 = a
                              /\ ed !! a = Some (Engine.mkEdge nb.1.1.2 nb.1.2 nb.2)) l.
Proof.
  intros Hl. apply (walk_mono (fun a b => cf !! a = Some b)); [|by eapply parent_chain_walk].
  intros a b Hab. by destruct (lk_edge _ _ _ _ _ _ _ _ Hlk a b Hab) as (_ & _ & ?).
Qed.
End ChainLinks.

Lemma path_through_nodes (shipment : Shipment.t) (forward backward : Engine.SearchResult)
    (meet : node) (lf lb : list node) :
  parent_chain (Engine.parent forward) meet lf ->
  parent_chain (Engine.parent backward) meet lb ->
  exists tf, lf = meet :: tf
             /\ MultiHopPath.nodes (path_through shipment forward backward lf lb)
                = reverse tf ++ lb.
Proof.
  intros [tf ->]%parent_chain_head [tb ->]%parent_chain_head. exists tf. split; [done|].
  simpl. rewrite reverse_cons, <- (assoc_L (++)). done.
Qed.

(** X3: every path the bidirectional [find_mltihop_path] returns, the
    fallback included, has the origin postcode vertex as its first node
    and the destination postcode vertex as its last node. *)
Theorem X3_bidirectional_paths_join_origin_and_destination
    (sqrt : Q -> Q) (fuel : nat) (self : Engine.t)
    (shipment : Shipment.t) (maxCost maxETD : efloat) (maxHops topK : Z)
    (paths : list MultiHopPath.t) :
  Engine.find_mltihop_path sqrt fuel self shipment maxCost maxETD maxHops topK = Ret paths ->
  forall p, p ∈ paths ->
    head (MultiHopPath.nodes p) = Some (Pc, Shipment.originPC shipment, None)
    /\ last (MultiHopPath.nodes p) = Some (Pc, Shipment.destPC shipment, None).
Proof.
  intros (fwd & bwd & Hfwd & Hbwd & Hall)%Engine_find_spec p Hp.
  destruct (Hall p Hp) as [-> | (meet & Hty & Hmf & Hmb & lf & lb & Hlf & Hlb & ->)];
    [done|].
  apply astar_search_links in Hfwd, Hbwd.
  apply elem_of_dom in Hmf, Hmb.
  pose proof (parent_chain_ends_at_start _ _ _ _ _ _ _ _ Hfwd meet lf Hlf Hmf) as Hlastf.
  pose proof (parent_chain_ends_at_start _ _ _ _ _ _ _ _ Hbwd meet lb Hlb Hmb) as Hlastb.
  destruct (path_through_nodes shipment fwd bwd meet lf lb Hlf Hlb) as (tf & -> & ->).
  destruct (parent_chain_head _ _ _ Hlb) as [tb ->].
  split.
  - etrans; [|exact Hlastf]. rewrite <- head_reverse, reverse_cons.
    by destruct (reverse tf).
  - etrans; [|exact Hlastb]. by rewrite last_app_cons.
Qed.

(** X4: every path the bidirectional [find_mltihop_path] returns is the
    fallback or splits at a postcode vertex where the two explorations
    met: up to that vertex each node is followed by one of its forward
    neighbours, and from it on each node is a backward neighbour of the
    node that follows it. *)
Theorem X4_bidirectional_paths_follow_edges
    (sqrt : Q -> Q) (fuel : nat) (self : Engine.t)
    (shipment : Shipment.t) (maxCost maxETD : efloat) (maxHops topK : Z)
    (paths : list MultiHopPath.t) :
  Engine.find_mltihop_path sqrt fuel self shipment maxCost maxETD maxHops topK = Ret paths ->
  forall p, p ∈ paths ->
    p = Engine.create_default_path self shipment
    \/ exists before meet after,
         MultiHopPath.nodes p = before ++ meet :: after
         /\ node_type meet = Pc
         /\ walk (forward_edge self shipment maxHops) (before ++ [meet])
         /\ walk (backward_edge self shipment maxHops) (meet :: after).
Proof.
  intros (fwd & bwd & Hfwd & Hbwd & Hall)%Engine_find_spec p Hp.
  destruct (Hall p Hp) as [-> | (meet & Hty & Hmf & Hmb & lf & lb & Hlf & Hlb & ->)];
    [by left | right].
  apply astar_search_links in Hfwd, Hbwd.
  pose proof (parent_chain_edges _ _ _ _ _ _ _ _ Hfwd meet lf Hlf) as Hwf.
  pose proof (parent_chain_edges _ _ _ _ _ _ _ _ Hbwd meet lb Hlb) as Hwb.
  destruct (path_through_nodes shipment fwd bwd meet lf lb Hlf Hlb) as (tf & -> & ->).
  destruct (parent_chain_head _ _ _ Hlb) as [tb ->].
  exists (reverse tf), meet, tb. split; [done|]. split; [done|]. split.
  - apply walk_reverse in Hwf. rewrite reverse_cons in Hwf.
    eapply walk_mono; [|exact Hwf]. intros a b (nb & Hnb & Hn & _). by exists nb.
  - eapply walk_mono; [|exact Hwb]. intros a b (nb & Hnb & Hn & _). by exists nb.
Qed.

(** *** Sums over segments *)

Lemma cost_sum_from (c : Q) (segs : list Segment) :
  (cost_sum c segs == c + cost_sum 0 segs)%Q.
Proof.
  unfold cost_sum. revert c. induction segs as [|s segs IH]; intros c; simpl; [lra|].
  rewrite (IH (c + seg_cost s)%Q), (IH (0 + seg_cost s)%Q). lra.
Qed.

Lemma cost_sum_app (a b : list Segment) :
  (cost_sum 0 (a ++ b) == cost_sum 0 a + cost_sum 0 b)%Q.
Proof.
  unfold cost_sum at 1. rewrite foldl_app. fold (cost_sum 0 a).
  apply (cost_sum_from (cost_sum 0 a) b).
Qed.

Lemma cost_sum_reverse (a : list Segment) : (cost_sum 0 (reverse a) == cost_sum 0 a)%Q.
Proof.
  induction a as [|s a IH]; [done|].
  rewrite reverse_cons, cost_sum_app, IH. unfold cost_sum at 2 3. simpl.
  fold (cost_sum (0 + seg_cost s) a). rewrite (cost_sum_from (0 + seg_cost s)%Q a). lra.
Qed.

Lemma etd_sum_from (e : Q) (segs : list Segment) :
  (etd_sum e segs == e + etd_sum 0 segs)%Q.
Proof.
  unfold etd_sum. revert e. induction segs as [|s segs IH]; intros e; simpl; [lra|].
  rewrite (IH (e + seg_etd s)%Q), (IH (0 + seg_etd s)%Q). lra.
Qed.

Lemma etd_sum_app (a b : list Segment) :
  (etd_sum 0 (a ++ b) == etd_sum 0 a + etd_sum 0 b)%Q.
Proof.
  unfold etd_sum at 1. rewrite foldl_app. fold (etd_sum 0 a).
  apply (etd_sum_from (etd_sum 0 a) b).
Qed.

Lemma etd_sum_reverse (a : list Segment) : (etd_sum 0 (reverse a) == etd_sum 0 a)%Q.
Proof.
  induction a as [|s a IH]; [done|].
  rewrite reverse_cons, etd_sum_app, IH. unfold etd_sum at 2 3. simpl.
  fold (etd_sum (0 + seg_etd s) a). rewrite (etd_sum_from (0 + seg_etd s)%Q a). lra.
Qed.

Lemma segs_along_length (ed : gmap node Engine.EdgeData) (l : list node) :
  walk (fun a b => is_Some (ed !! a)) l -> length (segs_along ed l) = pred (length l).
Proof.
  induction 1 as [| a | a b l [d Hd] Hw IH]; [done | done |].
  cbn [segs_along]. rewrite Hd. simpl in *. by rewrite IH.
Qed.

Lemma Engine_paths_totals (sqrt : Q -> Q) (fuel : nat) (self : Engine.t)
    (shipment : Shipment.t) (maxCost maxETD : efloat) (maxHops topK : Z)
    (paths : list MultiHopPath.t) :
  Engine.find_mltihop_path sqrt fuel self shipment maxCost maxETD maxHops topK = Ret paths ->
  forall p, p ∈ paths ->
    p = Engine.create_default_path self shipment
    \/ exists c e,
         MultiHopPath.totalCost p = Fin c /\ MultiHopPath.totalETD p = Fin e
         /\ (c == cost_sum 0 (MultiHopPath.segments p))%Q
         /\ (e == etd_sum 0 (MultiHopPath.segments p))%Q
         /\ length (MultiHopPath.nodes p) = S (length (MultiHopPath.segments p)).
Proof.
  intros (fwd & bwd & Hfwd & Hbwd & Hall)%Engine_find_spec p Hp.
  destruct (Hall p Hp) as [-> | (meet & Hty & Hmf & Hmb & lf & lb & Hlf & Hlb & ->)];
    [by left | right].
  apply astar_search_links in Hfwd, Hbwd.
  pose proof (parent_chain_edges _ _ _ _ _ _ _ _ Hfwd meet lf Hlf) as Hwf.
  pose proof (parent_chain_edges _ _ _ _ _ _ _ _ Hbwd meet lb Hlb) as Hwb.
  eexists _, _. split; [reflexivity|]. split; [reflexivity|]. simpl.
  split; [by rewrite cost_sum_app, cost_sum_reverse|].
  split; [by rewrite etd_sum_app, etd_sum_reverse|].
  rewrite !length_app, !length_reverse, length_drop.
  rewrite !segs_along_length.
  - destruct (parent_chain_head _ _ _ Hlf) as [tf ->].
    destruct (parent_chain_head _ _ _ Hlb) as [tb ->]. simpl. lia.
  - eapply walk_mono; [|exact Hwb]. intros a b (nb & _ & _ & ->). eauto.
  - eapply walk_mono; [|exact Hwf]. intros a b (nb & _ & _ & ->). eauto.
Qed.

(** *** Segments and the routes behind them *)

Lemma init_outgoing_key (postcodes : list Postcode.t)
    (providerZones : list (string * list ProviderZone.t))
    (zoneRoutes : list (string * list ProviderZoneRoute.t))
    (prov : option string) (z : string) (r : ProviderZoneRoute.t) :
  let idx := GraphIndex.init postcodes providerZones zoneRoutes in
  r ∈ GraphIndex.get_OutgoingRoutes idx prov z ->
  indexed_route idx r /\ prov = Some (ProviderZoneRoute.providerId r)
  /\ ProviderZoneRoute.fromZone r = z.
Proof.
  intros idx Hr. destruct prov as [p|]; [|by apply not_elem_of_nil in Hr].
  simpl in Hr. split.
  - apply lookup_default_elem in Hr as (l & Hl & Hin). exists (p, z), l. eauto.
  - unfold idx in Hr. simpl in Hr. rewrite buildZoneAdjacency_all in Hr.
    apply list_elem_of_filter in Hr as [[= <- <-] _]. done.
Qed.

Lemma init_incoming_key (postcodes : list Postcode.t)
    (providerZones : list (string * list ProviderZone.t))
    (zoneRoutes : list (string * list ProviderZoneRoute.t))
    (prov : option string) (z : string) (r : ProviderZoneRoute.t) :
  let idx := GraphIndex.init postcodes providerZones zoneRoutes in
  r ∈ GraphIndex.get_IncomingRoutes idx prov z ->
  indexed_route idx r /\ prov = Some (ProviderZoneRoute.providerId r)
  /\ ProviderZoneRoute.toZone r = z.
Proof.
  intros idx Hr. destruct prov as [p|]; [|by apply not_elem_of_nil in Hr].
  simpl in Hr. split.
  - apply lookup_default_elem in Hr as (l & Hl & Hin). exists (p, z), l. eauto.
  - unfold idx in Hr. simpl in Hr. rewrite buildReverseZoneAdjacency_all in Hr.
    apply list_elem_of_filter in Hr as [[= <- <-] _]. done.
Qed.

Section Orientation.
Context (self : Engine.t) (shipment : Shipment.t) (maxHops : Z)
        (postcodes : list Postcode.t)
        (providerZones : list (string * list ProviderZone.t))
        (zoneRoutes : list (string * list ProviderZoneRoute.t)).
Hypothesis Hidx : Engine.index self = GraphIndex.init postcodes providerZones zoneRoutes.

Local Abbreviation w := (Shipment.weightKG shipment).

Lemma forward_edge_segment (a b : node) (nb : Engine.neighbor) :
  nb ∈ Engine._get_neighbors self b shipment maxHops true -> nb.1.1.1 = a ->
  in_travel_order (Engine.index self) w
    (unroll_segment b a (Engine.mkEdge nb.1.1.2 nb.1.2 nb.2)).
Proof.
  destruct b as [[t id] prov]. unfold Engine._get_neighbors. destruct t.
  - intros ([p zc] & -> & _)%list_elem_of_fmap <-. by left.
  - intros [(r & -> & Hr)%list_elem_of_fmap | (pc & -> & _)%list_elem_of_fmap]%elem_of_app <-;
      [|by left].
    right. exists r. rewrite Hidx in Hr |- *.
    apply init_outgoing_key in Hr as (Hi & -> & <-). done.
Qed.

Lemma backward_edge_segment (a b : node) (nb : Engine.neighbor) :
  nb ∈ Engine._get_neighbors self b shipment maxHops false -> nb.1.1.1 = a ->
  against_travel_order (Engine.index self) w
    (unroll_segment b a (Engine.mkEdge nb.1.1.2 nb.1.2 nb.2)).
Proof.
  destruct b as [[t id] prov]. unfold Engine._get_neighbors. destruct t.
  - intros ([p zc] & -> & _)%list_elem_of_fmap <-. by left.
  - intros [(r & -> & Hr)%list_elem_of_fmap | (pc & -> & _)%list_elem_of_fmap]%elem_of_app <-;
      [|by left].
    right. exists r. rewrite Hidx in Hr |- *.
    apply init_incoming_key in Hr as (Hi & -> & <-). done.
Qed.
End Orientation.

Lemma segs_along_Forall (ed : gmap node Engine.EdgeData) (P : Segment -> Prop)
    (l : list node) :
  walk (fun a b => exists d, ed !! a = Some d /\ P (unroll_segment b a d)) l ->
  Forall P (segs_along ed l).
Proof.
  induction 1 as [| a | a b l (d & Hd & HP) Hw IH]; [constructor | constructor |].
  cbn [segs_along]. rewrite Hd. simpl. by constructor.
Qed.

(** X6: on an index built by [GraphIndex], the segments of a path of the
    bidirectional engine split in two: in the first part (from the
    forward exploration) a route segment names [fromZone] and [toZone] as
    its route does, in the second part (from the backward exploration) a
    route segment names the destination zone of its route as [fromZone]
    and the origin zone as [toZone].  Every route segment carries the
    provider, the cost at the shipment's weight and the hours of a route
    of the index. *)
Theorem X6_backward_half_segments_are_reversed
    (sqrt : Q -> Q) (fuel : nat) (self : Engine.t)
    (shipment : Shipment.t) (maxCost maxETD : efloat) (maxHops topK : Z)
    (postcodes : list Postcode.t) (providerZones : list (string * list ProviderZone.t))
    (zoneRoutes : list (string * list ProviderZoneRoute.t))
    (paths : list MultiHopPath.t) :
  Engine.index self = GraphIndex.init postcodes providerZones zoneRoutes ->
  Engine.find_mltihop_path sqrt fuel self shipment maxCost maxETD maxHops topK = Ret paths ->
  forall p, p ∈ paths ->
    exists fs bs,
      MultiHopPath.segments p = fs ++ bs
      /\ Forall (in_travel_order (Engine.index self) (Shipment.weightKG shipment)) fs
      /\ Forall (against_travel_order (Engine.index self) (Shipment.weightKG shipment)) bs.
Proof.
  intros Hidx (fwd & bwd & Hfwd & Hbwd & Hall)%Engine_find_spec p Hp.
  destruct (Hall p Hp) as [-> | (meet & Hty & Hmf & Hmb & lf & lb & Hlf & Hlb & ->)].
  { exists [], []. by repeat constructor. }
  apply astar_search_links in Hfwd, Hbwd.
  pose proof (parent_chain_edges _ _ _ _ _ _ _ _ Hfwd meet lf Hlf) as Hwf.
  pose proof (parent_chain_edges _ _ _ _ _ _ _ _ Hbwd meet lb Hlb) as Hwb.
  eexists _, _. split; [reflexivity|]. split.
  - apply Forall_reverse, segs_along_Forall.
    eapply walk_mono; [|exact Hwf]. intros a b (nb & Hnb & Hn & Hed).
    eexists. split; [exact Hed|].
    by eapply forward_edge_segment.
  - apply segs_along_Forall.
    eapply walk_mono; [|exact Hwb]. intros a b (nb & Hnb & Hn & Hed).
    eexists. split; [exact Hed|].
    by eapply backward_edge_segment.
Qed.

(** *** Providers and hops *)

Lemma remove_dups_NoDup {A} `{EqDecision A} (l : list A) :
  NoDup l -> remove_dups l = l.
Proof.
  induction 1 as [|x l Hx Hl IH]; [done|]. simpl.
  destruct (decide_rel _ _ _); [done|]. by rewrite IH.
Qed.

Lemma init_providers (shipmentId : string) (c e : efloat) (nodes : list node)
    (segs : list Segment) :
  let providers := remove_dups (omap seg_providerId segs) in
  let p := MultiHopPath.init shipmentId c e nodes segs providers (length providers) in
  MultiHopPath.numHops p = length (MultiHopPath.providersInvolved p)
  /\ NoDup (MultiHopPath.providersInvolved p)
  /\ (forall q, q ∈ MultiHopPath.providersInvolved p
                <-> exists seg, seg ∈ MultiHopPath.segments p /\ seg_providerId seg = Some q)
  /\ MultiHopPath.reliabilityScore p = 1%Q.
Proof.
  intros providers p. simpl.
  assert (Hfix : remove_dups providers = providers)
    by apply remove_dups_NoDup, NoDup_remove_dups.
  rewrite Hfix. split; [done|]. split; [apply NoDup_remove_dups|]. split; [|done].
  intros q. unfold providers. by rewrite elem_of_remove_dups, list_elem_of_omap.
Qed.

Lemma Engine_paths_providers (sqrt : Q -> Q) (fuel : nat) (self : Engine.t)
    (shipment : Shipment.t) (maxCost maxETD : efloat) (maxHops topK : Z)
    (paths : list MultiHopPath.t) :
  Engine.find_mltihop_path sqrt fuel self shipment maxCost maxETD maxHops topK = Ret paths ->
  forall p, p ∈ paths ->
    MultiHopPath.numHops p = length (MultiHopPath.providersInvolved p)
    /\ NoDup (MultiHopPath.providersInvolved p)
    /\ (forall q, q ∈ MultiHopPath.providersInvolved p
                  <-> exists seg, seg ∈ MultiHopPath.segments p
                                  /\ seg_providerId seg = Some q)
    /\ MultiHopPath.reliabilityScore p = 1%Q.
Proof.
  intros (fwd & bwd & Hfwd & Hbwd & Hall)%Engine_find_spec p Hp.
  destruct (Hall p Hp) as [-> | (meet & Hty & Hmf & Hmb & lf & lb & Hlf & Hlb & ->)].
  - apply (init_providers _ PInf PInf _ []).
  - apply init_providers.
Qed.

Lemma X3_bidirectional_paths_join_origin_and_destination_witness :
  exists paths,
    Engine.find_mltihop_path sample_sqrt 30 sample_engine sample_shipment PInf PInf 5 10
    = Ret paths
    /\ length paths = 3
    /\ forall p, p ∈ paths ->
         head (MultiHopPath.nodes p) = Some (Pc, "2000", None)
         /\ last (MultiHopPath.nodes p) = Some (Pc, "3000", None).
Proof.
  eexists. split; [vm_compute; reflexivity|]. split; [reflexivity|].
  apply (X3_bidirectional_paths_join_origin_and_destination sample_sqrt 30 sample_engine
           sample_shipment PInf PInf 5 10).
  vm_compute. reflexivity.
Defined.

Lemma X4_bidirectional_paths_follow_edges_witness :
  exists paths,
    Engine.find_mltihop_path sample_sqrt 30 sample_engine sample_shipment PInf PInf 5 10
    = Ret paths
    /\ length paths = 3
    /\ forall p, p ∈ paths ->
         p = Engine.create_default_path sample_engine sample_shipment
         \/ exists before meet after,
              MultiHopPath.nodes p = before ++ meet :: after
              /\ node_type meet = Pc
              /\ walk (forward_edge sample_engine sample_shipment 5) (before ++ [meet])
              /\ walk (backward_edge sample_engine sample_shipment 5) (meet :: after).
Proof.
  eexists. split; [vm_compute; reflexivity|]. split; [reflexivity|].
  apply (X4_bidirectional_paths_follow_edges sample_sqrt 30 sample_engine sample_shipment
           PInf PInf 5 10).
  vm_compute. reflexivity.
Defined.

(** X5: a path the bidirectional [find_mltihop_path] returns is either the
    fallback (infinite totals, the two postcode vertices, no segment) or
    has one segment for each step between two consecutive nodes, those up
    to the meeting vertex first, and its totals are added as
    [_unroll_path] adds them: the segments up to the meeting vertex from
    the last to the first, starting at 0, the segments after it from the
    first to the last, starting at 0, and then the two sums. *)
Theorem X5_bidirectional_totals_are_segment_sums (sqrt : Q -> Q) (fuel : nat)
    (self : Engine.t) (shipment : Shipment.t) (maxCost maxETD : efloat) (maxHops topK : Z)
    (paths : list MultiHopPath.t) :
  Engine.find_mltihop_path sqrt fuel self shipment maxCost maxETD maxHops topK = Ret paths ->
  forall p, p ∈ paths ->
    (MultiHopPath.totalCost p = PInf /\ MultiHopPath.totalETD p = PInf
     /\ MultiHopPath.nodes p = [ (Pc, Shipment.originPC shipment, None);
                                 (Pc, Shipment.destPC shipment, None) ]
     /\ MultiHopPath.segments p = [])
    \/ exists before meet after fs bs,
         MultiHopPath.nodes p = before ++ meet :: after
         /\ MultiHopPath.segments p = fs ++ bs
         /\ length fs = length before /\ length bs = length after
         /\ MultiHopPath.totalCost p = Fin (cost_sum 0 (reverse fs) + cost_sum 0 bs)
         /\ MultiHopPath.totalETD p = Fin (etd_sum 0 (reverse fs) + etd_sum 0 bs).
Proof.
  intros (fwd & bwd & Hfwd & Hbwd & Hall)%Engine_find_spec p Hp.
  destruct (Hall p Hp) as [-> | (meet & Hty & Hmf & Hmb & lf & lb & Hlf & Hlb & ->)];
    [by left | right].
  apply astar_search_links in Hfwd, Hbwd.
  pose proof (parent_chain_edges _ _ _ _ _ _ _ _ Hfwd meet lf Hlf) as Hwf.
  pose proof (parent_chain_edges _ _ _ _ _ _ _ _ Hbwd meet lb Hlb) as Hwb.
  assert (Hnf : length (segs_along (Engine.edge fwd) lf) = pred (length lf)).
  { apply segs_along_length. eapply walk_mono; [|exact Hwf].
    intros a b (nb & _ & _ & ->). eauto. }
  assert (Hnb : length (segs_along (Engine.edge bwd) lb) = pred (length lb)).
  { apply segs_along_length. eapply walk_mono; [|exact Hwb].
    intros a b (nb & _ & _ & ->). eauto. }
  destruct (parent_chain_head _ _ _ Hlf) as [tf ->].
  destruct (parent_chain_head _ _ _ Hlb) as [tb ->].
  exists (reverse tf), meet, tb, (reverse (segs_along (Engine.edge fwd) (meet :: tf))),
    (segs_along (Engine.edge bwd) (meet :: tb)).
  split; [simpl; by rewrite reverse_cons, <- (assoc_L (++))|].
  split; [done|]. rewrite !length_reverse, Hnf, Hnb.
  split; [done|]. split; [done|]. by rewrite reverse_involutive.
Qed.

Lemma X5_bidirectional_totals_are_segment_sums_witness :
  exists paths,
    Engine.find_mltihop_path sample_sqrt 30 sample_engine sample_shipment PInf PInf 5 10
    = Ret paths
    /\ length paths = 3
    /\ forall p, p ∈ paths ->
         (MultiHopPath.totalCost p = PInf /\ MultiHopPath.totalETD p = PInf
          /\ MultiHopPath.nodes p = [ (Pc, Shipment.originPC sample_shipment, None);
                                      (Pc, Shipment.destPC sample_shipment, None) ]
          /\ MultiHopPath.segments p = [])
         \/ exists before meet after fs bs,
              MultiHopPath.nodes p = before ++ meet :: after
              /\ MultiHopPath.segments p = fs ++ bs
              /\ length fs = length before /\ length bs = length after
              /\ MultiHopPath.totalCost p = Fin (cost_sum 0 (reverse fs) + cost_sum 0 bs)
              /\ MultiHopPath.totalETD p = Fin (etd_sum 0 (reverse fs) + etd_sum 0 bs).
Proof.
  eexists. split; [vm_compute; reflexivity|]. split; [reflexivity|].
  apply (X5_bidirectional_totals_are_segment_sums sample_sqrt 30 sample_engine
           sample_shipment PInf PInf 5 10).
  vm_compute. reflexivity.
Defined.

Lemma X6_backward_half_segments_are_reversed_witness :
  exists paths,
    Engine.find_mltihop_path sample_sqrt 30 sample_engine sample_shipment PInf PInf 5 10
    = Ret paths
    /\ length paths = 3
    /\ forall p, p ∈ paths ->
         exists fs bs,
           MultiHopPath.segments p = fs ++ bs
           /\ Forall (in_travel_order (Engine.index sample_engine)
                        (Shipment.weightKG sample_shipment)) fs
           /\ Forall (against_travel_order (Engine.index sample_engine)
                        (Shipment.weightKG sample_shipment)) bs.
Proof.
  eexists. split; [vm_compute; reflexivity|]. split; [reflexivity|].
  apply (X6_backward_half_segments_are_reversed sample_sqrt 30 sample_engine
           sample_shipment PInf PInf 5 10 sample_postcodes sample_zones sample_routes).
  - reflexivity.
  - vm_compute. reflexivity.
Defined.

(** On the sample index the path met at the origin is built by the
    backward exploration alone: the route ZA -> ZB appears on it as the
    segment from ZB to ZA, and the route ZB -> ZC as the segment from ZC
    to ZB. *)
Lemma Engine_backward_segments_sample :
  exists paths p,
    Engine.find_mltihop_path sample_sqrt 30 sample_engine sample_shipment PInf PInf 5 10
    = Ret paths
    /\ last paths = Some p
    /\ (fun seg => (seg_fromZone seg, seg_toZone seg)) <$> MultiHopPath.segments p
       = [ ("ZA", "2000"); ("ZB", "ZA"); ("ZC", "ZB"); ("3000", "ZC") ].
Proof.
  eexists. eexists. split; [vm_compute; reflexivity|]. split; reflexivity.
Qed.
(** ** The path of the forward engine *)

Section EngineNewLinks.
Context (sqrt : Q -> Q) (self : EngineNew.t) (shipment : Shipment.t)
        (maxCost : efloat) (start : node).

Local Abbreviation ln := (linksN self shipment maxCost start).

Lemma expand_neighborN_links current st nb st' :
  nb ∈ EngineNew._get_forward_neighbors self current shipment ->
  ln st ->
  EngineNew.expand_neighbor sqrt self shipment maxCost current st nb = Ret st' ->
  ln st' /\ (is_Some (EngineNew.g_score st !! current) ->
             is_Some (EngineNew.g_score st' !! current)).
Proof.
  intros Hnb Hln. destruct nb as [[[n c] e] i].
  unfold EngineNew.expand_neighbor, getitem.
  destruct (EngineNew.g_score st !! current) as [gc|] eqn:Hgc; [|done].
  cbn [mbind outcome_bind obind].
  destruct (exceeds (gc + c) maxCost) eqn:Hex; [by intros [= <-]|].
  destruct (EngineNew.improves (EngineNew.g_score st) n (gc + c)) eqn:Himp;
    [|by intros [= <-]].
  intros [= <-]. simpl.
  assert (Hsome : forall m, is_Some (EngineNew.g_score st !! m) ->
                            is_Some (<[n := (gc + c)%Q]> (EngineNew.g_score st) !! m)).
  { intros m Hm. destruct (decide (n = m)) as [->|Hne].
    - rewrite lookup_insert_eq. eauto.
    - by rewrite lookup_insert_ne. }
  split; [|intros _; apply Hsome; eauto].
  assert (Hlt : forall old, EngineNew.g_score st !! n = Some old -> (gc + c < old)%Q).
  { intros old Hold. unfold EngineNew.improves in Himp. rewrite Hold in Himp.
    by apply Qgtb_true in Himp. }
  destruct Hln as [Hs Hr Ho Hp Hb He]. constructor; simpl.
  - by apply Hsome.
  - intros Hnone. destruct (decide (n = start)) as [->|Hne].
    + by rewrite lookup_insert_eq in Hnone.
    + rewrite lookup_insert_ne in Hnone by done. rewrite lookup_insert_ne by done. by apply Hr.
  - intros x [-> | Hx]%elem_of_cons; simpl.
    + rewrite lookup_insert_eq. eauto.
    + apply Hsome. by apply Ho.
  - intros m Hm. destruct (decide (n = m)) as [->|Hne].
    + right. rewrite lookup_insert_eq. eauto.
    + rewrite lookup_insert_ne in Hm by done. rewrite lookup_insert_ne by done. by apply Hp.
  - intros m g Hm Hcf. destruct (decide (n = m)) as [->|Hne].
    + rewrite lookup_insert_eq in Hm. by injection Hm as <-.
    + rewrite lookup_insert_ne in Hm by done. rewrite lookup_insert_ne in Hcf by done.
      by eapply Hb.
  - intros m p Hmp. destruct (decide (n = m)) as [->|Hne].
    + rewrite lookup_insert_eq in Hmp. injection Hmp as <-.
      destruct (decide (m = current)) as [->|Hmc].
      * (* a loop edge: the cost of the vertex itself went down *)
        exists (gc + c)%Q, (gc + c)%Q, (current, c, e, i).
        rewrite !lookup_insert_eq. repeat (split; [done|]). simpl.
        pose proof (Hlt gc Hgc). lra.
      * exists (gc + c)%Q, gc, (m, c, e, i).
        rewrite !lookup_insert_eq, lookup_insert_ne by done.
        repeat (split; [done|]). simpl. lra.
    + rewrite lookup_insert_ne in Hmp by done.
      destruct (He m p Hmp) as (gm & gp & nb & Hgm & Hgp & Hin & Hn & Hed & Hle).
      destruct (decide (n = p)) as [->|Hnp].
      * exists gm, (gc + c)%Q, nb. rewrite lookup_insert_ne, lookup_insert_eq by done.
        rewrite lookup_insert_ne by done. repeat (split; [done|]).
        pose proof (Hlt gp Hgp). lra.
      * exists gm, gp, nb. rewrite !lookup_insert_ne by done. done.
Qed.

Lemma bodyN_links (fuel : nat) st st' :
  ln st -> EngineNew.loop_body sqrt fuel self shipment maxCost st = Ret (inl st') -> ln st'.
Proof.
  intros Hln. unfold EngineNew.loop_body.
  destruct (heappop (EngineNew.open_set st)) as [[[[f k] current] rest]|] eqn:Hpop; [|done].
  apply heappop_perm in Hpop.
  assert (Hrest : ln (EngineNew.set_open st rest)).
  { destruct Hln as [Hs Hr Ho Hp Hb He]. constructor; simpl; try done.
    intros e He'. apply Ho. rewrite <- Hpop. by right. }
  destruct current as [[ct cid] cprov].
  destruct (decide _).
  { destruct (EngineNew._reconstruct_path _ _ _ _ _ _); simpl; intros [=]. }
  destruct (ln_open _ _ _ _ _ Hln (f, k, (ct, cid, cprov))) as [g Hg];
    [rewrite <- Hpop; by left|]. simpl in Hg.
  unfold getitem. simpl. rewrite Hg. simpl.
  destruct (exceeds g maxCost); [by intros [= <-]|].
  destruct (ofoldl _ _ _) as [| e | st''] eqn:Hfold; simpl; try done.
  intros [= <-].
  revert Hfold. apply (ofoldl_preserves _ ln); [|done].
  intros a nb a' Hnb Ha Hstep.
  by destruct (expand_neighborN_links (ct, cid, cprov) a nb a' Hnb Ha Hstep).
Qed.

Lemma initialN_links (h : Q) :
  ln {| EngineNew.open_set := heappush [] (h, 0, start);
        EngineNew.counter := 0;
        EngineNew.came_from := ∅;
        EngineNew.g_score := {[ start := 0%Q ]};
        EngineNew.edge_data := ∅ |}.
Proof.
  constructor; simpl.
  - rewrite lookup_singleton_eq. eauto.
  - intros _. by rewrite lookup_singleton_eq.
  - intros e ->%list_elem_of_singleton. simpl. rewrite lookup_singleton_eq. eauto.
  - intros n [g Hg]. apply lookup_singleton_Some in Hg as [<- _]. by left.
  - intros n g _ [p Hp]. by rewrite lookup_empty in Hp.
  - intros n p Hnp. by rewrite lookup_empty in Hnp.
Qed.

Lemma search_loopN_found (fuel : nat) (h : Q) (path : MultiHopPath.t) :
  EngineNew.search_loop sqrt self shipment maxCost fuel
    {| EngineNew.open_set := heappush [] (h, 0, start);
       EngineNew.counter := 0;
       EngineNew.came_from := ∅;
       EngineNew.g_score := {[ start := 0%Q ]};
       EngineNew.edge_data := ∅ |} = Ret (Some path) ->
  exists st current,
    ln st /\ is_Some (EngineNew.g_score st !! current)
    /\ node_type current = Pc /\ node_id current = Shipment.destPC shipment
    /\ EngineNew._reconstruct_path fuel self current (EngineNew.came_from st)
         (EngineNew.edge_data st) shipment = Ret path.
Proof.
  unfold EngineNew.search_loop. intros Hrun.
  destruct (while_loop_invariant _ ln (bodyN_links fuel) _ _ _ (initialN_links h) Hrun)
    as (st & Hln & Hbody).
  revert Hbody. unfold EngineNew.loop_body.
  destruct (heappop (EngineNew.open_set st)) as [[[[f k] current] rest]|] eqn:Hpop; [|done].
  apply heappop_perm in Hpop.
  destruct current as [[ct cid] cprov].
  destruct (decide _) as [[-> ->]|].
  - destruct (EngineNew._reconstruct_path _ _ _ _ _ _) as [| e | p] eqn:Hrec; try done.
    cbn [mbind outcome_bind obind]. intros [= ->].
    exists st, (Pc, Shipment.destPC shipment, cprov). split; [done|].
    split; [|done].
    apply (ln_open _ _ _ _ _ Hln (f, k, (Pc, Shipment.destPC shipment, cprov))).
    rewrite <- Hpop. by left.
  - destruct (ln_open _ _ _ _ _ Hln (f, k, (ct, cid, cprov))) as [g Hg];
      [rewrite <- Hpop; by left|]. simpl in Hg.
    unfold getitem. simpl. rewrite Hg. simpl.
    destruct (exceeds _ _); [done|].
    by destruct (ofoldl _ _ _).
Qed.
End EngineNewLinks.

(** *** Reconstructing the path *)

Lemma reconstruct_step_eq (ed : gmap node EngineNew.EdgeData) (n : node)
    (nodes : list node) (segs : list Segment) (c e : Q) (provs : list string) :
  EngineNew.reconstruct_step ed n (nodes, segs, c, e, provs)
  = match ed !! n with
    | Some d =>
        Ret (nodes ++ [n], segs ++ transit_segment d,
             (c + EngineNew.ed_cost d)%Q, (e + EngineNew.ed_etd d)%Q,
             provs ++ omap seg_providerId (transit_segment d))
    | None => Raise KeyError
    end.
Proof.
  unfold EngineNew.reconstruct_step, getitem, transit_segment.
  destruct (ed !! n) as [d|]; [|done]. simpl.
  destruct (EngineNew.ed_info d); simpl; by rewrite ?app_nil_r.
Qed.

Lemma edges_along_cons (ed : gmap node EngineNew.EdgeData) (a b : node) (l : list node) :
  edges_along ed (a :: b :: l)
  = match ed !! a with Some d => [d] | None => [] end ++ edges_along ed (b :: l).
Proof. reflexivity. Qed.

Lemma while_loop_S {St R} (body : St -> outcome (St + R)) (fuel : nat) (st : St) :
  while_loop body (S fuel) st
  = (r ← body st; match r with inl st' => while_loop body fuel st' | inr res => Ret res end).
Proof. reflexivity. Qed.

Lemma reconstruct_body_eq (cf : gmap node node) (ed : gmap node EngineNew.EdgeData)
    (n : node) (acc : list node * list Segment * Q * Q * list string) :
  EngineNew.reconstruct_body cf ed (n, acc)
  = match cf !! n with
    | None => Ret (inr (n, acc))
    | Some prev => acc' ← EngineNew.reconstruct_step ed n acc; Ret (inl (prev, acc'))
    end.
Proof. reflexivity. Qed.

Lemma reconstruct_loop_spec (fuel : nat) (cf : gmap node node)
    (ed : gmap node EngineNew.EdgeData) (n root : node) (nodes nodes' : list node)
    (segs segs' : list Segment) (c c' e e' : Q) (provs provs' : list string) :
  EngineNew.reconstruct_loop fuel cf ed n (nodes, segs, c, e, provs)
  = Ret (root, (nodes', segs', c', e', provs')) ->
  exists l,
    parent_chain cf n l /\ last l = Some root
    /\ nodes' ++ [root] = nodes ++ l
    /\ segs' = segs ++ (edges_along ed l ≫= transit_segment)
    /\ c' = foldl (fun c d => (c + EngineNew.ed_cost d)%Q) c (edges_along ed l)
    /\ e' = foldl (fun e d => (e + EngineNew.ed_etd d)%Q) e (edges_along ed l)
    /\ provs' = provs ++ omap seg_providerId (edges_along ed l ≫= transit_segment).
Proof.
  unfold EngineNew.reconstruct_loop. revert n nodes segs c e provs.
  induction fuel as [|fuel IH]; intros n nodes segs c e provs; [done|].
  rewrite while_loop_S, reconstruct_body_eq. destruct (cf !! n) as [prev|] eqn:Hn.
  - rewrite reconstruct_step_eq. destruct (ed !! n) as [d|] eqn:Hd; [|done].
    cbn [mbind outcome_bind obind].
    intros (l & Hl & Hlast & Hnodes & -> & -> & -> & ->)%IH.
    destruct (parent_chain_head _ _ _ Hl) as [l' ->].
    exists (n :: prev :: l'). split; [by econstructor|].
    split; [by rewrite last_cons_cons|].
    split; [by rewrite Hnodes, <- (assoc_L (++))|].
    rewrite edges_along_cons, Hd. simpl.
    rewrite omap_app, <- !(assoc_L (++)). done.
  - simpl. intros [= <- <- <- <- <- <-]. exists [n].
    split; [by constructor|]. simpl. by rewrite !app_nil_r.
Qed.

Lemma reconstruct_path_spec (fuel : nat) (self : EngineNew.t) (cf : gmap node node)
    (ed : gmap node EngineNew.EdgeData) (n : node) (shipment : Shipment.t)
    (path : MultiHopPath.t) :
  EngineNew._reconstruct_path fuel self n cf ed shipment = Ret path ->
  exists l, parent_chain cf n l /\ path = path_along shipment ed l.
Proof.
  unfold EngineNew._reconstruct_path.
  destruct (EngineNew.reconstruct_loop _ _ _ _ _)
    as [| err | [root [[[[nodes' segs'] c'] e'] provs']]] eqn:Hloop; try done.
  apply reconstruct_loop_spec in Hloop as (l & Hl & Hlast & Hnodes & -> & -> & -> & ->).
  cbn [mbind outcome_bind obind]. intros [= <-]. exists l. split; [done|].
  unfold path_along. simpl in *. by rewrite Hnodes.
Qed.

Lemma EngineNew_find_spec (sqrt : Q -> Q) (fuel : nat) (self : EngineNew.t)
    (shipment : Shipment.t) (maxCost maxETD : efloat) (maxHops topK : Z)
    (paths : list MultiHopPath.t) :
  EngineNew.find_mltihop_path sqrt fuel self shipment maxCost maxETD maxHops topK = Ret paths ->
  paths = [EngineNew.create_default_path self shipment]
  \/ exists st current l p, paths = [p] /\ found_in self shipment maxCost st current l p.
Proof.
  unfold EngineNew.find_mltihop_path.
  destruct (decide _); [|done]. destruct (decide _); [|done].
  destruct (EngineNew.search_loop _ _ _ _ _ _) as [| err | [p|]] eqn:Hrun;
    cbn [mbind outcome_bind obind]; try done; intros [= <-]; [|by left].
  right. apply search_loopN_found in Hrun as (st & current & Hln & Hg & Hty & Hid & Hrec).
  apply reconstruct_path_spec in Hrec as (l & Hl & ->).
  exists st, current, l. eexists. split; [done|].
  split; [exact Hln|]. split; [done|]. split; [done|]. split; [done|]. by split.
Qed.

Section ChainLinksN.
Context (self : EngineNew.t) (shipment : Shipment.t) (maxCost : efloat) (start : node)
        (st : EngineNew.SearchState).
Hypothesis Hln : linksN self shipment maxCost start st.

Local Abbreviation g := (EngineNew.g_score st).
Local Abbreviation cf := (EngineNew.came_from st).
Local Abbreviation ed := (EngineNew.edge_data st).

Lemma parent_chainN_dom (n : node) (l : list node) :
  parent_chain cf n l -> is_Some (g !! n) -> forall m, m ∈ l -> is_Some (g !! m).
Proof.
  induction 1 as [n Hn | n m l Hn Hl IH]; intros Hg x Hx.
  - by apply list_elem_of_singleton in Hx as ->.
  - apply elem_of_cons in Hx as [-> | Hx]; [done|].
    apply IH; [|done].
    destruct (ln_edge _ _ _ _ _ Hln n m Hn) as (gn & gp & nb & _ & Hgp & _). eauto.
Qed.

Lemma parent_chainN_ends_at_start (n : node) (l : list node) :
  parent_chain cf n l -> is_Some (g !! n) ->
  last l = Some start /\ cf !! start = None.
Proof.
  intros Hl Hg. destruct (parent_chain_last _ _ _ Hl) as (r & Hr & Hnone & Hin).
  rewrite Hr.
  destruct (ln_parent _ _ _ _ _ Hln r) as [-> | [p Hp]]; [|done|congruence].
  by eapply parent_chainN_dom.
Qed.

Lemma parent_chainN_edges (n : node) (l : list node) :
  parent_chain cf n l ->
  walk (fun a b => exists nb, nb ∈ EngineNew._get_forward_neighbors self b shipment
                              /\ nb.1.1.1 = a
                              /\ ed !! a = Some (EngineNew.mkEdge nb.1.1.2 nb.1.2 nb.2)) l.
Proof.
  intros Hl. apply (walk_mono (fun a b => cf !! a = Some b)); [|by eapply parent_chain_walk].
  intros a b Hab.
  destruct (ln_edge _ _ _ _ _ Hln a b Hab) as (gn & gp & nb & _ & _ & ? & ? & ? & _).
  by exists nb.
Qed.

(** The costs of the edges of a chain fit between the costs of its ends. *)
Lemma parent_chainN_cost (n : node) (l : list node) :
  parent_chain cf n l ->
  forall gn, g !! n = Some gn ->
  exists r gr, last l = Some r /\ g !! r = Some gr
    /\ forall c, (foldl (fun c d => c + EngineNew.ed_cost d) c (edges_along ed l)
                  <= c + (gn - gr))%Q.
Proof.
  induction 1 as [n Hn | n m l Hn Hl IH]; intros gn Hgn.
  - exists n, gn. split; [done|]. split; [done|]. intros c. simpl. lra.
  - destruct (ln_edge _ _ _ _ _ Hln n m Hn)
      as (gn' & gm & nb & Hgn' & Hgm & _ & _ & Hed & Hle).
    assert (gn' = gn) as -> by congruence.
    destruct (IH gm Hgm) as (r & gr & Hr & Hgr & Hsum).
    destruct (parent_chain_head _ _ _ Hl) as [l' ->].
    exists r, gr. split; [by rewrite last_cons_cons|]. split; [done|].
    intros c. rewrite edges_along_cons, Hed. cbn [app foldl EngineNew.ed_cost].
    specialize (Hsum (c + nb.1.1.2)%Q). lra.
Qed.
End ChainLinksN.

(** *** The found path *)

Lemma linksN_postcode_provider (self : EngineNew.t) (shipment : Shipment.t)
    (maxCost : efloat) (startPC : string) (st : EngineNew.SearchState) (n : node) :
  linksN self shipment maxCost (Pc, startPC, None) st ->
  is_Some (EngineNew.g_score st !! n) -> node_type n = Pc -> node_provider n = None.
Proof.
  intros Hln Hg Hty.
  destruct (ln_parent _ _ _ _ _ Hln n Hg) as [-> | [p Hp]]; [done|].
  destruct (ln_edge _ _ _ _ _ Hln n p Hp) as (_ & _ & nb & _ & _ & Hnb & <- & _).
  destruct p as [[t id] prov]. unfold EngineNew._get_forward_neighbors in Hnb.
  destruct t.
  - apply list_elem_of_fmap in Hnb as ([q zc] & -> & _). done.
  - apply elem_of_app in Hnb as [(r & -> & _)%list_elem_of_fmap | (pc & -> & _)%list_elem_of_fmap];
      done.
Qed.

Lemma EngineNew_neighbor_edge_full (self : EngineNew.t) (n : node) (s : Shipment.t)
    (nb : EngineNew.neighbor) :
  nb ∈ EngineNew._get_forward_neighbors self n s ->
  edge_fullN (EngineNew.index self) (Shipment.weightKG s)
             (EngineNew.mkEdge nb.1.1.2 nb.1.2 nb.2).
Proof.
  destruct n as [[t id] prov]. unfold EngineNew._get_forward_neighbors. destruct t.
  - intros ([q zc] & -> & _)%list_elem_of_fmap. done.
  - intros [(r & -> & Hr)%list_elem_of_fmap | (pc & -> & _)%list_elem_of_fmap]%elem_of_app;
      [|done].
    split; [|done]. destruct prov as [p|]; [|by apply not_elem_of_nil in Hr].
    apply lookup_default_elem in Hr as (l & Hl & Hin). exists (p, id), l. eauto.
Qed.

Lemma edges_along_Forall (ed : gmap node EngineNew.EdgeData)
    (P : EngineNew.EdgeData -> Prop) (l : list node) :
  walk (fun a b => exists d, ed !! a = Some d /\ P d) l -> Forall P (edges_along ed l).
Proof.
  induction 1 as [| a | a b l (d & Hd & HP) Hw IH]; [constructor | constructor |].
  rewrite edges_along_cons, Hd. simpl. by constructor.
Qed.

Lemma edge_cost_sum_from (c : Q) (ds : list EngineNew.EdgeData) :
  (foldl (fun c d => c + EngineNew.ed_cost d) c ds
   == c + foldl (fun c d => c + EngineNew.ed_cost d) 0 ds)%Q.
Proof.
  revert c. induction ds as [|d ds IH]; intros c; simpl; [lra|].
  rewrite (IH (c + EngineNew.ed_cost d)%Q), (IH (0 + EngineNew.ed_cost d)%Q). lra.
Qed.

Lemma edge_etd_sum_from (e : Q) (ds : list EngineNew.EdgeData) :
  (foldl (fun e d => e + EngineNew.ed_etd d) e ds
   == e + foldl (fun e d => e + EngineNew.ed_etd d) 0 ds)%Q.
Proof.
  revert e. induction ds as [|d ds IH]; intros e; simpl; [lra|].
  rewrite (IH (e + EngineNew.ed_etd d)%Q), (IH (0 + EngineNew.ed_etd d)%Q). lra.
Qed.

Lemma transit_segment_sums (idx : GraphIndex.t) (w : Q) (d : EngineNew.EdgeData) :
  edge_fullN idx w d ->
  (cost_sum 0 (transit_segment d) == EngineNew.ed_cost d)%Q
  /\ (etd_sum 0 (transit_segment d) == EngineNew.ed_etd d)%Q.
Proof.
  unfold edge_fullN, transit_segment, cost_sum, etd_sum.
  destruct (EngineNew.ed_info d); simpl.
  - intros [-> ->]. done.
  - intros _. split; lra.
  - intros [-> ->]. done.
Qed.

Lemma edge_sums_segments (idx : GraphIndex.t) (w : Q) (ds : list EngineNew.EdgeData) :
  Forall (edge_fullN idx w) ds ->
  (foldl (fun c d => c + EngineNew.ed_cost d) 0 ds
   == cost_sum 0 (ds ≫= transit_segment))%Q
  /\ (foldl (fun e d => e + EngineNew.ed_etd d) 0 ds
      == etd_sum 0 (ds ≫= transit_segment))%Q.
Proof.
  induction 1 as [|d ds Hd Hds [IHc IHe]]; [done|].
  destruct (transit_segment_sums idx w d Hd) as [Hc He].
  change ((d :: ds) ≫= transit_segment)
    with (transit_segment d ++ (ds ≫= transit_segment)).
  rewrite cost_sum_app, etd_sum_app, Hc, He, <- IHc, <- IHe. cbn [foldl].
  rewrite edge_cost_sum_from, edge_etd_sum_from. split; lra.
Qed.

Lemma edge_segments_routes (idx : GraphIndex.t) (w : Q) (ds : list EngineNew.EdgeData) :
  Forall (edge_fullN idx w) ds ->
  Forall (fun seg => exists r, route_segment idx w seg r (ProviderZoneRoute.fromZone r)
                                 (ProviderZoneRoute.toZone r))
         (ds ≫= transit_segment).
Proof.
  induction 1 as [|d ds Hd Hds IH]; [constructor|]. simpl.
  apply Forall_app. split; [|done].
  unfold edge_fullN in Hd. unfold transit_segment.
  destruct (EngineNew.ed_info d) as [| r |]; [constructor | | constructor].
  apply Forall_singleton. exists r. destruct Hd as (Hi & Hc & He). done.
Qed.

Lemma node_components (n : node) (i : string) :
  node_type n = Pc -> node_id n = i -> node_provider n = None -> n = (Pc, i, None).
Proof.
  destruct n as [[t j] pr]. unfold node_type, node_id, node_provider. simpl.
  by intros -> -> ->.
Qed.

Section FoundPath.
Context (self : EngineNew.t) (shipment : Shipment.t) (maxCost : efloat)
        (st : EngineNew.SearchState) (current : node) (l : list node) (p : MultiHopPath.t).
Hypothesis Hfound : found_in self shipment maxCost st current l p.

Lemma found_edges :
  Forall (edge_fullN (EngineNew.index self) (Shipment.weightKG shipment))
         (edges_along (EngineNew.edge_data st) l).
Proof.
  destruct Hfound as (Hln & Hg & Hty & Hid & Hl & ->).
  apply edges_along_Forall.
  eapply walk_mono; [|exact (parent_chainN_edges _ _ _ _ _ Hln current l Hl)].
  intros a b (nb & Hnb & Hn & Hed). eexists. split; [exact Hed|].
  by eapply EngineNew_neighbor_edge_full.
Qed.

Lemma found_walk :
  head (MultiHopPath.nodes p) = Some (Pc, Shipment.originPC shipment, None)
  /\ last (MultiHopPath.nodes p) = Some (Pc, Shipment.destPC shipment, None)
  /\ walk (forward_edgeN self shipment) (MultiHopPath.nodes p).
Proof.
  destruct Hfound as (Hln & Hg & Hty & Hid & Hl & ->). simpl.
  destruct (parent_chainN_ends_at_start _ _ _ _ _ Hln current l Hl Hg) as [Hlast _].
  pose proof (linksN_postcode_provider _ _ _ _ _ _ Hln Hg Hty) as Hprov.
  split; [by rewrite head_reverse|]. split.
  - rewrite last_reverse. destruct (parent_chain_head _ _ _ Hl) as [l' ->]. simpl.
    f_equal. by apply node_components.
  - pose proof (parent_chainN_edges _ _ _ _ _ Hln current l Hl) as Hw.
    apply walk_reverse in Hw. eapply walk_mono; [|exact Hw].
    intros a b (nb & Hnb & Hn & _). by exists nb.
Qed.

Lemma found_totals :
  exists c e,
    MultiHopPath.totalCost p = Fin c /\ MultiHopPath.totalETD p = Fin e
    /\ (c == cost_sum 0 (MultiHopPath.segments p))%Q
    /\ (e == etd_sum 0 (MultiHopPath.segments p))%Q
    /\ Forall (fun seg => exists r,
                 route_segment (EngineNew.index self) (Shipment.weightKG shipment) seg r
                   (ProviderZoneRoute.fromZone r) (ProviderZoneRoute.toZone r))
              (MultiHopPath.segments p).
Proof.
  pose proof found_edges as Hedges.
  destruct Hfound as (Hln & Hg & Hty & Hid & Hl & ->). simpl.
  destruct (edge_sums_segments _ _ _ Hedges) as [Hc He].
  eexists _, _. split; [reflexivity|]. split; [reflexivity|].
  split; [by rewrite cost_sum_reverse|]. split; [by rewrite etd_sum_reverse|].
  apply Forall_reverse. by apply edge_segments_routes.
Qed.

Lemma found_within_maxCost (m : Q) :
  maxCost = Fin m ->
  exists c, MultiHopPath.totalCost p = Fin c
            /\ ((c <= m)%Q
                \/ (Shipment.originPC shipment = Shipment.destPC shipment /\ c = 0%Q)).
Proof.
  intros ->. destruct Hfound as (Hln & [g Hg] & Hty & Hid & Hl & ->). simpl.
  eexists. split; [reflexivity|].
  destruct (parent_chainN_ends_at_start _ _ _ _ _ Hln current l Hl) as [Hlast Hroot];
    [eauto|].
  destruct (parent_chainN_cost _ _ _ _ _ Hln current l Hl g Hg) as (r & gr & Hr & Hgr & Hsum).
  assert (r = (Pc, Shipment.originPC shipment, None)) as -> by congruence.
  rewrite (ln_root _ _ _ _ _ Hln Hroot) in Hgr. injection Hgr as <-.
  destruct (EngineNew.came_from st !! current) as [par|] eqn:Hpar.
  - left. assert (Hb : exceeds g (Fin m) = false)
      by (eapply (ln_bound _ _ _ _ _ Hln); eauto).
    simpl in Hb. apply Qgtb_false in Hb. specialize (Hsum 0%Q). lra.
  - right. inversion Hl as [n Hn Heq1 Heq2 | n m' l' Hn]; [|congruence]. subst.
    injection Hlast as ->. simpl in Hid. done.
Qed.

Lemma found_providers :
  MultiHopPath.numHops p = length (MultiHopPath.providersInvolved p)
  /\ NoDup (MultiHopPath.providersInvolved p)
  /\ (forall q, q ∈ MultiHopPath.providersInvolved p
                <-> exists seg, seg ∈ MultiHopPath.segments p /\ seg_providerId seg = Some q)
  /\ MultiHopPath.reliabilityScore p = 1%Q.
Proof.
  destruct Hfound as (Hln & Hg & Hty & Hid & Hl & ->). simpl.
  set (segs := edges_along (EngineNew.edge_data st) l ≫= transit_segment).
  assert (Hfix : remove_dups (remove_dups (omap seg_providerId segs))
                 = remove_dups (omap seg_providerId segs))
    by apply remove_dups_NoDup, NoDup_remove_dups.
  rewrite Hfix. split; [done|]. split; [apply NoDup_remove_dups|]. split; [|done].
  intros q. rewrite elem_of_remove_dups, list_elem_of_omap.
  by setoid_rewrite elem_of_reverse.
Qed.
End FoundPath.



(** X8: the path the forward engine finds has totals that are the costs
    and the hours of its segments added from the last segment to the
    first, as [_reconstruct_path] adds them, and every segment is a route
    of the index with its provider, its zones as the route runs, its cost
    at the shipment's weight and its hours. *)
Theorem X8_forward_totals_and_segments (sqrt : Q -> Q) (fuel : nat) (self : EngineNew.t)
    (shipment : Shipment.t) (maxCost maxETD : efloat) (maxHops topK : Z)
    (paths : list MultiHopPath.t) :
  EngineNew.find_mltihop_path sqrt fuel self shipment maxCost maxETD maxHops topK = Ret paths ->
  exists p,
    paths = [p]
    /\ (p = EngineNew.create_default_path self shipment
        \/ exists c e,
             MultiHopPath.totalCost p = Fin c /\ MultiHopPath.totalETD p = Fin e
             /\ (c == cost_sum 0 (reverse (MultiHopPath.segments p)))%Q
             /\ (e == etd_sum 0 (reverse (MultiHopPath.segments p)))%Q
             /\ Forall (fun seg => exists r,
                          route_segment (EngineNew.index self) (Shipment.weightKG shipment)
                            seg r (ProviderZoneRoute.fromZone r)
                            (ProviderZoneRoute.toZone r))
                       (MultiHopPath.segments p)).
Proof.
  intros [-> | (st & current & l & p & -> & Hfound)]%EngineNew_find_spec.
  - eexists. split; [done|]. by left.
  - exists p. split; [done|]. right.
    destruct (found_totals _ _ _ _ _ _ _ Hfound) as (c & e & Hc & He & Hcs & Hes & Hall).
    exists c, e. split; [done|]. split; [done|].
    by rewrite cost_sum_reverse, etd_sum_reverse.
Qed.

Lemma X8_forward_totals_and_segments_witness :
  exists paths,
    EngineNew.find_mltihop_path sample_sqrt 30 sample_engine_new sample_shipment PInf PInf 5 10
    = Ret paths
    /\ exists p,
         paths = [p]
         /\ (p = EngineNew.create_default_path sample_engine_new sample_shipment
             \/ exists c e,
                  MultiHopPath.totalCost p = Fin c /\ MultiHopPath.totalETD p = Fin e
                  /\ (c == cost_sum 0 (reverse (MultiHopPath.segments p)))%Q
                  /\ (e == etd_sum 0 (reverse (MultiHopPath.segments p)))%Q
                  /\ Forall (fun seg => exists r,
                               route_segment (EngineNew.index sample_engine_new)
                                 (Shipment.weightKG sample_shipment) seg r
                                 (ProviderZoneRoute.fromZone r) (ProviderZoneRoute.toZone r))
                            (MultiHopPath.segments p)).
Proof.
  eexists. split; [vm_compute; reflexivity|].
  apply (X8_forward_totals_and_segments sample_sqrt 30 sample_engine_new sample_shipment
           PInf PInf 5 10).
  vm_compute. reflexivity.
Defined.

(** X9: with a finite [maxCost], on a path of finite cost the forward
    engine returns, the costs of the segments added in the order of the
    path, as the search adds them, do not exceed [maxCost]; the one
    exception is the path without segments of a shipment whose origin is
    its destination. *)
Theorem X9_forward_costs_in_path_order_within_maxCost (sqrt : Q -> Q) (fuel : nat)
    (self : EngineNew.t) (shipment : Shipment.t) (m : Q) (maxETD : efloat) (maxHops topK : Z)
    (paths : list MultiHopPath.t) :
  EngineNew.find_mltihop_path sqrt fuel self shipment (Fin m) maxETD maxHops topK = Ret paths ->
  forall p c, p ∈ paths -> MultiHopPath.totalCost p = Fin c ->
    (cost_sum 0 (MultiHopPath.segments p) <= m)%Q
    \/ (Shipment.originPC shipment = Shipment.destPC shipment
        /\ (cost_sum 0 (MultiHopPath.segments p) == 0)%Q).
Proof.
  intros [-> | (st & current & l & p' & -> & Hfound)]%EngineNew_find_spec p c Hp Hc.
  - apply list_elem_of_singleton in Hp as ->. discriminate Hc.
  - apply list_elem_of_singleton in Hp as ->.
    destruct (found_within_maxCost _ _ _ _ _ _ _ Hfound m eq_refl) as (c' & Hc' & H).
    destruct (found_totals _ _ _ _ _ _ _ Hfound) as (c'' & e & Hc'' & _ & Hcs & _).
    rewrite Hc' in Hc''. injection Hc'' as <-.
    destruct H as [H | [Ho ->]]; [left | right; split; [done|]]; by rewrite <- Hcs.
Qed.

Lemma X9_forward_costs_in_path_order_within_maxCost_witness :
  exists paths,
    EngineNew.find_mltihop_path sample_sqrt 30 sample_engine_new sample_shipment (Fin 200)
      PInf 5 10 = Ret paths
    /\ Exists (fun p => exists c, MultiHopPath.totalCost p = Fin c /\ (c == 130)%Q) paths
    /\ forall p c, p ∈ paths -> MultiHopPath.totalCost p = Fin c ->
         (cost_sum 0 (MultiHopPath.segments p) <= 200)%Q
         \/ (Shipment.originPC sample_shipment = Shipment.destPC sample_shipment
             /\ (cost_sum 0 (MultiHopPath.segments p) == 0)%Q).
Proof.
  eexists. split; [vm_compute; reflexivity|].
  split; [left; eexists; split; [reflexivity | by vm_compute]|].
  apply (X9_forward_costs_in_path_order_within_maxCost sample_sqrt 30 sample_engine_new
           sample_shipment 200 PInf 5 10).
  vm_compute. reflexivity.
Defined.

(** X10: on every path either engine returns, [providersInvolved] lists,
    without repeats, exactly the providers of the segments, [numHops] is
    the number of these providers (not of the segments or the nodes), and
    [reliabilityScore] is 1. *)
Theorem X10_numHops_counts_distinct_providers (sqrt : Q -> Q) (fuel : nat)
    (self : Engine.t) (self' : EngineNew.t) (shipment : Shipment.t)
    (maxCost maxETD : efloat) (maxHops topK : Z) (paths : list MultiHopPath.t) :
  Engine.find_mltihop_path sqrt fuel self shipment maxCost maxETD maxHops topK = Ret paths
  \/ EngineNew.find_mltihop_path sqrt fuel self' shipment maxCost maxETD maxHops topK
     = Ret paths ->
  forall p, p ∈ paths ->
    MultiHopPath.numHops p = length (MultiHopPath.providersInvolved p)
    /\ NoDup (MultiHopPath.providersInvolved p)
    /\ (forall q, q ∈ MultiHopPath.providersInvolved p
                  <-> exists seg, seg ∈ MultiHopPath.segments p
                                  /\ seg_providerId seg = Some q)
    /\ MultiHopPath.reliabilityScore p = 1%Q.
Proof.
  intros [Hfind | Hfind] p Hp.
  - exact (Engine_paths_providers _ _ _ _ _ _ _ _ _ Hfind p Hp).
  - apply EngineNew_find_spec in Hfind as [-> | (st & current & l & p' & -> & Hfound)];
      apply list_elem_of_singleton in Hp as ->.
    + apply (init_providers (Shipment.id shipment) PInf PInf [] []).
    + exact (found_providers _ _ _ _ _ _ _ Hfound).
Qed.

Lemma X10_numHops_counts_distinct_providers_witness :
  exists paths,
    Engine.find_mltihop_path sample_sqrt 30 sample_engine sample_shipment PInf PInf 5 10
    = Ret paths
    /\ Forall (fun p => 4 <= length (MultiHopPath.segments p)
                        /\ MultiHopPath.numHops p = 1) paths
    /\ forall p, p ∈ paths ->
         MultiHopPath.numHops p = length (MultiHopPath.providersInvolved p)
         /\ NoDup (MultiHopPath.providersInvolved p)
         /\ (forall q, q ∈ MultiHopPath.providersInvolved p
                       <-> exists seg, seg ∈ MultiHopPath.segments p
                                       /\ seg_providerId seg = Some q)
         /\ MultiHopPath.reliabilityScore p = 1%Q.
Proof.
  eexists. split; [vm_compute; reflexivity|]. split.
  { repeat (constructor; [split; [vm_compute; lia | reflexivity]|]). constructor. }
  apply (X10_numHops_counts_distinct_providers sample_sqrt 30 sample_engine
           sample_engine_new sample_shipment PInf PInf 5 10).
  left. vm_compute. reflexivity.
Defined.
(** ** The optimizer of the bidirectional engine *)

(** *** A stable sort keeps equal keys in their former order *)

Section StableSortTies.
Context {A : Type} (leb : A -> A -> bool) (R : A -> A -> Prop).
Hypothesis leb_total : forall x y, leb x y = false -> leb y x = true.
Hypothesis leb_trans : forall x y z, leb x y = true -> leb y z = true -> leb x z = true.

Local Abbreviation lexR := (fun x y => leb x y = true /\ (leb y x = true -> R x y)).

Lemma sort_insert_ties (x : A) (l : list A) :
  Forall (R x) l -> StronglySorted lexR l -> StronglySorted lexR (sort_insert leb x l).
Proof.
  intros Hx Hs. induction Hs as [|y l Hs IH Hy]; simpl; [by repeat constructor|].
  apply Forall_cons in Hx as [Hxy Hxl].
  destruct (leb x y) eqn:Hleb.
  - constructor; [by constructor|]. constructor; [done|].
    rewrite Forall_forall in Hy, Hxl |- *. intros z Hz.
    split; [|intros _; by apply Hxl]. eapply leb_trans; [exact Hleb|]. by apply Hy.
  - constructor; [by apply IH|].
    rewrite (sort_insert_perm leb x l). constructor; [|done].
    split; [by apply leb_total|]. congruence.
Qed.

Lemma stable_sort_ties (l : list A) :
  StronglySorted R l -> StronglySorted lexR (stable_sort leb l).
Proof.
  induction 1 as [|x l Hs IH Hx]; simpl; [constructor|].
  apply sort_insert_ties; [|done]. by rewrite (stable_sort_perm leb l).
Qed.
End StableSortTies.


(** *** The score and its division *)

Lemma inverse_score_outcome (x : efloat) (scale : Q) :
  ~ (scale == 0)%Q ->
  (Engine.inverse_score x scale = Raise ZeroDivisionError
   /\ exists q, x = Fin q /\ (q == - scale)%Q)
  \/ (Engine.inverse_score x scale = Ret (inverse_term x scale)
      /\ forall q, x = Fin q -> ~ (q == - scale)%Q).
Proof.
  intros Hs. destruct x as [q|]; simpl; [|right; split; [done|]; by intros q [=]].
  destruct (Qeq_bool (1 + q / scale) 0) eqn:Hd.
  - left. split; [done|]. exists q. split; [done|].
    apply Qeq_bool_iff in Hd.
    assert (Hq : (q == (1 + q / scale) * scale - scale)%Q) by (field; done).
    rewrite Hd in Hq. lra.
  - right. split; [done|]. intros q' [= <-] Hq.
    apply Qeq_bool_neq in Hd. apply Hd. rewrite Hq. field. done.
Qed.

Lemma score_path_outcome (p : MultiHopPath.t) :
  (Engine.score_path p = Raise ZeroDivisionError /\ score_undefined p)
  \/ (Engine.score_path p = Ret (MultiHopPath.set_totScore p (score_as_specified p))
      /\ ~ score_undefined p).
Proof.
  unfold Engine.score_path, score_undefined.
  destruct (inverse_score_outcome (MultiHopPath.totalCost p) 1000) as [[-> Hc] | [-> Hc]];
    [done | left; split; [done|]; left | ].
  { destruct Hc as (c & Hc & Heq). exists c. split; [done|]. by rewrite Heq. }
  cbn [mbind outcome_bind obind].
  destruct (inverse_score_outcome (MultiHopPath.totalETD p) 24) as [[-> He] | [-> He]];
    [done | left; split; [done|]; right | ].
  { destruct He as (e & He & Heq). exists e. split; [done|]. by rewrite Heq. }
  cbn [mbind outcome_bind obind]. right. split; [done|].
  intros [(c & Hc' & Heq) | (e & He' & Heq)].
  - apply (Hc c Hc'). by rewrite Heq.
  - apply (He e He'). by rewrite Heq.
Qed.

Lemma omap_each_outcome {A B} (f : A -> outcome B) (g : A -> B) (bad : A -> Prop) (e : exn)
    (l : list A) :
  (forall a, (f a = Raise e /\ bad a) \/ (f a = Ret (g a) /\ ~ bad a)) ->
  (Engine.omap_each f l = Raise e /\ Exists bad l)
  \/ (Engine.omap_each f l = Ret (g <$> l) /\ Forall (fun a => ~ bad a) l).
Proof.
  intros Hf. induction l as [|a l IH]; simpl.
  - right. split; [done|]. constructor.
  - destruct (Hf a) as [[-> Ha] | [-> Ha]]; cbn [mbind outcome_bind obind].
    + left. split; [done|]. by left.
    + destruct IH as [[-> Hl] | [-> Hl]]; cbn [mbind outcome_bind obind].
      * left. split; [done|]. by right.
      * right. split; [done|]. by constructor.
Qed.

Lemma Engine_multi_criteria_outcome (sqrt : Q -> Q) (fuel : nat) (self : Engine.t)
    (shipment : Shipment.t) (candidates : list MultiHopPath.t) :
  Engine.find_mltihop_path sqrt fuel self shipment PInf PInf 5 15 = Ret candidates ->
  (Engine.optimize_multi_criteria sqrt fuel self shipment = Raise ZeroDivisionError
   /\ Exists score_undefined candidates)
  \/ (Engine.optimize_multi_criteria sqrt fuel self shipment
      = Ret (Engine.assign_ranks
               (stable_sort Engine.score_geb
                  ((fun p => MultiHopPath.set_totScore p (score_as_specified p))
                   <$> candidates)))
      /\ Forall (fun p => ~ score_undefined p) candidates).
Proof.
  intros Hfind. unfold Engine.optimize_multi_criteria. rewrite Hfind.
  cbn [mbind outcome_bind obind].
  destruct (omap_each_outcome Engine.score_path
              (fun p => MultiHopPath.set_totScore p (score_as_specified p))
              score_undefined ZeroDivisionError candidates score_path_outcome)
    as [[-> Hex] | [-> Hall]]; cbn [mbind outcome_bind obind]; [by left | by right].
Qed.

(** *** Bounds on the score *)

Lemma Engine_paths_segments_Forall (sqrt : Q -> Q) (fuel : nat) (self : Engine.t)
    (shipment : Shipment.t) (maxCost maxETD : efloat) (maxHops topK : Z)
    (P : Segment -> Prop) (paths : list MultiHopPath.t) :
  (forall forward a b nb,
     nb ∈ Engine._get_neighbors self b shipment maxHops forward -> nb.1.1.1 = a ->
     P (unroll_segment b a (Engine.mkEdge nb.1.1.2 nb.1.2 nb.2))) ->
  Engine.find_mltihop_path sqrt fuel self shipment maxCost maxETD maxHops topK = Ret paths ->
  forall p, p ∈ paths -> Forall P (MultiHopPath.segments p).
Proof.
  intros HP (fwd & bwd & Hfwd & Hbwd & Hall)%Engine_find_spec p Hp.
  destruct (Hall p Hp) as [-> | (meet & Hty & Hmf & Hmb & lf & lb & Hlf & Hlb & ->)];
    [constructor|].
  apply astar_search_links in Hfwd, Hbwd.
  pose proof (parent_chain_edges _ _ _ _ _ _ _ _ Hfwd meet lf Hlf) as Hwf.
  pose proof (parent_chain_edges _ _ _ _ _ _ _ _ Hbwd meet lb Hlb) as Hwb.
  simpl. apply Forall_app. split.
  - apply Forall_reverse, segs_along_Forall.
    eapply walk_mono; [|exact Hwf]. intros a b (nb & Hnb & Hn & Hed).
    eexists. split; [exact Hed|]. by eapply HP.
  - apply segs_along_Forall.
    eapply walk_mono; [|exact Hwb]. intros a b (nb & Hnb & Hn & Hed).
    eexists. split; [exact Hed|]. by eapply HP.
Qed.

Lemma Engine_neighbor_hours (self : Engine.t) (n : node) (s : Shipment.t) (maxHops : Z)
    (forward : bool) (nb : Engine.neighbor) :
  route_hours_nonneg (Engine.index self) ->
  nb ∈ Engine._get_neighbors self n s maxHops forward -> (0 <= nb.1.2)%Q.
Proof.
  intros Hh Hnb. pose proof (Engine_neighbor_edge_ok _ _ _ _ _ _ Hnb) as Hok.
  destruct n as [[t id] prov]. unfold Engine._get_neighbors in Hnb. destruct t.
  - apply list_elem_of_fmap in Hnb as ([p zc] & -> & _). done.
  - apply elem_of_app in Hnb as [Hnb | (pc & -> & _)%list_elem_of_fmap]; [|done].
    destruct forward; apply list_elem_of_fmap in Hnb as (r & -> & _);
      simpl in *; apply Hh, Hok.
Qed.

Lemma cost_sum_nonneg (segs : list Segment) :
  Forall (fun s => (0 <= seg_cost s)%Q) segs -> (0 <= cost_sum 0 segs)%Q.
Proof.
  induction 1 as [|s segs Hs Hsegs IH]; [done|].
  change (s :: segs) with ([s] ++ segs). rewrite cost_sum_app.
  unfold cost_sum at 1. simpl. lra.
Qed.

Lemma etd_sum_nonneg (segs : list Segment) :
  Forall (fun s => (0 <= seg_etd s)%Q) segs -> (0 <= etd_sum 0 segs)%Q.
Proof.
  induction 1 as [|s segs Hs Hsegs IH]; [done|].
  change (s :: segs) with ([s] ++ segs). rewrite etd_sum_app.
  unfold etd_sum at 1. simpl. lra.
Qed.

Lemma inverse_term_bounds (x : efloat) (scale : Q) :
  (0 < scale)%Q -> (forall q, x = Fin q -> (0 <= q)%Q) ->
  (0 <= inverse_term x scale)%Q /\ (inverse_term x scale <= 1)%Q.
Proof.
  intros Hs Hx. destruct x as [q|]; simpl; [|split; lra].
  assert (0 <= q / scale)%Q by (apply Qle_shift_div_l; [done | specialize (Hx q eq_refl); lra]).
  split.
  - apply Qle_shift_div_l; lra.
  - apply Qle_shift_div_r; lra.
Qed.

(** What holds of a path the bidirectional engine returns when no route
    has a negative cost or a negative time. *)
Lemma Engine_paths_nonneg (sqrt : Q -> Q) (fuel : nat) (self : Engine.t)
    (shipment : Shipment.t) (maxCost maxETD : efloat) (maxHops topK : Z)
    (paths : list MultiHopPath.t) :
  route_costs_nonneg (Engine.index self) (Shipment.weightKG shipment) ->
  route_hours_nonneg (Engine.index self) ->
  Engine.find_mltihop_path sqrt fuel self shipment maxCost maxETD maxHops topK = Ret paths ->
  forall p, p ∈ paths ->
    (forall c, MultiHopPath.totalCost p = Fin c -> (0 <= c)%Q)
    /\ (forall e, MultiHopPath.totalETD p = Fin e -> (0 <= e)%Q)
    /\ MultiHopPath.reliabilityScore p = 1%Q.
Proof.
  intros Hcost Hhours Hfind p Hp.
  destruct (Engine_paths_providers _ _ _ _ _ _ _ _ _ Hfind p Hp) as (_ & _ & _ & Hrel).
  destruct (Engine_paths_totals _ _ _ _ _ _ _ _ _ Hfind p Hp)
    as [-> | (c & e & Hc & He & Hcs & Hes & _)]; [done|].
  pose proof (Engine_paths_segments_Forall sqrt fuel self shipment maxCost maxETD maxHops
                topK (fun s => (0 <= seg_cost s)%Q /\ (0 <= seg_etd s)%Q) paths) as Hsegs.
  assert (Hall : Forall (fun s => (0 <= seg_cost s)%Q /\ (0 <= seg_etd s)%Q)
                        (MultiHopPath.segments p)).
  { apply Hsegs; [|done..]. intros forward a b nb Hnb _. simpl. split.
    - by apply (route_costs_nonneg_neighbors self shipment forward maxHops Hcost b nb).
    - by eapply Engine_neighbor_hours. }
  split; [|split; [|done]].
  - intros c' Hc'. rewrite Hc in Hc'. injection Hc' as <-. rewrite Hcs.
    apply cost_sum_nonneg. eapply Forall_impl; [exact Hall|]. by intros s [? ?].
  - intros e' He'. rewrite He in He'. injection He' as <-. rewrite Hes.
    apply etd_sum_nonneg. eapply Forall_impl; [exact Hall|]. by intros s [? ?].
Qed.

Lemma score_bounds (p : MultiHopPath.t) :
  (forall c, MultiHopPath.totalCost p = Fin c -> (0 <= c)%Q) ->
  (forall e, MultiHopPath.totalETD p = Fin e -> (0 <= e)%Q) ->
  MultiHopPath.reliabilityScore p = 1%Q ->
  (0.25 <= score_as_specified p)%Q /\ (score_as_specified p <= 1)%Q
  /\ ~ score_undefined p.
Proof.
  intros Hc He Hr. unfold score_as_specified. rewrite Hr.
  destruct (inverse_term_bounds (MultiHopPath.totalCost p) 1000) as [? ?]; [done | done |].
  destruct (inverse_term_bounds (MultiHopPath.totalETD p) 24) as [? ?]; [done | done |].
  split; [lra|]. split; [lra|].
  intros [(c & Hc' & Heq) | (e & He' & Heq)].
  - specialize (Hc c Hc'). lra.
  - specialize (He e He'). lra.
Qed.


Lemma route_hours_nonnegb_sound (idx : GraphIndex.t) :
  route_hours_nonnegb idx = true -> route_hours_nonneg idx.
Proof.
  unfold route_hours_nonnegb. rewrite forallb_forall. intros Hall r (k & l & Hl & Hr).
  assert (Hin : In (k, l) (map_to_list (GraphIndex._zoneAdj idx)
                           ++ map_to_list (GraphIndex._revZoneAdj idx))).
  { apply list_elem_of_In, elem_of_app.
    destruct Hl as [Hl | Hl]; [left | right]; by apply elem_of_map_to_list. }
  specialize (Hall _ Hin). simpl in Hall. rewrite forallb_forall in Hall.
  apply Qle_bool_iff, Hall. by apply list_elem_of_In.
Qed.


(** X12: [optimize_multi_criteria] of the bidirectional engine fails with a
    [ZeroDivisionError] exactly when one of the 15 candidates has a total
    cost of -1000 or a total time of -24 hours, the values at which a
    denominator of the score is 0. *)
Theorem X12_score_division_by_zero (sqrt : Q -> Q) (fuel : nat) (self : Engine.t)
    (shipment : Shipment.t) (candidates : list MultiHopPath.t) :
  Engine.find_mltihop_path sqrt fuel self shipment PInf PInf 5 15 = Ret candidates ->
  (Engine.optimize_multi_criteria sqrt fuel self shipment = Raise ZeroDivisionError
   <-> Exists score_undefined candidates).
Proof.
  intros Hfind.
  destruct (Engine_multi_criteria_outcome _ _ _ _ _ Hfind) as [[Hr Hex] | [Hr Hall]].
  - done.
  - split.
    + rewrite Hr. discriminate.
    + intros Hex. apply Exists_exists in Hex as (p & Hp & Hu).
      rewrite Forall_forall in Hall. by destruct (Hall p Hp).
Qed.

Lemma X12_score_division_by_zero_witness :
  exists candidates,
    Engine.find_mltihop_path sample_sqrt 30 refund_engine short_shipment PInf PInf 5 15
    = Ret candidates
    /\ Engine.optimize_multi_criteria sample_sqrt 30 refund_engine short_shipment
       = Raise ZeroDivisionError
    /\ (Engine.optimize_multi_criteria sample_sqrt 30 refund_engine short_shipment
        = Raise ZeroDivisionError
        <-> Exists score_undefined candidates).
Proof.
  eexists. split; [vm_compute; reflexivity|]. split; [vm_compute; reflexivity|].
  apply (X12_score_division_by_zero sample_sqrt 30 refund_engine short_shipment).
  vm_compute. reflexivity.
Defined.

(** ** Edge cases and the two views of the graph *)

(** *** The forward engine on a shipment that stays where it is *)

Lemma EngineNew_body_same_postcode (sqrt : Q -> Q) (fuel : nat) (self : EngineNew.t)
    (shipment : Shipment.t) (maxCost : efloat) :
  Shipment.destPC shipment = Shipment.originPC shipment ->
  EngineNew.loop_body sqrt (S fuel) self shipment maxCost (initial_stateN sqrt self shipment)
  = Ret (inr (Some (MultiHopPath.init (Shipment.id shipment) (Fin 0) (Fin 0)
                      [ (Pc, Shipment.originPC shipment, None) ] [] [] 0))).
Proof.
  intros Hd. unfold EngineNew.loop_body, initial_stateN. simpl.
  destruct (decide _) as [_|Hn]; [|by destruct Hn].
  unfold EngineNew._reconstruct_path, EngineNew.reconstruct_loop.
  rewrite while_loop_S, reconstruct_body_eq, lookup_empty. done.
Qed.

(** X14: for a shipment whose destination is its origin, a known postcode,
    the forward engine returns, at its first iteration and whatever the
    thresholds, the single path made of that postcode vertex, with no
    segment, no provider, cost 0 and time 0. *)
Theorem X14_forward_same_postcode_is_free
    (sqrt : Q -> Q) (fuel : nat) (self : EngineNew.t)
    (shipment : Shipment.t) (maxCost maxETD : efloat) (maxHops topK : Z) :
  Shipment.originPC shipment ∈ dom (EngineNew.postcodes self) ->
  Shipment.destPC shipment = Shipment.originPC shipment ->
  1 <= fuel ->
  EngineNew.find_mltihop_path sqrt fuel self shipment maxCost maxETD maxHops topK
  = Ret [ MultiHopPath.init (Shipment.id shipment) (Fin 0) (Fin 0)
            [ (Pc, Shipment.originPC shipment, None) ] [] [] 0 ].
Proof.
  intros Ho Hd Hfuel. destruct fuel as [|fuel]; [lia|].
  rewrite EngineNew_find_unfold by (by rewrite ?Hd).
  unfold EngineNew.search_loop.
  rewrite while_loop_S, EngineNew_body_same_postcode by done. done.
Qed.

(** *** The two engines and the graph they walk *)

(** X15: over the same index the two engines see the same forward
    neighbours at every vertex, in the same order, with the same costs
    and hours; only the description attached to an edge differs. *)
Theorem X15_engines_expand_the_same_forward_edges
    (idx : GraphIndex.t) (pcs pcs' : gmap string Postcode.t)
    (n : node) (shipment : Shipment.t) (maxHops : Z) :
  (fun nb : EngineNew.neighbor => nb.1)
    <$> EngineNew._get_forward_neighbors (EngineNew.mk idx pcs) n shipment
  = (fun nb : Engine.neighbor => nb.1)
      <$> Engine._get_neighbors (Engine.mk idx pcs') n shipment maxHops true.
Proof.
  destruct n as [[t id] prov]. destruct t; simpl.
  - rewrite <- !list_fmap_compose. apply list_fmap_ext. by intros i [p z] _.
  - rewrite !fmap_app, <- !list_fmap_compose. done.
Qed.

(** X16: on an index built by [GraphIndex], the backward neighbours
    between zones are the forward ones reversed: zone [z'] is a forward
    neighbour of zone [z] exactly when [z] is a backward neighbour of
    [z'], with the same cost, hours and route. *)
Theorem X16_backward_zone_edges_mirror_forward
    (self : Engine.t) (shipment : Shipment.t) (maxHops : Z)
    (postcodes : list Postcode.t) (providerZones : list (string * list ProviderZone.t))
    (zoneRoutes : list (string * list ProviderZoneRoute.t))
    (prov : option string) (z z' : string) (c e : Q) (i : Engine.RouteInfo) :
  Engine.index self = GraphIndex.init postcodes providerZones zoneRoutes ->
  ((Pz, z', prov), c, e, i) ∈ Engine._get_neighbors self (Pz, z, prov) shipment maxHops true
  <-> ((Pz, z, prov), c, e, i)
      ∈ Engine._get_neighbors self (Pz, z', prov) shipment maxHops false.
Proof.
  intros Hidx. unfold Engine._get_neighbors. rewrite Hidx.
  rewrite !elem_of_app, !list_elem_of_fmap. split.
  - intros [(r & [= -> -> -> ->] & Hr) | (pc & [=] & _)]. left. exists r.
    destruct prov as [p|]; [|by apply not_elem_of_nil in Hr]. simpl in Hr |- *.
    rewrite buildZoneAdjacency_all in Hr. rewrite buildReverseZoneAdjacency_all.
    apply list_elem_of_filter in Hr as [[= <- <-] Hr]. split; [done|].
    apply list_elem_of_filter. done.
  - intros [(r & [= -> -> -> ->] & Hr) | (pc & [=] & _)]. left. exists r.
    destruct prov as [p|]; [|by apply not_elem_of_nil in Hr]. simpl in Hr |- *.
    rewrite buildReverseZoneAdjacency_all in Hr. rewrite buildZoneAdjacency_all.
    apply list_elem_of_filter in Hr as [[= <- <-] Hr]. split; [done|].
    apply list_elem_of_filter. done.
Qed.


(** *** Zones of a postcode and postcodes of a zone *)

Lemma filter_none {A} (P : A -> Prop) `{forall x, Decision (P x)} (l : list A) :
  (forall x, x ∈ l -> ~ P x) -> filter P l = [].
Proof.
  induction l as [|y l IH]; intros Hl; [done|].
  rewrite filter_cons_False by (apply Hl; by left). apply IH. intros x Hx. apply Hl. by right.
Qed.

Lemma filter_unique_key {A K} `{EqDecision K} (key : A -> K) (l : list A) (x : A) :
  NoDup (key <$> l) -> x ∈ l -> filter (fun y => key y = key x) l = [x].
Proof.
  induction l as [|y l IH]; intros Hnd Hx; [by apply not_elem_of_nil in Hx|].
  rewrite fmap_cons in Hnd. apply NoDup_cons in Hnd as [Hy Hnd].
  rewrite filter_cons. apply elem_of_cons in Hx as [-> | Hx].
  - rewrite decide_True by done. f_equal.
    apply filter_none. intros z Hz Heq.
    apply Hy. rewrite <- Heq. by apply list_elem_of_fmap_2.
  - rewrite decide_False; [by apply IH|].
    intros Heq. apply Hy. rewrite Heq. by apply list_elem_of_fmap_2.
Qed.

(** X17: on an index built by [GraphIndex], a postcode listed for a zone
    has that zone among its zones; conversely, when no provider has two
    zones of the same code, a postcode that has a zone among its zones is
    listed for that zone. *)
Theorem X17_zone_postcode_round_trip
    (postcodes : list Postcode.t)
    (providerZones : list (string * list ProviderZone.t))
    (zoneRoutes : list (string * list ProviderZoneRoute.t)) :
  let idx := GraphIndex.init postcodes providerZones zoneRoutes in
  (forall p z pc,
     pc ∈ GraphIndex.get_PostcodesForZone idx (Some p) z ->
     (p, z) ∈ GraphIndex.get_ZonesForPostcode idx pc)
  /\ (NoDup ((fun e => (e.1, ProviderZone.zoneCode e.2)) <$> zone_entries providerZones) ->
      forall p z pc,
        (p, z) ∈ GraphIndex.get_ZonesForPostcode idx pc ->
        pc ∈ GraphIndex.get_PostcodesForZone idx (Some p) z).
Proof.
  intros idx.
  assert (Hzones : forall pc p z,
            (p, z) ∈ GraphIndex.get_ZonesForPostcode idx pc
            <-> exists zone, (p, zone) ∈ zone_entries providerZones
                             /\ ProviderZone.zoneCode zone = z
                             /\ pc ∈ ProviderZone.postcodes zone).
  { intros pc p z. unfold idx, GraphIndex.get_ZonesForPostcode. simpl.
    rewrite buildPCtoZoneMap_all, list_elem_of_fmap. split.
    - intros ([pc' [p' z']] & [= <- <-] & [Hpc He]%list_elem_of_filter). simpl in Hpc. subst pc'.
      unfold postcode_entries in He.
      apply list_elem_of_bind in He as ([q zone] & Hin & Hzone).
      apply list_elem_of_fmap in Hin as (pc' & [= -> -> ->] & Hin).
      by exists zone.
    - intros (zone & Hzone & <- & Hpc).
      exists (pc, (p, ProviderZone.zoneCode zone)). split; [done|].
      apply list_elem_of_filter. split; [done|].
      unfold postcode_entries. apply list_elem_of_bind. exists (p, zone).
      split; [|done]. apply list_elem_of_fmap. by exists pc. }
  split.
  - intros p z pc Hpc. apply Hzones.
    unfold idx, GraphIndex.get_PostcodesForZone in Hpc. simpl in Hpc.
    rewrite buildZoneToPCMap_last in Hpc.
    destruct (last _) as [[q zone]|] eqn:Hlast; [|by apply not_elem_of_nil in Hpc].
    simpl in Hpc. apply last_Some_elem_of, list_elem_of_filter in Hlast as [[= -> <-] Hin].
    by exists zone.
  - intros Hnd p z pc (zone & Hzone & <- & Hpc)%Hzones.
    unfold idx, GraphIndex.get_PostcodesForZone. simpl.
    rewrite buildZoneToPCMap_last.
    rewrite (filter_unique_key (fun e => (e.1, ProviderZone.zoneCode e.2))
               (zone_entries providerZones) (p, zone) Hnd Hzone). done.
Qed.

Lemma X14_forward_same_postcode_is_free_witness :
  EngineNew.find_mltihop_path sample_sqrt 1 poc_engine_new local_shipment PInf PInf 5 10
  = Ret [ MultiHopPath.init (Shipment.id local_shipment) (Fin 0) (Fin 0)
            [ (Pc, Shipment.originPC local_shipment, None) ] [] [] 0 ].
Proof.
  apply (X14_forward_same_postcode_is_free sample_sqrt 1 poc_engine_new local_shipment
           PInf PInf 5 10).
  - by vm_compute.
  - reflexivity.
  - lia.
Defined.

Lemma X16_backward_zone_edges_mirror_forward_witness :
  exists nb,
    head (Engine._get_neighbors sample_engine (Pz, "ZA", Some "FP_1") sample_shipment 5 true)
    = Some nb
    /\ nb.1.1.1 = (Pz, "ZB", Some "FP_1")
    /\ ((Pz, "ZA", Some "FP_1"), nb.1.1.2, nb.1.2, nb.2)
       ∈ Engine._get_neighbors sample_engine (Pz, "ZB", Some "FP_1") sample_shipment 5 false.
Proof.
  eexists. split; [vm_compute; reflexivity|]. split; [reflexivity|].
  apply (X16_backward_zone_edges_mirror_forward sample_engine sample_shipment 5
           sample_postcodes sample_zones sample_routes (Some "FP_1") "ZA" "ZB").
  - reflexivity.
  - vm_compute. left.
Defined.

Lemma X17_zone_postcode_round_trip_witness :
  ("FP_1", "ZA") ∈ GraphIndex.get_ZonesForPostcode sample_index "2000"
  /\ "2500" ∈ GraphIndex.get_PostcodesForZone sample_index (Some "FP_1") "ZB".
Proof.
  split.
  - apply (proj1 (X17_zone_postcode_round_trip sample_postcodes sample_zones sample_routes)
             "FP_1" "ZA" "2000").
    vm_compute. left.
  - apply (proj2 (X17_zone_postcode_round_trip sample_postcodes sample_zones sample_routes)).
    + apply (bool_decide_unpack _). vm_compute. exact I.
    + vm_compute. left.
Defined.
(** ** The loader and the pages *)

(** *** Filing under keys *)

Section Grouping.
Context {V : Type} (key : V -> string).

Local Abbreviation file d x := (DataLoader.append_item d (key x) x).

Lemma append_item_keys (d : list (string * list V)) (k : string) (x : V) :
  (DataLoader.append_item d k x).*1 = if decide (k ∈ d.*1) then d.*1 else d.*1 ++ [k].
Proof.
  induction d as [|[k' g] d IH]; [done|]. cbn [DataLoader.append_item].
  destruct (decide (k' = k)) as [->|Hne]; rewrite !fmap_cons; cbn [fst].
  - rewrite decide_True by (by left). done.
  - rewrite IH. destruct (decide (k ∈ d.*1)) as [Hin|Hnin].
    + rewrite decide_True by (by right). done.
    + rewrite decide_False; [done|]. intros [?|?]%elem_of_cons; congruence.
Qed.

Lemma append_item_elem (d : list (string * list V)) (k : string) (x : V)
    (k' : string) (g' : list V) :
  (k', g') ∈ DataLoader.append_item d k x ->
  (k', g') ∈ d \/ (k' = k /\ exists g, g' = g ++ [x] /\ ((k, g) ∈ d \/ g = [])).
Proof.
  induction d as [|[k0 g0] d IH]; simpl.
  - intros [= -> ->]%list_elem_of_singleton. right. split; [done|]. exists []. eauto.
  - destruct (decide (k0 = k)) as [->|Hne].
    + intros [[= -> ->] | Hin]%elem_of_cons.
      * right. split; [done|]. exists g0. split; [done|]. left. by left.
      * left. by right.
    + intros [[= -> ->] | Hin]%elem_of_cons; [left; by left|].
      destruct (IH Hin) as [? | (-> & g & -> & [? | ->])].
      * left. by right.
      * right. split; [done|]. exists g. split; [done|]. left. by right.
      * right. split; [done|]. exists []. eauto.
Qed.

Lemma append_item_grouped (d : list (string * list V)) (x : V) :
  grouped key d -> grouped key (file d x).
Proof.
  intros [Hnd Hk]. split.
  - rewrite append_item_keys. destruct (decide _); [done|].
    apply NoDup_app. split; [done|]. split; [|apply NoDup_singleton].
    intros k Hin ->%list_elem_of_singleton. done.
  - intros k g [Hin | (-> & g0 & -> & Hg0)]%append_item_elem y Hy; [by eapply Hk|].
    apply elem_of_app in Hy as [Hy | ->%list_elem_of_singleton]; [|done].
    destruct Hg0 as [Hin | ->]; [by eapply Hk | by apply not_elem_of_nil in Hy].
Qed.

Lemma foldl_grouped (d : list (string * list V)) (l : list V) :
  grouped key d -> grouped key (foldl (fun d x => file d x) d l).
Proof.
  revert d. induction l as [|x l IH]; intros d Hd; simpl; [done|].
  by apply IH, append_item_grouped.
Qed.

Lemma grouped_nil : grouped key [].
Proof. split; [constructor|]. intros k g Hin. by apply not_elem_of_nil in Hin. Qed.

Lemma grouped_cons_inv (k : string) (g : list V) (d : list (string * list V)) :
  grouped key ((k, g) :: d) ->
  grouped key d /\ (forall y, y ∈ g -> key y = k)
  /\ forall y, y ∈ concat d.*2 -> key y <> k.
Proof.
  intros [Hnd Hk]. simpl in Hnd. apply NoDup_cons in Hnd as [Hnin Hnd].
  split; [|split].
  - split; [done|]. intros k' g' Hin. apply Hk. by right.
  - apply Hk. by left.
  - intros y Hy Heq. apply Hnin.
    apply list_elem_of_In, in_concat in Hy as (g' & Hg' & Hy).
    apply list_elem_of_In, list_elem_of_fmap in Hg' as ([k' g''] & -> & Hin).
    simpl in Hy. apply list_elem_of_In in Hy.
    assert (key y = k') by (eapply Hk; [by right | done]). subst.
    apply list_elem_of_fmap. by exists (key y, g'').
Qed.

(** Filing [x] and then reading the lists in order, with a filter that
    only one key passes, is reading first and then adding [x]. *)
Lemma append_item_filter (P : V -> Prop) `{forall y, Decision (P y)} (k : string)
    (d : list (string * list V)) (x : V) :
  (forall y, P y -> key y = k) -> grouped key d ->
  filter P (concat (file d x).*2) = filter P (concat d.*2) ++ filter P [x].
Proof.
  intros HP. induction d as [|[k0 g0] d IH]; intros Hd; [done|].
  apply grouped_cons_inv in Hd as (Hd & Hg0 & Hrest). cbn [DataLoader.append_item].
  destruct (decide (k0 = key x)) as [->|Hne]; rewrite !fmap_cons; cbn [snd concat].
  - rewrite !filter_app, <- !(assoc_L (++)). f_equal.
    destruct (decide (P x)) as [Hx|Hx].
    + rewrite (filter_none P (concat d.*2)); [by rewrite app_nil_r|].
      intros y Hy Hpy. apply (Hrest y Hy). by rewrite (HP y Hpy), (HP x Hx).
    + rewrite (filter_cons_False P x []) by done. by rewrite filter_nil, !app_nil_r.
  - rewrite !filter_app, IH, (assoc_L (++)) by done. done.
Qed.

Lemma foldl_file_filter (P : V -> Prop) `{forall y, Decision (P y)} (k : string)
    (d : list (string * list V)) (l : list V) :
  (forall y, P y -> key y = k) -> grouped key d ->
  filter P (concat (foldl (fun d x => file d x) d l).*2)
  = filter P (concat d.*2) ++ filter P l.
Proof.
  intros HP. revert d. induction l as [|x l IH]; intros d Hd; simpl.
  - by rewrite app_nil_r.
  - rewrite IH by (by apply append_item_grouped).
    rewrite (append_item_filter P k) by done.
    rewrite <- (assoc_L (++)). f_equal.
    change (x :: l) with ([x] ++ l). by rewrite filter_app.
Qed.

Lemma append_item_perm (d : list (string * list V)) (k : string) (x : V) :
  concat (DataLoader.append_item d k x).*2 ≡ₚ concat d.*2 ++ [x].
Proof.
  induction d as [|[k0 g0] d IH]; [done|]. cbn [DataLoader.append_item].
  destruct (decide (k0 = k)); rewrite !fmap_cons; cbn [snd concat].
  - rewrite <- !(assoc_L (++)). f_equiv. apply Permutation_app_comm.
  - rewrite IH. by rewrite (assoc_L (++)).
Qed.

Lemma foldl_file_perm (d : list (string * list V)) (l : list V) :
  concat (foldl (fun d x => file d x) d l).*2 ≡ₚ concat d.*2 ++ l.
Proof.
  revert d. induction l as [|x l IH]; intros d; simpl; [by rewrite app_nil_r|].
  rewrite IH, append_item_perm. by rewrite <- (assoc_L (++)).
Qed.

Lemma append_item_get (d : list (string * list V)) (x : V) (k : string) :
  App.dict_get (file d x) k
  = App.dict_get d k ++ (if decide (key x = k) then [x] else []).
Proof.
  induction d as [|[k0 g0] d IH].
  - simpl. destruct (decide (key x = k)); by simpl.
  - cbn [DataLoader.append_item].
    destruct (decide (k0 = key x)) as [->|Hne]; cbn [App.dict_get].
    + destruct (decide (key x = k)); [done | by rewrite app_nil_r].
    + destruct (decide (k0 = k)) as [->|Hk]; [|done].
      rewrite decide_False by congruence. by rewrite app_nil_r.
Qed.

Lemma foldl_file_get (d : list (string * list V)) (l : list V) (k : string) :
  App.dict_get (foldl (fun d x => file d x) d l) k
  = App.dict_get d k ++ filter (fun y => key y = k) l.
Proof.
  revert d. induction l as [|x l IH]; intros d; simpl; [by rewrite app_nil_r|].
  rewrite IH, filter_cons, append_item_get.
  destruct (decide (key x = k)); by rewrite <- ?(assoc_L (++)), ?app_nil_r.
Qed.

Lemma append_item_count (d : list (string * list V)) (k : string) (x : V) :
  sum_list (length <$> (DataLoader.append_item d k x).*2)
  = S (sum_list (length <$> d.*2)).
Proof.
  induction d as [|[k0 g0] d IH]; [done|]. cbn [DataLoader.append_item].
  destruct (decide (k0 = k)); rewrite !fmap_cons; cbn [snd sum_list_with].
  - rewrite length_app. simpl. lia.
  - change (sum_list_with id ?l) with (sum_list l). rewrite IH. lia.
Qed.

Lemma foldl_file_count (d : list (string * list V)) (l : list V) :
  sum_list (length <$> (foldl (fun d x => file d x) d l).*2)
  = sum_list (length <$> d.*2) + length l.
Proof.
  revert d. induction l as [|x l IH]; intros d; simpl; [lia|].
  rewrite IH, append_item_count. lia.
Qed.

Lemma foldl_file_keys (d : list (string * list V)) (l : list V) (k : string) :
  k ∈ (foldl (fun d x => file d x) d l).*1 <-> k ∈ d.*1 \/ k ∈ key <$> l.
Proof.
  revert d. induction l as [|x l IH]; intros d; simpl.
  - split; [by left|]. intros [? | Hin]; [done|]. by apply not_elem_of_nil in Hin.
  - rewrite IH, append_item_keys, elem_of_cons.
    destruct (decide (key x ∈ d.*1)) as [Hin|Hnin].
    + split; [intros [? | ?]; eauto|]. intros [? | [-> | ?]]; eauto.
    + rewrite elem_of_app, list_elem_of_singleton. split.
      * intros [[? | ->] | ?]; eauto.
      * intros [? | [-> | ?]]; eauto.
Qed.
End Grouping.

(** *** The index the loader builds *)

(** X18: in the zone-route map the loader builds, every key occurs once
    and every route is filed under the key made of its own provider and
    origin zone. *)
Theorem X18_zone_route_map_is_grouped_by_key
    (routes : list ProviderZoneRoute.t) :
  grouped DataLoader.route_key (DataLoader.provider_graph routes).
Proof. apply foldl_grouped, grouped_nil. Qed.

Lemma zones_by_provider_grouped (zones : list ProviderZone.t) :
  grouped ProviderZone.providerId (DataLoader.zones_by_provider zones).
Proof. apply foldl_grouped, grouped_nil. Qed.

Lemma build_index_outgoing (postcodes : list Postcode.t) (zones : list ProviderZone.t)
    (routes : list ProviderZoneRoute.t) (p z : string) :
  GraphIndex.get_OutgoingRoutes (DataLoader.build_index postcodes zones routes) (Some p) z
  = filter (fun r => (ProviderZoneRoute.providerId r, ProviderZoneRoute.fromZone r) = (p, z))
           routes.
Proof.
  unfold DataLoader.build_index, DataLoader._build_graph_index. simpl.
  rewrite buildZoneAdjacency_all. unfold all_routes, DataLoader.provider_graph.
  rewrite (foldl_file_filter DataLoader.route_key _ (p +:+ "/" +:+ z)); [done| |apply grouped_nil].
  intros r [= <- <-]. done.
Qed.

Lemma build_index_incoming (postcodes : list Postcode.t) (zones : list ProviderZone.t)
    (routes : list ProviderZoneRoute.t) (p z : string) :
  GraphIndex.get_IncomingRoutes (DataLoader.build_index postcodes zones routes) (Some p) z
  ≡ₚ filter (fun r => (ProviderZoneRoute.providerId r, ProviderZoneRoute.toZone r) = (p, z))
            routes.
Proof.
  unfold DataLoader.build_index, DataLoader._build_graph_index. simpl.
  rewrite buildReverseZoneAdjacency_all. unfold all_routes, DataLoader.provider_graph.
  by rewrite (foldl_file_perm DataLoader.route_key [] routes).
Qed.

Lemma zone_entries_grouped (zones : list ProviderZone.t) (p : string) (zone : ProviderZone.t) :
  (p, zone) ∈ zone_entries (DataLoader.zones_by_provider zones)
  <-> zone ∈ zones /\ ProviderZone.providerId zone = p.
Proof.
  destruct (zones_by_provider_grouped zones) as [_ Hk].
  pose proof (foldl_file_perm ProviderZone.providerId [] zones) as Hperm.
  fold (DataLoader.zones_by_provider zones) in Hperm. simpl in Hperm.
  unfold zone_entries. rewrite list_elem_of_bind. split.
  - intros ([k g] & Hg & Hin). apply list_elem_of_fmap in Hg as (y & [= -> ->] & Hy).
    split; [|by eapply Hk].
    rewrite <- Hperm. apply list_elem_of_In, in_concat. exists g.
    split; apply list_elem_of_In; [|done]. apply list_elem_of_fmap. by exists (k, g).
  - intros [Hz <-]. rewrite <- Hperm in Hz.
    apply list_elem_of_In, in_concat in Hz as (g & Hg & Hz).
    apply list_elem_of_In, list_elem_of_fmap in Hg as ([k g'] & -> & Hin).
    apply list_elem_of_In in Hz. simpl in Hz.
    exists (k, g'). split; [|done]. apply list_elem_of_fmap. exists zone.
    split; [|done]. f_equal. by eapply Hk.
Qed.

Lemma zones_for_postcode_iff (postcodes : list Postcode.t)
    (providerZones : list (string * list ProviderZone.t))
    (zoneRoutes : list (string * list ProviderZoneRoute.t)) (pc p z : string) :
  (p, z) ∈ GraphIndex.get_ZonesForPostcode
             (GraphIndex.init postcodes providerZones zoneRoutes) pc
  <-> exists zone, (p, zone) ∈ zone_entries providerZones
                   /\ ProviderZone.zoneCode zone = z
                   /\ pc ∈ ProviderZone.postcodes zone.
Proof.
  unfold GraphIndex.get_ZonesForPostcode. simpl.
  rewrite buildPCtoZoneMap_all, list_elem_of_fmap. split.
  - intros ([pc' [p' z']] & [= <- <-] & [Hpc He]%list_elem_of_filter). simpl in Hpc. subst pc'.
    unfold postcode_entries in He.
    apply list_elem_of_bind in He as ([q zone] & Hin & Hzone).
    apply list_elem_of_fmap in Hin as (pc' & [= -> -> ->] & Hin).
    by exists zone.
  - intros (zone & Hzone & <- & Hpc).
    exists (pc, (p, ProviderZone.zoneCode zone)). split; [done|].
    apply list_elem_of_filter. split; [done|].
    unfold postcode_entries. apply list_elem_of_bind. exists (p, zone).
    split; [|done]. apply list_elem_of_fmap. by exists pc.
Qed.

(** X20: on the index the loader builds, a (provider, zone code) pair is
    among the zones of a postcode exactly when a loaded zone of that
    provider and code lists the postcode. *)
Theorem X20_loaded_zones_of_a_postcode
    (postcodes : list Postcode.t) (zones : list ProviderZone.t)
    (routes : list ProviderZoneRoute.t) (pc p z : string) :
  (p, z) ∈ GraphIndex.get_ZonesForPostcode
             (DataLoader.build_index postcodes zones routes) pc
  <-> exists zone, zone ∈ zones /\ ProviderZone.providerId zone = p
                   /\ ProviderZone.zoneCode zone = z
                   /\ pc ∈ ProviderZone.postcodes zone.
Proof.
  unfold DataLoader.build_index. cbv zeta. rewrite zones_for_postcode_iff.
  split.
  - intros (zone & [? ?]%zone_entries_grouped & ? & ?). by exists zone.
  - intros (zone & ? & ? & ? & ?). exists zone. by rewrite zone_entries_grouped.
Qed.

(** X21: the four metrics of the home page over the index the loader
    builds: "Zone Routes" is the number of loaded routes and "Total
    Zones" the number of loaded zones, duplicates counted; "Providers" is
    the number of distinct providers of the zones and "Postcodes" the
    number of distinct postcode codes. *)
Theorem X21_home_page_metrics
    (postcodes : list Postcode.t) (zones : list ProviderZone.t)
    (routes : list ProviderZoneRoute.t) :
  let idx := DataLoader.build_index postcodes zones routes in
  App.metric_zone_routes idx = length routes
  /\ App.metric_total_zones idx = length zones
  /\ App.metric_providers idx = length (remove_dups (ProviderZone.providerId <$> zones))
  /\ App.metric_postcodes idx = length (remove_dups (Postcode.code <$> postcodes)).
Proof.
  intros idx. split; [|split; [|split]].
  - unfold App.metric_zone_routes, idx, DataLoader.build_index. simpl.
    unfold DataLoader.provider_graph. by rewrite foldl_file_count.
  - unfold App.metric_total_zones, idx, DataLoader.build_index. simpl.
    unfold DataLoader.zones_by_provider. by rewrite foldl_file_count.
  - unfold App.metric_providers, idx, DataLoader.build_index. simpl.
    rewrite <- (length_fmap fst). apply Permutation_length, NoDup_Permutation.
    + apply zones_by_provider_grouped.
    + apply NoDup_remove_dups.
    + intros k. rewrite elem_of_remove_dups. unfold DataLoader.zones_by_provider.
      rewrite foldl_file_keys. split; [intros [Hin | ?]; [by apply not_elem_of_nil in Hin | done]
                                      | by right].
  - unfold App.metric_postcodes, idx, DataLoader.build_index. simpl.
    assert (Hdom : forall l (m : gmap string Postcode.t),
              dom (foldl (fun d pc => <[Postcode.code pc := pc]> d) m l)
              = dom m ∪ list_to_set (Postcode.code <$> l)).
    { induction l as [|pc l IH]; intros m; simpl; [set_solver|].
      rewrite IH, dom_insert_L. set_solver. }
    rewrite <- size_dom. unfold GraphIndex.postcode_dict. rewrite Hdom, dom_empty_L.
    rewrite (left_id_L ∅ (∪)).
    assert (Heq : list_to_set (C:=gset string) (Postcode.code <$> postcodes)
                  = list_to_set (remove_dups (Postcode.code <$> postcodes))).
    { apply set_eq. intros x. by rewrite !elem_of_list_to_set, elem_of_remove_dups. }
    rewrite Heq, size_list_to_set; [done|]. apply NoDup_remove_dups.
Qed.

(** *** The table of provider metrics *)

Lemma has_slash_app (a b : string) : has_slash (a +:+ "/" +:+ b) = true.
Proof. induction a as [|c a IH]; simpl; [done|]. by destruct (decide _). Qed.

Lemma route_key_has_slash (r : ProviderZoneRoute.t) :
  has_slash (DataLoader.route_key r) = true.
Proof. apply has_slash_app. Qed.

Lemma comparison_row_routes (postcodes : list Postcode.t) (zones : list ProviderZone.t)
    (routes : list ProviderZoneRoute.t) (provider_id : string)
    (zs : list ProviderZone.t) :
  App.row_routes (App.comparison_row (DataLoader.build_index postcodes zones routes)
                    provider_id zs)
  = length (filter (fun r => DataLoader.route_key r = provider_id) routes).
Proof.
  unfold App.comparison_row, DataLoader.build_index, DataLoader._build_graph_index. simpl.
  unfold DataLoader.provider_graph. by rewrite foldl_file_get.
Qed.

(** X22: on the index the loader builds, the row of the table "Provider
    Network Metrics" for a provider whose identifier contains no [/]
    shows 0 routes, 0 average reliability, 0 minimal charge and 0 average
    base charge, whatever routes were loaded: the page looks the routes
    up under the provider's identifier, the loader files them under
    provider/zone keys. *)
Theorem X22_provider_comparison_shows_no_routes
    (postcodes : list Postcode.t) (zones : list ProviderZone.t)
    (routes : list ProviderZoneRoute.t) (provider_id : string)
    (zs : list ProviderZone.t) :
  has_slash provider_id = false ->
  App.comparison_row (DataLoader.build_index postcodes zones routes) provider_id zs
  = App.mkRow provider_id (length zs) 0 0 0 0.
Proof.
  intros Hs. unfold App.comparison_row, DataLoader.build_index, DataLoader._build_graph_index.
  simpl. unfold DataLoader.provider_graph. rewrite foldl_file_get. simpl.
  rewrite filter_none; [done|].
  intros r _ Hr. pose proof (route_key_has_slash r) as Hk. congruence.
Qed.

(** *** Costs of the routes the loader builds *)

Lemma route_of_row_cost (row : DataLoader.route_row) (w : Q) :
  (0 <= row_base_cost row)%Q ->
  (0 <= ProviderZoneRoute.calculateCost (DataLoader.route_of_row row) w)%Q.
Proof.
  destruct row as [[[[[[p f] t] base] rate] etd] maxw]. unfold row_base_cost. simpl.
  intros Hb.
  pose proof (calculateCost_lower_bound
                (DataLoader.route_of_row (p, f, t, base, rate, etd, maxw)) w) as Hlow.
  simpl in Hlow. specialize (Hlow Hb ltac:(done)).
  unfold DataLoader.route_of_row in *. lra.
Qed.

Lemma build_index_routes (postcodes : list Postcode.t) (zones : list ProviderZone.t)
    (routes : list ProviderZoneRoute.t) (r : ProviderZoneRoute.t) :
  indexed_route (DataLoader.build_index postcodes zones routes) r -> r ∈ routes.
Proof.
  intros ([p z] & l & Hl & Hr).
  assert (Hall : r ∈ all_routes (DataLoader.provider_graph routes)).
  { unfold DataLoader.build_index, DataLoader._build_graph_index in Hl. simpl in Hl.
    destruct Hl as [Hl | Hl].
    - pose proof (buildZoneAdjacency_all (DataLoader.provider_graph routes) p z) as Heq.
      rewrite Hl in Heq. simpl in Heq. rewrite Heq in Hr.
      by apply list_elem_of_filter in Hr as [_ ?].
    - pose proof (buildReverseZoneAdjacency_all (DataLoader.provider_graph routes) p z) as Heq.
      rewrite Hl in Heq. simpl in Heq. rewrite Heq in Hr.
      by apply list_elem_of_filter in Hr as [_ ?]. }
  unfold all_routes, DataLoader.provider_graph in Hall.
  by rewrite (foldl_file_perm DataLoader.route_key [] routes) in Hall.
Qed.

Lemma build_index_costs_nonneg (postcodes : list Postcode.t) (zones : list ProviderZone.t)
    (rows : list DataLoader.route_row) (w : Q) :
  Forall (fun row => (0 <= row_base_cost row)%Q) rows ->
  route_costs_nonneg
    (DataLoader.build_index postcodes zones (DataLoader.route_of_row <$> rows)) w.
Proof.
  intros Hrows k l r Hl Hr.
  assert (Hin : r ∈ DataLoader.route_of_row <$> rows).
  { apply (build_index_routes postcodes zones). by exists k, l. }
  apply list_elem_of_fmap in Hin as (row & -> & Hrow).
  apply route_of_row_cost. rewrite Forall_forall in Hrows. by apply Hrows.
Qed.

(** *** The button "Find Routes" *)

Lemma find_routes_one_route (sqrt : Q -> Q) (graph_index : GraphIndex.t)
    (criteria : App.Criteria) (shipment_id : string) (createdAt : Z)
    (origin_pc dest_pc : string) (weight_kg volume_cbm max_cost max_etd : Q) :
  origin_pc ∈ dom (GraphIndex.postcodes graph_index) ->
  dest_pc ∈ dom (GraphIndex.postcodes graph_index) ->
  route_costs_nonneg graph_index weight_kg ->
  exists path,
    converges (fun fuel => App.find_routes sqrt fuel graph_index criteria shipment_id
                             createdAt origin_pc dest_pc weight_kg volume_cbm
                             max_cost max_etd) [path].
Proof.
  intros [o Ho]%elem_of_dom [d Hd]%elem_of_dom Hnn.
  unfold App.find_routes, getitem. rewrite Ho, Hd. cbn [mbind outcome_bind obind].
  set (shipment := Shipment.mk _ _ _ _ _ _ _ _ _ _ _ _ _).
  set (engine := EngineNew.mk graph_index (GraphIndex.postcodes graph_index)).
  assert (Hfind : forall maxCost maxETD,
            exists path, converges (fun fuel => EngineNew.find_mltihop_path sqrt fuel engine
                                                  shipment maxCost maxETD 5 10) [path]).
  { intros maxCost maxETD.
    destruct (EngineNew_find_converges sqrt engine shipment maxCost maxETD 5 10)
      as (found & _ & Hconv).
    - apply elem_of_dom. simpl. eauto.
    - apply elem_of_dom. simpl. eauto.
    - done.
    - destruct found as [p|]; eauto. }
  destruct criteria.
  - eexists. apply converges_ret.
  - apply (Hfind PInf (Fin max_etd)).
  - apply (Hfind (Fin max_cost) PInf).
  - apply (Hfind PInf PInf).
Qed.

Lemma find_routes_lowest_cost_is_bit_of_both (sqrt : Q -> Q) (fuel : nat)
    (graph_index : GraphIndex.t) (shipment_id : string) (createdAt : Z)
    (origin_pc dest_pc : string) (weight_kg volume_cbm max_cost max_etd : Q) :
  App.find_routes sqrt fuel graph_index App.LowestCost shipment_id createdAt origin_pc
    dest_pc weight_kg volume_cbm max_cost max_etd
  = App.find_routes sqrt fuel graph_index App.BitOfBoth shipment_id createdAt origin_pc
      dest_pc weight_kg volume_cbm max_cost max_etd.
Proof. reflexivity. Qed.

(** X19: on the index the loader builds, the outgoing routes of a
    provider's zone are the loaded routes of that provider from that
    zone, in loading order, and the incoming routes are the loaded routes
    of that provider into that zone, each as often as it was loaded. *)
Theorem X19_loaded_routes_by_zone (postcodes : list Postcode.t) (zones : list ProviderZone.t)
    (routes : list ProviderZoneRoute.t) (p z : string) :
  let idx := DataLoader.build_index postcodes zones routes in
  GraphIndex.get_OutgoingRoutes idx (Some p) z
  = filter (fun r => (ProviderZoneRoute.providerId r, ProviderZoneRoute.fromZone r) = (p, z))
           routes
  /\ GraphIndex.get_IncomingRoutes idx (Some p) z
     ≡ₚ filter (fun r => (ProviderZoneRoute.providerId r, ProviderZoneRoute.toZone r) = (p, z))
               routes.
Proof.
  split; [apply build_index_outgoing | apply build_index_incoming].
Qed.

Lemma X22_provider_comparison_shows_no_routes_witness :
  App.comparison_row
    (DataLoader.build_index poc_postcodes poc_zones
       (DataLoader.route_of_row <$> DataLoader.all_routes))
    "FP_5" (App.dict_get (DataLoader.zones_by_provider poc_zones) "FP_5")
  = App.mkRow "FP_5" 4 0 0 0 0.
Proof.
  exact (X22_provider_comparison_shows_no_routes poc_postcodes poc_zones
           (DataLoader.route_of_row <$> DataLoader.all_routes) "FP_5"
           (App.dict_get (DataLoader.zones_by_provider poc_zones) "FP_5") eq_refl).
Defined.

(** The table of the page over the sample data: no provider has a route,
    although twenty routes are loaded. *)
Lemma comparison_sample :
  App.comparison poc_index
  = [ App.mkRow "FP_1" 4 0 0 0 0; App.mkRow "FP_2" 4 0 0 0 0; App.mkRow "FP_3" 4 0 0 0 0;
      App.mkRow "FP_4" 4 0 0 0 0; App.mkRow "FP_5" 4 0 0 0 0 ]
    /\ App.metric_zone_routes poc_index = 20.
Proof. split; vm_compute; reflexivity. Qed.

(** X23: over an index the loader builds from rows of non-negative base
    cost, the button "Find Routes" with two known postcodes selected ends
    without error and shows exactly one route, whatever the criteria, the
    weight and the thresholds. *)
Theorem X23_route_finder_shows_one_route (sqrt : Q -> Q) (postcodes : list Postcode.t)
    (zones : list ProviderZone.t) (rows : list DataLoader.route_row)
    (criteria : App.Criteria) (shipment_id : string) (createdAt : Z)
    (origin_pc dest_pc : string) (weight_kg volume_cbm max_cost max_etd : Q) :
  let graph_index :=
    DataLoader.build_index postcodes zones (DataLoader.route_of_row <$> rows) in
  origin_pc <> "" -> dest_pc <> "" ->
  origin_pc ∈ dom (GraphIndex.postcodes graph_index) ->
  dest_pc ∈ dom (GraphIndex.postcodes graph_index) ->
  Forall (fun row => (0 <= row_base_cost row)%Q) rows ->
  exists path,
    converges (fun fuel => App.find_routes sqrt fuel graph_index criteria shipment_id
                             createdAt origin_pc dest_pc weight_kg volume_cbm
                             max_cost max_etd) [path].
Proof.
  intros graph_index _ _ Ho Hd Hrows.
  apply find_routes_one_route; [done | done |]. by apply build_index_costs_nonneg.
Qed.

Lemma X23_route_finder_shows_one_route_witness :
  exists path,
    converges (fun fuel => App.find_routes sample_sqrt fuel
                             (DataLoader.build_index poc_postcodes poc_zones
                                (DataLoader.route_of_row <$> DataLoader.all_routes))
                             App.Fastest "shipment-1" 0 "2000" "3000" 100 0.5 1000 96)
              [path].
Proof.
  apply (X23_route_finder_shows_one_route sample_sqrt poc_postcodes poc_zones
           DataLoader.all_routes App.Fastest "shipment-1" 0 "2000" "3000" 100 0.5 1000 96).
  - done.
  - done.
  - by vm_compute.
  - by vm_compute.
  - let l := eval vm_compute in DataLoader.all_routes in
    change DataLoader.all_routes with l.
    repeat (constructor; [unfold Qle; simpl; lia|]). constructor.
Defined.

(** X24: with the criteria "None" and two known postcodes selected, the
    button "Find Routes" shows one route with infinite cost, infinite
    time, no node and no segment, without any search. *)
Theorem X24_criteria_none_shows_placeholder (sqrt : Q -> Q) (fuel : nat)
    (graph_index : GraphIndex.t) (shipment_id : string) (createdAt : Z)
    (origin_pc dest_pc : string) (weight_kg volume_cbm max_cost max_etd : Q) :
  origin_pc <> "" -> dest_pc <> "" ->
  origin_pc ∈ dom (GraphIndex.postcodes graph_index) ->
  dest_pc ∈ dom (GraphIndex.postcodes graph_index) ->
  exists p,
    App.find_routes sqrt fuel graph_index App.CriteriaNone shipment_id createdAt origin_pc
      dest_pc weight_kg volume_cbm max_cost max_etd = Ret [p]
    /\ MultiHopPath.totalCost p = PInf /\ MultiHopPath.totalETD p = PInf
    /\ MultiHopPath.nodes p = [] /\ MultiHopPath.segments p = [].
Proof.
  intros _ _ [o Ho]%elem_of_dom [d Hd]%elem_of_dom.
  unfold App.find_routes, getitem. rewrite Ho, Hd. cbn [mbind outcome_bind obind].
  eexists. split; [reflexivity|]. done.
Qed.

Lemma X24_criteria_none_shows_placeholder_witness :
  exists p,
    App.find_routes sample_sqrt 0 poc_index App.CriteriaNone "shipment-1" 0 "2000" "3000"
      100 0.5 1000 96 = Ret [p]
    /\ MultiHopPath.totalCost p = PInf /\ MultiHopPath.totalETD p = PInf
    /\ MultiHopPath.nodes p = [] /\ MultiHopPath.segments p = [].
Proof.
  apply (X24_criteria_none_shows_placeholder sample_sqrt 0 poc_index "shipment-1" 0
           "2000" "3000" 100 0.5 1000 96).
  - done.
  - done.
  - by vm_compute.
  - by vm_compute.
Defined.
(** ** The heuristic *)

Lemma square_diff_sym (x y : Q) : ((x - y) ^ 2 = (y - x) ^ 2)%Q.
Proof.
  destruct x as [a b], y as [c d]. unfold Qminus, Qplus, Qopp, Qpower, Qpower_positive.
  simpl. unfold Qmult. simpl. f_equal; [ring|]. by rewrite (Pos.mul_comm b d).
Qed.

Lemma Engine_heuristic_sym (sqrt : Q -> Q) (self : Engine.t) (pcA pcB : string) :
  Engine._heuristic sqrt self pcA pcB = Engine._heuristic sqrt self pcB pcA.
Proof.
  unfold Engine._heuristic.
  destruct (Engine.postcodes self !! pcA) as [a|], (Engine.postcodes self !! pcB) as [b|];
    try done.
  destruct (Engine.state_coords !! _) as [[lonA latA]|],
           (Engine.state_coords !! _) as [[lonB latB]|]; try done.
  cbv zeta. by rewrite (square_diff_sym lonA lonB), (square_diff_sym latA latB).
Qed.

Lemma EngineNew_heuristic_sym (sqrt : Q -> Q) (self : EngineNew.t) (pcA pcB : string) :
  EngineNew._heuristic sqrt self pcA pcB = EngineNew._heuristic sqrt self pcB pcA.
Proof.
  unfold EngineNew._heuristic.
  destruct (EngineNew.postcodes self !! pcA) as [a|],
           (EngineNew.postcodes self !! pcB) as [b|]; try done.
  cbv zeta. by rewrite (square_diff_sym (default _ _).1), (square_diff_sym (default _ _).2).
Qed.

Lemma Engine_heuristic_nonneg (sqrt : Q -> Q) (self : Engine.t) (pcA pcB : string) :
  (forall x, (0 <= sqrt x)%Q) -> (0 <= Engine._heuristic sqrt self pcA pcB)%Q.
Proof.
  intros Hs. unfold Engine._heuristic.
  repeat case_match; try done; apply Qmult_le_0_compat; done.
Qed.

Lemma Engine_heuristic_unknown (sqrt : Q -> Q) (self : Engine.t) (pcA pcB : string) :
  pcA ∉ dom (Engine.postcodes self) \/ pcB ∉ dom (Engine.postcodes self) ->
  Engine._heuristic sqrt self pcA pcB = 0%Q.
Proof.
  unfold Engine._heuristic. rewrite !not_elem_of_dom. intros [-> | ->]; [done|].
  by destruct (_ !! pcA).
Qed.

(** X25: the heuristic of both engines is symmetric in its two
    postcodes. *)
Theorem X25_heuristic_symmetric (sqrt : Q -> Q) (self : Engine.t) (self' : EngineNew.t)
    (pcA pcB : string) :
  Engine._heuristic sqrt self pcA pcB = Engine._heuristic sqrt self pcB pcA
  /\ EngineNew._heuristic sqrt self' pcA pcB = EngineNew._heuristic sqrt self' pcB pcA.
Proof.
  split; [apply Engine_heuristic_sym | apply EngineNew_heuristic_sym].
Qed.
